(** * encoji: hiding bytes in Unicode variation selectors

    A shallow embedding of the codec core of [encoji.go]
    ([byteToVariationSelector], [variationSelectorToByte], [encode],
    [decode], [EncodeText], [DecodeText]) together with the parts of the Go
    standard library it calls ([unicode/utf8], [unicode.IsSpace],
    [strings.TrimSpace]), and the properties of the codec.

    Conventions.  A Go [string] or [[]byte] is a [list Z] of byte values
    (0..255); a [rune] is a [Z] in the int32 range; conversions between
    integer types are written out as the wrap-around they perform. *)

From Stdlib Require Import String ZArith List Lia Bool.
From Equations Require Import Equations.
Import ListNotations.

Local Open Scope Z_scope.

(* ===================================================================== *)
(** * Go integer types and conversions *)
(* ===================================================================== *)

Module GoInt.

(** [byte(x)]: conversion to uint8 keeps the low 8 bits. *)
Definition to_byte (x : Z) : Z := x mod 256.

(** [uint32(x)]: conversion to uint32 keeps the low 32 bits. *)
Definition to_uint32 (x : Z) : Z := x mod 4294967296.

(** [rune(x)] = [int32(x)]: the low 32 bits, read as two's complement. *)
Definition to_rune (x : Z) : Z := (x + 2147483648) mod 4294967296 - 2147483648.

Definition is_byte (b : Z) : Prop := 0 <= b < 256.
Definition is_rune (r : Z) : Prop := -2147483648 <= r < 2147483648.

(** A Go string whose elements really are bytes. *)
Definition is_bytes (s : list Z) : Prop := Forall is_byte s.

End GoInt.
Import GoInt.

(* ===================================================================== *)
(** * Package unicode/utf8 *)
(* ===================================================================== *)

(** The functions of the Go standard library the codec runs on, written
    after their Go sources: the tables become functions of the byte, the
    loops recursive functions. *)

Module utf8.

Definition RuneError : Z := 0xFFFD.
Definition RuneSelf  : Z := 0x80.
Definition MaxRune   : Z := 0x10FFFF.
Definition UTFMax    : nat := 4.

Definition surrogateMin : Z := 0xD800.
Definition surrogateMax : Z := 0xDFFF.

Definition t1 : Z := 0x00.
Definition tx : Z := 0x80.
Definition t2 : Z := 0xC0.
Definition t3 : Z := 0xE0.
Definition t4 : Z := 0xF0.
Definition t5 : Z := 0xF8.

Definition maskx : Z := 0x3F.
Definition mask2 : Z := 0x1F.
Definition mask3 : Z := 0x0F.
Definition mask4 : Z := 0x07.

Definition rune1Max : Z := 0x7F.
Definition rune2Max : Z := 0x7FF.
Definition rune3Max : Z := 0xFFFF.

Definition locb : Z := 0x80.
Definition hicb : Z := 0xBF.

(** Information about the first byte of an encoding: the low three bits
    are the length, the high four bits index [acceptRanges]. *)
Definition xx  : Z := 0xF1. (* invalid: size 1 *)
Definition as_ : Z := 0xF0. (* ASCII: size 1 *)
Definition s1  : Z := 0x02. (* accept 0, size 2 *)
Definition s2  : Z := 0x13. (* accept 1, size 3 *)
Definition s3  : Z := 0x03. (* accept 0, size 3 *)
Definition s4  : Z := 0x23. (* accept 2, size 3 *)
Definition s5  : Z := 0x34. (* accept 3, size 4 *)
Definition s6  : Z := 0x04. (* accept 0, size 4 *)
Definition s7  : Z := 0x44. (* accept 4, size 4 *)

(** The table [first[256]], row by row. *)
Definition first (b : Z) : Z :=
  if b <=? 0x7F then as_        (* 0x00-0x7F *)
  else if b <=? 0xC1 then xx    (* 0x80-0xC1 *)
  else if b <=? 0xDF then s1    (* 0xC2-0xDF *)
  else if b =? 0xE0 then s2     (* 0xE0 *)
  else if b <=? 0xEC then s3    (* 0xE1-0xEC *)
  else if b =? 0xED then s4     (* 0xED *)
  else if b <=? 0xEF then s3    (* 0xEE-0xEF *)
  else if b =? 0xF0 then s5     (* 0xF0 *)
  else if b <=? 0xF3 then s6    (* 0xF1-0xF3 *)
  else if b =? 0xF4 then s7     (* 0xF4 *)
  else xx.                      (* 0xF5-0xFF *)

(** The table [acceptRanges]: the range [(lo, hi)] of valid second bytes. *)
Definition acceptRanges (i : Z) : Z * Z :=
  if i =? 0 then (locb, hicb)
  else if i =? 1 then (0xA0, hicb)
  else if i =? 2 then (locb, 0x9F)
  else if i =? 3 then (0x90, hicb)
  else if i =? 4 then (locb, 0x8F)
  else (0, 0).

(** [s[i]] for an index known to be in range. *)
Definition at_ (s : list Z) (i : nat) : Z := nth i s 0.

(** [DecodeRuneInString]: the first rune of [s] and its width in bytes;
    [(RuneError, 0)] on the empty string and [(RuneError, 1)] on an
    invalid encoding.  The branch-free mask of the ASCII/invalid case is
    written as the conditional it simulates. *)
Definition DecodeRuneInString (s : list Z) : Z * nat :=
  let n := length s in
  if (n <? 1)%nat then (RuneError, 0%nat)
  else
    let s0 := at_ s 0 in
    let x := first s0 in
    if x >=? as_ then
      (if x =? xx then RuneError else s0, 1%nat)
    else
      let sz := Z.to_nat (Z.land x 7) in
      let accept := acceptRanges (Z.shiftr x 4) in
      if (n <? sz)%nat then (RuneError, 1%nat)
      else
        let s1 := at_ s 1 in
        if (s1 <? fst accept) || (snd accept <? s1) then (RuneError, 1%nat)
        else if (sz <=? 2)%nat then
          (Z.lor (Z.shiftl (Z.land s0 mask2) 6) (Z.land s1 maskx), 2%nat)
        else
          let s2 := at_ s 2 in
          if (s2 <? locb) || (hicb <? s2) then (RuneError, 1%nat)
          else if (sz <=? 3)%nat then
            (Z.lor (Z.lor (Z.shiftl (Z.land s0 mask3) 12)
                          (Z.shiftl (Z.land s1 maskx) 6))
                   (Z.land s2 maskx), 3%nat)
          else
            let s3 := at_ s 3 in
            if (s3 <? locb) || (hicb <? s3) then (RuneError, 1%nat)
            else
              (Z.lor (Z.lor (Z.lor (Z.shiftl (Z.land s0 mask4) 18)
                                   (Z.shiftl (Z.land s1 maskx) 12))
                            (Z.shiftl (Z.land s2 maskx) 6))
                     (Z.land s3 maskx), 4%nat).

(** [RuneStart(b)]: [b] is not a continuation byte. *)
Definition RuneStart (b : Z) : bool := negb (Z.land b 0xC0 =? 0x80).

(** The backward scan of [DecodeLastRuneInString]:
    [for start--; start >= lim; start-- { if RuneStart(s[start]) { break } }],
    entered with [start] already decremented; [k] counts the positions
    [lim..start] still to visit.  The result is [start] after the loop,
    as an integer, since it is [lim - 1] when no start byte is found. *)
Fixpoint scanBack (s : list Z) (k : nat) (start : Z) : Z :=
  match k with
  | O => start
  | S k' => if RuneStart (at_ s (Z.to_nat start)) then start
            else scanBack s k' (start - 1)
  end.

(** [DecodeLastRuneInString]: the last rune of [s] and its width. *)
Definition DecodeLastRuneInString (s : list Z) : Z * nat :=
  let end_ := Z.of_nat (length s) in
  if end_ =? 0 then (RuneError, 0%nat)
  else
    let start := end_ - 1 in
    let r := at_ s (Z.to_nat start) in
    if r <? RuneSelf then (r, 1%nat)
    else
      let lim := Z.max 0 (end_ - Z.of_nat UTFMax) in
      let start := scanBack s (Z.to_nat (start - lim)) (start - 1) in
      let start := Z.max 0 start in
      let '(r, size) := DecodeRuneInString (skipn (Z.to_nat start) s) in
      if negb (start + Z.of_nat size =? end_) then (RuneError, 1%nat)
      else (r, size).

(** [AppendRune(p, r)] for [p] empty: the UTF-8 encoding of [r], as
    [strings.Builder.WriteRune] appends it.  Runes out of range and
    surrogates are written as [RuneError]. *)
Definition EncodeRune (r : Z) : list Z :=
  let i := to_uint32 r in
  if i <=? rune1Max then [to_byte r]
  else if i <=? rune2Max then
    [Z.lor t2 (to_byte (Z.shiftr r 6));
     Z.lor tx (Z.land (to_byte r) maskx)]
  else
    let enc3 (r : Z) :=
      [Z.lor t3 (to_byte (Z.shiftr r 12));
       Z.lor tx (Z.land (to_byte (Z.shiftr r 6)) maskx);
       Z.lor tx (Z.land (to_byte r) maskx)] in
    if (MaxRune <? i) || ((surrogateMin <=? i) && (i <=? surrogateMax))
    then enc3 RuneError
    else if i <=? rune3Max then enc3 r
    else
      [Z.lor t4 (to_byte (Z.shiftr r 18));
       Z.lor tx (Z.land (to_byte (Z.shiftr r 12)) maskx);
       Z.lor tx (Z.land (to_byte (Z.shiftr r 6)) maskx);
       Z.lor tx (Z.land (to_byte r) maskx)].

(** What [for i, r := range s] yields: the byte index and the rune of
    each step, in order.  The range clause decodes as
    [DecodeRuneInString] does: an invalid encoding yields [RuneError] and
    the iteration advances by one byte.  [i] is the index of the first
    byte of [s] in the string being ranged over. *)
Equations? range_from (i : nat) (s : list Z) : list (nat * Z)
  by wf (length s) lt :=
  range_from i [] := [];
  range_from i (c :: s') :=
    let r := fst (DecodeRuneInString (c :: s')) in
    let size := snd (DecodeRuneInString (c :: s')) in
    (i, r) :: range_from (i + size) (skipn size (c :: s')).
Proof.
  assert (Hsize : (1 <= snd (DecodeRuneInString (c :: s')))%nat).
  { unfold DecodeRuneInString.
    change (length (c :: s') <? 1)%nat with false. cbv iota.
    repeat match goal with
           | |- context [if ?b then _ else _] => destruct b
           end; simpl; lia. }
  rewrite length_skipn. simpl length. lia.
Qed.

Definition range_string (s : list Z) : list (nat * Z) := range_from 0 s.

(** The runes of [s], as [for _, r := range s] sees them. *)
Definition runes (s : list Z) : list Z := map snd (range_string s).

End utf8.

(* ===================================================================== *)
(** * Package unicode *)
(* ===================================================================== *)

Module unicode.

Definition MaxLatin1 : Z := 0xFF.

(** The entries of the range table [White_Space] above Latin-1. *)
Definition White_Space_excluding_latin : list (Z * Z) :=
  [ (0x1680, 0x1680); (0x2000, 0x200a); (0x2028, 0x2029);
    (0x202f, 0x202f); (0x205f, 0x205f); (0x3000, 0x3000) ].

(** [isExcludingLatin]: on a rune, the lookup in the table is the
    membership in one of its ranges (all of stride 1). *)
Definition isExcludingLatin (tab : list (Z * Z)) (r : Z) : bool :=
  existsb (fun range => (fst range <=? r) && (r <=? snd range)) tab.

(** [unicode.IsSpace]: the Latin-1 white space by cases, the rest by the
    table. *)
Definition IsSpace (r : Z) : bool :=
  if to_uint32 r <=? MaxLatin1 then
    (r =? 0x09) || (r =? 0x0A) || (r =? 0x0B) || (r =? 0x0C) ||
    (r =? 0x0D) || (r =? 0x20) || (r =? 0x85) || (r =? 0xA0)
  else isExcludingLatin White_Space_excluding_latin r.

End unicode.

(* ===================================================================== *)
(** * Package strings *)
(* ===================================================================== *)

Module strings.
Import utf8.

(** The table [asciiSpace]: 1 at tab, newline, vertical tab, form feed,
    carriage return and space. *)
Definition asciiSpace (c : Z) : Z :=
  if (c =? 0x09) || (c =? 0x0A) || (c =? 0x0B) || (c =? 0x0C) ||
     (c =? 0x0D) || (c =? 0x20)
  then 1 else 0.

(** [indexFunc]: the loop returns at the first rune with [f(r) == truth]. *)
Fixpoint indexFunc_loop (f : Z -> bool) (truth : bool)
         (steps : list (nat * Z)) : Z :=
  match steps with
  | [] => -1
  | (i, r) :: steps' =>
      if Bool.eqb (f r) truth then Z.of_nat i
      else indexFunc_loop f truth steps'
  end.

Definition indexFunc (s : list Z) (f : Z -> bool) (truth : bool) : Z :=
  indexFunc_loop f truth (range_string s).

(** [lastIndexFunc]: [for i := len(s); i > 0; { ... }]; the state of the
    loop is the prefix [s[0:i]]. *)
Equations? lastIndexFunc_loop (f : Z -> bool) (truth : bool)
           (pre : list Z) : Z by wf (length pre) lt :=
  lastIndexFunc_loop f truth [] := -1;
  lastIndexFunc_loop f truth (c :: pre') :=
    let r := fst (DecodeLastRuneInString (c :: pre')) in
    let size := snd (DecodeLastRuneInString (c :: pre')) in
    let i := (length (c :: pre') - size)%nat in
    if Bool.eqb (f r) truth then Z.of_nat i
    else lastIndexFunc_loop f truth (firstn i (c :: pre')).
Proof.
  assert (Hback : forall s k st, scanBack s k st <= st).
  { intros s k. induction k as [|k IH]; intros st; simpl.
    - lia.
    - destruct (RuneStart _); [lia | specialize (IH (st - 1)); lia]. }
  assert (Hdec : forall s, s <> [] ->
                           (1 <= snd (DecodeRuneInString s))%nat).
  { intros s Hs. destruct s as [|a s]; [congruence|].
    unfold DecodeRuneInString.
    change (length (a :: s) <? 1)%nat with false. cbv iota.
    repeat match goal with
           | |- context [if ?b then _ else _] => destruct b
           end; simpl; lia. }
  assert (Hsize : (1 <= snd (DecodeLastRuneInString (c :: pre')))%nat).
  { unfold DecodeLastRuneInString.
    set (n := Z.of_nat (length (c :: pre'))).
    assert (Hn : 1 <= n) by (unfold n; simpl length; lia).
    destruct (n =? 0) eqn:E0; [lia|].
    destruct (_ <? RuneSelf); [simpl; lia|].
    match goal with
    | |- context [skipn (Z.to_nat ?st) _] => set (start := st)
    end.
    assert (Hst : 0 <= start <= n - 1).
    { unfold start.
      match goal with
      | |- context [scanBack ?s ?k ?st] => specialize (Hback s k st)
      end. lia. }
    specialize (Hdec (skipn (Z.to_nat start) (c :: pre'))).
    destruct (DecodeRuneInString _) as [r0 sz].
    destruct (negb _); simpl; [lia|].
    apply Hdec. intros Hnil.
    apply (f_equal (@length Z)) in Hnil.
    rewrite length_skipn in Hnil. unfold n in Hst. clearbody start.
    cbn [length] in *. clear - Hnil Hst. lia. }
  rewrite length_firstn. subst i size. revert Hsize.
  generalize (snd (DecodeLastRuneInString (c :: pre'))).
  intros k Hk. destruct k as [|k]; [lia|].
  cbn [length Nat.sub]. lia.
Qed.

Definition lastIndexFunc (s : list Z) (f : Z -> bool) (truth : bool) : Z :=
  lastIndexFunc_loop f truth s.

(** [s[i:]] and [s[i:j]]. *)
Definition slice_from (s : list Z) (i : nat) : list Z := skipn i s.
Definition slice (s : list Z) (i j : nat) : list Z := firstn (j - i) (skipn i s).

Definition TrimLeftFunc (s : list Z) (f : Z -> bool) : list Z :=
  let i := indexFunc s f false in
  if i =? -1 then [] else slice_from s (Z.to_nat i).

Definition TrimRightFunc (s : list Z) (f : Z -> bool) : list Z :=
  let i := lastIndexFunc s f false in
  let i :=
    if (i >=? 0) && (at_ s (Z.to_nat i) >=? RuneSelf)
    then i + Z.of_nat (snd (DecodeRuneInString (slice_from s (Z.to_nat i))))
    else i + 1 in
  slice s 0 (Z.to_nat i).

Definition TrimFunc (s : list Z) (f : Z -> bool) : list Z :=
  TrimRightFunc (TrimLeftFunc s f) f.

(** The second loop of [TrimSpace], [for ; stop > start; stop--], run on
    the reversal of [s[start:stop]], whose head is [s[stop-1]]. *)
Fixpoint TrimSpace_stop (rs : list Z) : list Z :=
  match rs with
  | [] => []
  | c :: rs' =>
      if c >=? RuneSelf then TrimRightFunc (rev rs) unicode.IsSpace
      else if asciiSpace c =? 0 then rev rs
      else TrimSpace_stop rs'
  end.

(** [TrimSpace]: the first loop, [for ; start < len(s); start++], whose
    state is the suffix [s[start:]], followed by the second loop. *)
Fixpoint TrimSpace (s : list Z) : list Z :=
  match s with
  | [] => TrimSpace_stop (rev s)
  | c :: s' =>
      if c >=? RuneSelf then TrimFunc s unicode.IsSpace
      else if asciiSpace c =? 0 then TrimSpace_stop (rev s)
      else TrimSpace s'
  end.

End strings.

Import utf8.

(* ===================================================================== *)
(** * Package encoji *)
(* ===================================================================== *)

(** A Go [(T, error)] result: the value, or the message of the error made
    by [errors.New]. *)
Inductive result (A : Type) : Type :=
| Ok (a : A)
| Err (msg : string).
Arguments Ok {A} a.
Arguments Err {A} msg.

(** The fields of [smuggler] the codec reads; the readers and writers
    belong to the driver.  The field [encode] is [encodeMode] here, the
    name [encode] being the function's. *)
Record smuggler : Type := {
  clearText : list Z;
  encodeMode : bool
}.

(** [byteToVariationSelector]. *)
Definition byteToVariationSelector (b : Z) : Z :=
  if b <? 16 then to_rune (to_uint32 (0xFE00 + to_uint32 b))
  else to_rune (to_uint32 (0xE0100 + to_uint32 (to_byte (b - 16)))).

(** [encode]: the builder receives [base], then one selector per byte. *)
Definition encode (base : Z) (sentence : list Z) : list Z :=
  fold_left (fun s b => s ++ EncodeRune (byteToVariationSelector b))
            sentence ([] ++ EncodeRune base).

Definition range1S : Z := 0xFE00.
Definition range1E : Z := 0xFE0F.
Definition range2S : Z := 0xE0100.
Definition range2E : Z := 0xE01EF.

(** One search loop of [variationSelectorToByte],
    [for i := rangeS; i <= rangeE; i++ { if varSel == i { return found } }],
    from the current [i]: [Some found] when the loop returns, [None] when
    it runs to its end.  [rangeE] is below the largest uint32, so [i++]
    does not wrap. *)
Equations? scan_range (varSel rangeE found i : Z) : option Z
  by wf (Z.to_nat (rangeE + 1 - i)) lt :=
  scan_range varSel rangeE found i with Z_le_gt_dec i rangeE => {
    | left _ := if varSel =? i then Some found
                else scan_range varSel rangeE found (i + 1);
    | right _ := None }.
Proof. lia. Qed.

(** [variationSelectorToByte]. *)
Definition variationSelectorToByte (vs : Z) : result Z :=
  let varSel := to_uint32 vs in
  match scan_range varSel range1E
                   (to_byte (to_uint32 (varSel - range1S))) range1S with
  | Some b => Ok b
  | None =>
      match scan_range varSel range2E
                       (to_byte (to_uint32 (to_uint32 (varSel - range2S) + 16)))
                       range2S with
      | Some b => Ok b
      | None => Err "couldn't decode"
      end
  end.

(** The body of the loop of [decode]: one byte written per rune. *)
Definition decode_step (message : list Z) (vs : Z) : list Z :=
  match variationSelectorToByte vs with
  | Ok b => message ++ [b]
  | Err _ => message ++ [0x0A]
  end.

(** The byte the loop of [decode] writes for one rune. *)
Definition written (vs : Z) : Z :=
  match variationSelectorToByte vs with
  | Ok b => b
  | Err _ => 0x0A
  end.

(** [decode]: [for _, vs := range varSels]. *)
Definition decode (varSels : list Z) : list Z :=
  fold_left decode_step (runes varSels) [].

(** [smuggler.EncodeText]. *)
Definition EncodeText (s : smuggler) (target : list Z) : result (list Z) :=
  if (length target =? 0)%nat then Err "target cannot be empty"
  else if (length (clearText s) =? 0)%nat then Err "clear text cannot be empty"
  else
    let encodedText := encode (to_rune (at_ target 0)) (clearText s) in
    let encodedText :=
      if (1 <? length target)%nat
      then encodedText ++ strings.slice_from target 1
      else encodedText in
    Ok encodedText.

(** [smuggler.DecodeText]. *)
Definition DecodeText (s : smuggler) (target : list Z) : result (list Z) :=
  if (length target =? 0)%nat then Err "target cannot be empty"
  else Ok (strings.TrimSpace (decode target)).

(* ===================================================================== *)
(** * The vocabulary of the specification *)
(* ===================================================================== *)

(** Range A and Range B of the variation selectors. *)
Definition in_rangeA (cp : Z) : Prop := 0xFE00 <= cp <= 0xFE0F.
Definition in_rangeB (cp : Z) : Prop := 0xE0100 <= cp <= 0xE01EF.
Definition in_rangeAb (cp : Z) : bool := (0xFE00 <=? cp) && (cp <=? 0xFE0F).
Definition in_rangeBb (cp : Z) : bool := (0xE0100 <=? cp) && (cp <=? 0xE01EF).
Definition VariationSelector (cp : Z) : Prop := in_rangeA cp \/ in_rangeB cp.

(** [ToCodepoint] as the specification words it. *)
Definition ToCodepoint_spec (b : Z) : Z :=
  if b <? 16 then 0xFE00 + b else 0xE0100 + (b - 16).

(** [FromCodepoint] as the specification words it: membership by interval
    comparison, [None] standing for [NotAVariationSelector]. *)
Definition FromCodepoint_spec (cp : Z) : option Z :=
  if in_rangeAb cp then Some (cp - 0xFE00)
  else if in_rangeBb cp then Some (cp - 0xE0100 + 16)
  else None.

(** The byte [Extract] writes for a codepoint: the recovered byte, or the
    newline that stands in for a codepoint that is no selector. *)
Definition byte_or_newline (cp : Z) : Z :=
  match FromCodepoint_spec cp with
  | Some b => b
  | None => 0x0A
  end.

(** The two emptiness errors are the specification's [EmptyInputError]. *)
Definition EmptyInputError (msg : string) : Prop :=
  msg = "target cannot be empty"%string \/
  msg = "clear text cannot be empty"%string.

(** A Unicode scalar value: a code point that is not a surrogate. *)
Definition is_scalar (r : Z) : Prop :=
  0 <= r <= 0x10FFFF /\ ~ (0xD800 <= r <= 0xDFFF).

(** The UTF-8 text made of the scalar values [rs]. *)
Definition utf8_string (rs : list Z) : list Z := concat (map EncodeRune rs).

(** A graphic ASCII character. *)
Definition isgraph (b : Z) : Prop := 0x21 <= b <= 0x7E.

(** A printable, non-whitespace byte in the wider sense: a graphic
    character of ASCII or of ISO 8859-1 (0xA1..0xFF). *)
Definition printable (b : Z) : Prop := isgraph b \/ 0xA1 <= b <= 0xFF.

(** A byte outside 0x80..0xA0.  The UTF-8 encoding of every white
    space rune above ASCII has a byte in that range. *)
Definition no_space_byte (b : Z) : Prop := ~ (0x80 <= b <= 0xA0).

(** The bytes of the ASCII white space, as [asciiSpace] marks them. *)
Definition is_ascii_space (c : Z) : Prop :=
  c = 0x09 \/ c = 0x0A \/ c = 0x0B \/ c = 0x0C \/ c = 0x0D \/ c = 0x20.

(** The shapes of one decoding step: what [DecodeRuneInString] returns
    on [s], by the bytes it read. *)
Inductive decodes (s : list Z) : Z -> nat -> Prop :=
| dec_empty : s = [] -> decodes s RuneError 0
| dec_ascii : s <> [] -> at_ s 0 <= 0x7F -> decodes s (at_ s 0) 1
| dec_error : s <> [] -> 0x80 <= at_ s 0 -> decodes s RuneError 1
| dec_2 :
    (2 <= length s)%nat ->
    0xC2 <= at_ s 0 <= 0xDF -> 0x80 <= at_ s 1 <= 0xBF ->
    decodes s (at_ s 0 mod 32 * 64 + at_ s 1 mod 64) 2
| dec_3 :
    (3 <= length s)%nat ->
    0xE0 <= at_ s 0 <= 0xEF ->
    0x80 <= at_ s 1 <= 0xBF -> 0x80 <= at_ s 2 <= 0xBF ->
    (at_ s 0 = 0xE0 -> 0xA0 <= at_ s 1) ->
    (at_ s 0 = 0xED -> at_ s 1 <= 0x9F) ->
    decodes s (at_ s 0 mod 16 * 4096 + at_ s 1 mod 64 * 64 + at_ s 2 mod 64) 3
| dec_4 :
    (4 <= length s)%nat ->
    0xF0 <= at_ s 0 <= 0xF4 ->
    0x80 <= at_ s 1 <= 0xBF -> 0x80 <= at_ s 2 <= 0xBF ->
    0x80 <= at_ s 3 <= 0xBF ->
    (at_ s 0 = 0xF0 -> 0x90 <= at_ s 1) ->
    (at_ s 0 = 0xF4 -> at_ s 1 <= 0x8F) ->
    decodes s (at_ s 0 mod 8 * 262144 + at_ s 1 mod 64 * 4096
               + at_ s 2 mod 64 * 64 + at_ s 3 mod 64) 4.

(** Trimming ASCII white space at both ends, the plain reading of
    "trim leading and trailing whitespace". *)
Fixpoint drop_ascii_space (s : list Z) : list Z :=
  match s with
  | [] => []
  | c :: s' => if strings.asciiSpace c =? 0 then s else drop_ascii_space s'
  end.

Definition trim_ascii (s : list Z) : list Z :=
  rev (drop_ascii_space (rev (drop_ascii_space s))).

(** The white space characters: the code points with the Unicode
    property White_Space. *)
Definition white_space (r : Z) : Prop :=
  0x09 <= r <= 0x0D \/ r = 0x20 \/ r = 0x85 \/ r = 0xA0 \/ r = 0x1680 \/
  0x2000 <= r <= 0x200A \/ r = 0x2028 \/ r = 0x2029 \/ r = 0x202F \/
  r = 0x205F \/ r = 0x3000.

(** A byte sequence that begins, or ends, with the UTF-8 encoding of a
    white space character. *)
Definition starts_with_space (t : list Z) : Prop :=
  exists r rest, white_space r /\ t = EncodeRune r ++ rest.

Definition ends_with_space (t : list Z) : Prop :=
  exists r front, white_space r /\ t = front ++ EncodeRune r.

(** "Trim leading and trailing whitespace": [t] is what is left of [d]
    when white space characters are taken off its two ends until there
    is none at either end. *)
Definition trims_to (d t : list Z) : Prop :=
  exists ws ws',
    d = utf8_string ws ++ t ++ utf8_string ws' /\
    Forall white_space ws /\ Forall white_space ws' /\
    ~ starts_with_space t /\ ~ ends_with_space t.

(** The bytes one payload byte takes in the encoded text: its selector is
    a three-byte rune below 16 and a four-byte rune from 16 on. *)
Definition selector_width (b : Z) : nat := if b <? 16 then 3%nat else 4%nat.

Definition payload_width (p : list Z) : nat :=
  fold_right (fun b n => (selector_width b + n)%nat) 0%nat p.

(** What the specification asks of [Embed] on success: the first scalar
    character of the carrier, one selector per payload byte, then the
    rest of the carrier. *)
Definition Embed_spec (carrier payload : list Z) : list Z :=
  let size := snd (DecodeRuneInString carrier) in
  firstn size carrier
    ++ utf8_string (map ToCodepoint_spec payload)
    ++ skipn size carrier.

(** A string with no ASCII white space byte at either end. *)
Definition trimmed (t : list Z) : Prop :=
  t = [] \/
  (~ is_ascii_space (at_ t 0) /\ ~ is_ascii_space (at_ t (length t - 1))).

(* ===================================================================== *)
(** * Package bufio: a [Scanner] that splits lines *)
(* ===================================================================== *)

Module bufio.

(** [MaxScanTokenSize], the size the buffer of a [Scanner] may grow to. *)
Definition MaxScanTokenSize : Z := 65536.

(** [dropCR]: drops a terminal carriage return. *)
Definition dropCR (data : list Z) : list Z :=
  if (0 <? length data)%nat && (at_ data (length data - 1) =? 0x0D)
  then firstn (length data - 1) data
  else data.

(** The tokens a [Scanner] with the split function [ScanLines] returns
    over a reader that delivers [data] and then the end of the file;
    [line] is the part of the current line already in the buffer.  A
    newline ends a token; a line that fills the buffer before its newline
    comes stops the scan ([ErrTooLong]); at the end of the file a last
    line that is not empty is a token. *)
Fixpoint scan_lines (data line : list Z) : list (list Z) :=
  match data with
  | [] =>
      match line with
      | [] => []
      | _ :: _ => [dropCR line]
      end
  | c :: data' =>
      if c =? 0x0A then dropCR line :: scan_lines data' []
      else if MaxScanTokenSize <=? Z.of_nat (length (line ++ [c])) then []
      else scan_lines data' (line ++ [c])
  end.

(** What [scan.Text()] is at each turn of [for scan.Scan()]. *)
Definition Scanner_tokens (input : list Z) : list (list Z) :=
  scan_lines input [].

End bufio.

(* ===================================================================== *)
(** * Package encoji: the driver *)
(* ===================================================================== *)

(** The loop of [Run] over the lines still to come; [out] is what was
    written to [s.stdout] so far.  The result is what was written when
    [Run] returns and the error it returns, [None] for [nil].
    [fmt.Fprintln] writes its operand and a newline. *)
Fixpoint Run_loop (s : smuggler) (targets : list (list Z)) (out : list Z)
  : list Z * option string :=
  match targets with
  | [] => (out, None)
  | target :: targets' =>
      match (if encodeMode s then EncodeText s target
             else DecodeText s target) with
      | Err msg => (out, Some msg)
      | Ok res => Run_loop s targets' (out ++ res ++ [0x0A])
      end
  end.

(** [smuggler.Run], for a reader [s.stdin] that delivers [stdin]. *)
Definition Run (s : smuggler) (stdin : list Z) : list Z * option string :=
  Run_loop s (bufio.Scanner_tokens stdin) [].

(** A text made of lines, each ended by a newline. *)
Definition unlines (ls : list (list Z)) : list Z :=
  concat (map (fun l => l ++ [0x0A]) ls).

(** A line a [Scanner] returns whole: no newline in it and room for it
    in the buffer. *)
Definition scannable (l : list Z) : Prop :=
  Forall (fun b => b <> 0x0A) l /\
  Z.of_nat (length l) < bufio.MaxScanTokenSize.

(** What [Run] does with one line: the branch of its loop. *)
Definition Run_line (s : smuggler) (target : list Z) : result (list Z) :=
  if encodeMode s then EncodeText s target else DecodeText s target.

(** The value of a result that is not an error. *)
Definition value_of (r : result (list Z)) : list Z :=
  match r with
  | Ok v => v
  | Err _ => []
  end.

Definition succeeds (r : result (list Z)) : Prop := exists v, r = Ok v.

(** ** The whole struct and its options *)

(** An [io.Writer], by its identity. *)
Inductive Writer : Type :=
| os_Stdout
| os_Stderr
| a_Writer (id : nat).

(** The struct [smuggler] with its streams: [stdin] is what the reader
    [s.stdin] delivers before the end of the file, [stdout] and [stderr]
    are the two writers, [fields] holds [clearText] and [encode]. *)
Record smuggler_struct : Type := {
  stdin : list Z;
  stdout : Writer;
  stderr : Writer;
  fields : smuggler
}.

(** The type [option]: a function that changes the struct it is given
    and returns an error, [None] for [nil]. *)
Definition smuggler_option : Type :=
  smuggler_struct -> smuggler_struct * option string.

(** [strings.Join]. *)
Fixpoint Join (elems : list (list Z)) (sep : list Z) : list Z :=
  match elems with
  | [] => []
  | [e] => e
  | e :: elems' => e ++ sep ++ Join elems' sep
  end.

(** [WithInputFromArgs]: the reader becomes a buffer that holds the
    arguments joined by spaces, when there are arguments. *)
Definition WithInputFromArgs (args : list (list Z)) : smuggler_option :=
  fun s =>
    if (length args <? 1)%nat then (s, None)
    else ({| stdin := Join args [0x20]; stdout := stdout s;
             stderr := stderr s; fields := fields s |}, None).

(** [WithInput]. *)
Definition WithInput (r : list Z) : smuggler_option :=
  fun s => ({| stdin := r; stdout := stdout s; stderr := stderr s;
               fields := fields s |}, None).

(** [WithOutput]. *)
Definition WithOutput (w : Writer) : smuggler_option :=
  fun s => ({| stdin := stdin s; stdout := w; stderr := stderr s;
               fields := fields s |}, None).

(** [WithError]. *)
Definition WithError (w : Writer) : smuggler_option :=
  fun s => ({| stdin := stdin s; stdout := stdout s; stderr := w;
               fields := fields s |}, None).

(** [WithClearText]. *)
Definition WithClearText (text : list Z) : smuggler_option :=
  fun s => ({| stdin := stdin s; stdout := stdout s; stderr := stderr s;
               fields := {| clearText := text;
                            encodeMode := encodeMode (fields s) |} |}, None).

(** [WithClearFile]: [files] gives, for a path, what [os.Open] followed
    by [io.ReadAll] returns, the content or the message of the error. *)
Definition WithClearFile (files : list Z -> result (list Z)) (file : list Z)
  : smuggler_option :=
  fun s =>
    match files file with
    | Err msg => (s, Some msg)
    | Ok text =>
        ({| stdin := stdin s; stdout := stdout s; stderr := stderr s;
            fields := {| clearText := text;
                         encodeMode := encodeMode (fields s) |} |}, None)
    end.

(** [WithEncodeFlag]. *)
Definition WithEncodeFlag (f : bool) : smuggler_option :=
  fun s => ({| stdin := stdin s; stdout := stdout s; stderr := stderr s;
               fields := {| clearText := clearText (fields s);
                            encodeMode := f |} |}, None).

(** The loop of [NewSmuggler] over the options still to apply. *)
Fixpoint apply_options (opts : list smuggler_option) (s : smuggler_struct)
  : smuggler_struct * option string :=
  match opts with
  | [] => (s, None)
  | o :: opts' =>
      match o s with
      | (s', Some err) => (s', Some err)
      | (s', None) => apply_options opts' s'
      end
  end.

(** [NewSmuggler]; [os_Stdin] is what the standard input delivers. *)
Definition NewSmuggler (os_Stdin : list Z) (opts : list smuggler_option)
  : smuggler_struct * option string :=
  apply_options opts
    {| stdin := os_Stdin; stdout := os_Stdout; stderr := os_Stderr;
       fields := {| clearText := []; encodeMode := false |} |}.

(** [SetEncode], [SetDecode], [SetClearText], [SetIn], [SetOut] and
    [SetErr]. *)
Definition SetEncode (s : smuggler_struct) : smuggler_struct :=
  {| stdin := stdin s; stdout := stdout s; stderr := stderr s;
     fields := {| clearText := clearText (fields s); encodeMode := true |} |}.
Definition SetDecode (s : smuggler_struct) : smuggler_struct :=
  {| stdin := stdin s; stdout := stdout s; stderr := stderr s;
     fields := {| clearText := clearText (fields s); encodeMode := false |} |}.
Definition SetClearText (s : smuggler_struct) (text : list Z) : smuggler_struct :=
  {| stdin := stdin s; stdout := stdout s; stderr := stderr s;
     fields := {| clearText := text; encodeMode := encodeMode (fields s) |} |}.
Definition SetIn (s : smuggler_struct) (r : list Z) : smuggler_struct :=
  {| stdin := r; stdout := stdout s; stderr := stderr s; fields := fields s |}.
Definition SetOut (s : smuggler_struct) (w : Writer) : smuggler_struct :=
  {| stdin := stdin s; stdout := w; stderr := stderr s; fields := fields s |}.
Definition SetErr (s : smuggler_struct) (w : Writer) : smuggler_struct :=
  {| stdin := stdin s; stdout := stdout s; stderr := w; fields := fields s |}.

(** [Run] on the whole struct: what it writes to [s.stdout] and the
    error it returns. *)
Definition Run_struct (s : smuggler_struct) : list Z * option string :=
  Run (fields s) (stdin s).

(** The options of the package, by name. *)
Inductive known_option : Type :=
| KInputFromArgs (args : list (list Z))
| KInput (r : list Z)
| KOutput (w : Writer)
| KError (w : Writer)
| KClearText (text : list Z)
| KClearFile (file : list Z)
| KEncodeFlag (f : bool).

Definition the_option (files : list Z -> result (list Z)) (k : known_option)
  : smuggler_option :=
  match k with
  | KInputFromArgs args => WithInputFromArgs args
  | KInput r => WithInput r
  | KOutput w => WithOutput w
  | KError w => WithError w
  | KClearText text => WithClearText text
  | KClearFile file => WithClearFile files file
  | KEncodeFlag f => WithEncodeFlag f
  end.

(** The message of the first file that cannot be read, if any. *)
Fixpoint first_unreadable (files : list Z -> result (list Z))
         (ks : list known_option) : option string :=
  match ks with
  | [] => None
  | KClearFile file :: ks' =>
      match files file with
      | Err msg => Some msg
      | Ok _ => first_unreadable files ks'
      end
  | _ :: ks' => first_unreadable files ks'
  end.

(** The clear text the options leave, the last that sets it winning. *)
Fixpoint last_clear_text (files : list Z -> result (list Z))
         (ks : list known_option) (current : list Z) : list Z :=
  match ks with
  | [] => current
  | KClearText text :: ks' => last_clear_text files ks' text
  | KClearFile file :: ks' =>
      match files file with
      | Ok text => last_clear_text files ks' text
      | Err _ => current
      end
  | _ :: ks' => last_clear_text files ks' current
  end.

(** The mode the options leave. *)
Fixpoint last_encode_flag (ks : list known_option) (current : bool) : bool :=
  match ks with
  | [] => current
  | KEncodeFlag f :: ks' => last_encode_flag ks' f
  | _ :: ks' => last_encode_flag ks' current
  end.

(** ** Main *)

Definition Version : string := "0.1.2".

Definition StatusOK : Z := 0.
Definition MissingInputError : Z := 1.
Definition TooManyInputsError : Z := 2.
Definition MissingTextToEncodeError : Z := 3.
Definition ExecutionError : Z := 4.

(** The bytes of a string literal. *)
Definition bytes_of (s : string) : list Z :=
  map (fun a => Z.of_N (Ascii.N_of_ascii a)) (list_ascii_of_string s).

(** What [flag.Parse] leaves behind: for each of the four flags the
    value the command line gave it, if it gave one, and the arguments
    after the flags. *)
Record parsed_flags : Type := {
  flag_encode : option (list Z);
  flag_encodefile : option (list Z);
  flag_decode : option bool;
  flag_version : option bool;
  flag_Args : list (list Z)
}.

(** The value of a flag: what was given, or the default. *)
Definition flag_value {A : Type} (given : option A) (default : A) : A :=
  match given with
  | Some v => v
  | None => default
  end.

Definition was_set {A : Type} (given : option A) : nat :=
  match given with
  | Some _ => 1%nat
  | None => 0%nat
  end.

(** [flag.NFlag]: the number of flags that have been set. *)
Definition NFlag (f : parsed_flags) : nat :=
  (was_set (flag_encode f) + was_set (flag_encodefile f)
   + was_set (flag_decode f) + was_set (flag_version f))%nat.

(** What [Main] finds around it: the name of the program, what the
    standard input delivers, the files, and what [flag.PrintDefaults]
    writes. *)
Record process : Type := {
  os_Args0 : list Z;
  os_Stdin : list Z;
  files : list Z -> result (list Z);
  flag_defaults : list Z
}.

(** What [flag.Usage], as [Main] sets it, writes, and where. *)
Definition Usage (env : process) (stderr : Writer) : list (Writer * list Z) :=
  [ (stderr, bytes_of "Usage: " ++ os_Args0 env
             ++ bytes_of " [-encode string | -encodefile filepath | -decode] [stdin]"
             ++ [0x0A]);
    (stderr, bytes_of "Encode/decode text using unicode variation selectors"
             ++ [0x0A; 0x0A]);
    (stderr, bytes_of "Flags:" ++ [0x0A]);
    (os_Stderr, flag_defaults env) ].

(** [fmt.Fprintln(stderr, "Error:", err)]. *)
Definition report_error (stderr : Writer) (msg : string) : Writer * list Z :=
  (stderr, bytes_of "Error: " ++ bytes_of msg ++ [0x0A]).

(** [Main] from the return of [flag.Parse] on: the status it returns and
    what it writes, in order, each piece with the writer it goes to;
    [out] and [err] are its parameters [stdout] and [stderr].  The
    parameter [stdin] of [Main] is not used by it. *)
Definition Main (env : process) (f : parsed_flags)
           (stdin_unused : list Z) (out err : Writer)
  : Z * list (Writer * list Z) :=
  let encodeMode := flag_value (flag_encode f) [] in
  let encodeFile := flag_value (flag_encodefile f) [] in
  let decodeMode := flag_value (flag_decode f) false in
  let version := flag_value (flag_version f) false in
  if negb decodeMode && (length encodeMode =? 0)%nat
     && (length encodeFile =? 0)%nat && negb version
  then (MissingInputError, Usage env err)
  else if (1 <? NFlag f)%nat
  then (TooManyInputsError,
        (err, bytes_of "Error: too many flags provided" ++ [0x0A])
          :: Usage env err)
  else if version
  then (StatusOK,
        [(out, os_Args0 env ++ bytes_of " version " ++ bytes_of Version
                  ++ [0x0A])])
  else
    let encodeOption :=
      if (length encodeMode =? 0)%nat && negb (length encodeFile =? 0)%nat
      then WithClearFile (files env) encodeFile
      else WithClearText encodeMode in
    match NewSmuggler (os_Stdin env)
            [WithInputFromArgs (flag_Args f); WithOutput out;
             WithError err; WithEncodeFlag (negb decodeMode);
             encodeOption] with
    | (_, Some e) => (ExecutionError, [report_error err e])
    | (s, None) =>
        match Run_struct s with
        | (written, Some e) =>
            (ExecutionError, [(stdout s, written); report_error err e])
        | (written, None) => (StatusOK, [(stdout s, written)])
        end
    end.

(** The bytes that went to the writer [w]. *)
Fixpoint written_to (w : Writer) (log : list (Writer * list Z)) : list Z :=
  match log with
  | [] => []
  | (w', bytes) :: log' =>
      (if match w, w' with
          | os_Stdout, os_Stdout => true
          | os_Stderr, os_Stderr => true
          | a_Writer i, a_Writer j => (i =? j)%nat
          | _, _ => false
          end
       then bytes else []) ++ written_to w log'
  end.

(** No flag has a value other than its default. *)
Definition no_flag_value (f : parsed_flags) : Prop :=
  flag_value (flag_decode f) false = false /\
  flag_value (flag_encode f) [] = [] /\
  flag_value (flag_encodefile f) [] = [] /\
  flag_value (flag_version f) false = false.

(** The flags of [-encode text] and of [-decode], with the arguments
    after them. *)
Definition encode_flags (text : list Z) (args : list (list Z)) : parsed_flags :=
  {| flag_encode := Some text; flag_encodefile := None;
     flag_decode := None; flag_version := None; flag_Args := args |}.

Definition decode_flags (args : list (list Z)) : parsed_flags :=
  {| flag_encode := None; flag_encodefile := None;
     flag_decode := Some true; flag_version := None; flag_Args := args |}.

Definition encodefile_flags (file : list Z) (args : list (list Z)) : parsed_flags :=
  {| flag_encode := None; flag_encodefile := Some file;
     flag_decode := None; flag_version := None; flag_Args := args |}.

(* ===================================================================== *)
(** * Bit operations as arithmetic *)
(* ===================================================================== *)

Section BitArith.

Lemma testbit_small (k l n : Z) :
  0 <= l < 2 ^ k -> k <= n -> Z.testbit l n = false.
Proof.
  intros Hl Hn.
  destruct (Z.eq_dec l 0) as [->|Hne]; [apply Z.bits_0|].
  apply Z.bits_above_log2; [lia|].
  assert (0 <= k) by (destruct (Z_lt_le_dec k 0) as [Hk|Hk]; [|lia];
                       rewrite Z.pow_neg_r in Hl by lia; lia).
  assert (Z.log2 l < k) by (apply Z.log2_lt_pow2; lia).
  lia.
Qed.

(** Or-ing a multiple of [2^k] with a value below [2^k] adds them. *)
Lemma lor_high_low (k h l : Z) :
  0 <= k -> 0 <= l < 2 ^ k -> Z.lor (h * 2 ^ k) l = h * 2 ^ k + l.
Proof.
  intros Hk Hl.
  assert (Hland : Z.land (h * 2 ^ k) l = 0).
  { apply Z.bits_inj'. intros n Hn.
    rewrite Z.land_spec, Z.bits_0.
    destruct (Z_lt_le_dec n k) as [Hlt|Hge].
    - rewrite Z.mul_pow2_bits_low by lia. reflexivity.
    - rewrite (testbit_small k l n) by lia. apply andb_false_r. }
  rewrite <- Z.lxor_lor by exact Hland.
  symmetry. apply Z.add_nocarry_lxor. exact Hland.
Qed.

Lemma land_maskx (x : Z) : Z.land x maskx = x mod 64.
Proof. change maskx with (Z.ones 6). rewrite Z.land_ones by lia. reflexivity. Qed.

Lemma land_mask2 (x : Z) : Z.land x mask2 = x mod 32.
Proof. change mask2 with (Z.ones 5). rewrite Z.land_ones by lia. reflexivity. Qed.

Lemma land_mask3 (x : Z) : Z.land x mask3 = x mod 16.
Proof. change mask3 with (Z.ones 4). rewrite Z.land_ones by lia. reflexivity. Qed.

Lemma land_mask4 (x : Z) : Z.land x mask4 = x mod 8.
Proof. change mask4 with (Z.ones 3). rewrite Z.land_ones by lia. reflexivity. Qed.

Lemma lor_tx (x : Z) : 0 <= x < 64 -> Z.lor tx x = 0x80 + x.
Proof. intros H. change tx with (2 * 2 ^ 6). apply lor_high_low; lia. Qed.

Lemma lor_t2 (x : Z) : 0 <= x < 32 -> Z.lor t2 x = 0xC0 + x.
Proof. intros H. change t2 with (6 * 2 ^ 5). apply lor_high_low; lia. Qed.

Lemma lor_t3 (x : Z) : 0 <= x < 16 -> Z.lor t3 x = 0xE0 + x.
Proof. intros H. change t3 with (14 * 2 ^ 4). apply lor_high_low; lia. Qed.

Lemma lor_t4 (x : Z) : 0 <= x < 8 -> Z.lor t4 x = 0xF0 + x.
Proof. intros H. change t4 with (30 * 2 ^ 3). apply lor_high_low; lia. Qed.

(** A continuation byte: tag [10] and six bits of payload. *)
Lemma lor_tx_maskx (x : Z) : Z.lor tx (Z.land x maskx) = 0x80 + x mod 64.
Proof.
  rewrite land_maskx. apply lor_tx. apply Z.mod_pos_bound. lia.
Qed.

Lemma shiftr_6 (x : Z) : Z.shiftr x 6 = x / 64.
Proof. rewrite Z.shiftr_div_pow2 by lia. reflexivity. Qed.

Lemma shiftr_12 (x : Z) : Z.shiftr x 12 = x / 4096.
Proof. rewrite Z.shiftr_div_pow2 by lia. reflexivity. Qed.

Lemma shiftr_18 (x : Z) : Z.shiftr x 18 = x / 262144.
Proof. rewrite Z.shiftr_div_pow2 by lia. reflexivity. Qed.

(** Assembling a rune from the payload bits of its bytes. *)
Lemma assemble2 (a b : Z) :
  0 <= b < 64 -> Z.lor (Z.shiftl a 6) b = a * 64 + b.
Proof.
  intros Hb. rewrite Z.shiftl_mul_pow2 by lia.
  rewrite lor_high_low by lia. reflexivity.
Qed.

Lemma assemble3 (a b c : Z) :
  0 <= b < 64 -> 0 <= c < 64 ->
  Z.lor (Z.lor (Z.shiftl a 12) (Z.shiftl b 6)) c = a * 4096 + b * 64 + c.
Proof.
  intros Hb Hc. rewrite !Z.shiftl_mul_pow2 by lia.
  rewrite (lor_high_low 12 a (b * 2 ^ 6)) by lia.
  replace (a * 2 ^ 12 + b * 2 ^ 6) with ((a * 64 + b) * 2 ^ 6) by lia.
  rewrite lor_high_low by lia. lia.
Qed.

Lemma assemble4 (a b c d : Z) :
  0 <= b < 64 -> 0 <= c < 64 -> 0 <= d < 64 ->
  Z.lor (Z.lor (Z.lor (Z.shiftl a 18) (Z.shiftl b 12)) (Z.shiftl c 6)) d
  = a * 262144 + b * 4096 + c * 64 + d.
Proof.
  intros Hb Hc Hd. rewrite !Z.shiftl_mul_pow2 by lia.
  rewrite (lor_high_low 18 a (b * 2 ^ 12)) by lia.
  replace (a * 2 ^ 18 + b * 2 ^ 12) with ((a * 64 + b) * 2 ^ 12) by lia.
  rewrite (lor_high_low 12 (a * 64 + b) (c * 2 ^ 6)) by lia.
  replace ((a * 64 + b) * 2 ^ 12 + c * 2 ^ 6)
    with (((a * 64 + b) * 64 + c) * 2 ^ 6) by lia.
  rewrite lor_high_low by lia. lia.
Qed.

End BitArith.

(* ===================================================================== *)
(** * UTF-8: decoding what was encoded *)
(* ===================================================================== *)

Section Utf8.

Ltac by_cases_Z :=
  repeat match goal with
         | |- context [?a <=? ?b] => destruct (Z.leb_spec a b); try lia
         | |- context [?a <? ?b] => destruct (Z.ltb_spec a b); try lia
         | |- context [?a =? ?b] => destruct (Z.eqb_spec a b); try lia
         | |- context [?a >=? ?b] =>
             rewrite (Z.geb_leb a b); destruct (Z.leb_spec b a); try lia
         end.

Ltac eq_by_elements :=
  repeat match goal with
         | |- _ :: _ = _ :: _ => f_equal
         end.

Lemma first_ascii (b : Z) : b <= 0x7F -> first b = as_.
Proof. intros H. unfold first. by_cases_Z; reflexivity. Qed.

Lemma first_invalid (b : Z) :
  0x80 <= b <= 0xC1 \/ 0xF5 <= b -> first b = xx.
Proof. intros H. unfold first. by_cases_Z; reflexivity. Qed.

Lemma first_2 (b : Z) : 0xC2 <= b <= 0xDF -> first b = s1.
Proof. intros H. unfold first. by_cases_Z; reflexivity. Qed.

Lemma first_3 (b : Z) :
  0xE0 <= b <= 0xEF ->
  first b = if b =? 0xE0 then s2 else if b =? 0xED then s4 else s3.
Proof. intros H. unfold first. by_cases_Z; reflexivity. Qed.

Lemma first_4 (b : Z) :
  0xF0 <= b <= 0xF4 ->
  first b = if b =? 0xF0 then s5 else if b =? 0xF4 then s7 else s6.
Proof. intros H. unfold first. by_cases_Z; reflexivity. Qed.

(** A byte below [RuneSelf] is its own rune. *)
Lemma DecodeRune_ascii (b0 : Z) (rest : list Z) :
  b0 <= 0x7F -> DecodeRuneInString (b0 :: rest) = (b0, 1%nat).
Proof.
  intros H. unfold DecodeRuneInString, at_.
  cbn [length nth Nat.ltb Nat.leb]. rewrite first_ascii by assumption.
  reflexivity.
Qed.

(** A byte that cannot start an encoding is skipped as [RuneError]. *)
Lemma DecodeRune_invalid (b0 : Z) (rest : list Z) :
  0x80 <= b0 <= 0xC1 \/ 0xF5 <= b0 ->
  DecodeRuneInString (b0 :: rest) = (RuneError, 1%nat).
Proof.
  intros H. unfold DecodeRuneInString, at_.
  cbn [length nth Nat.ltb Nat.leb]. rewrite first_invalid by assumption.
  reflexivity.
Qed.

Lemma DecodeRune_2 (b0 b1 : Z) (rest : list Z) :
  0xC2 <= b0 <= 0xDF -> 0x80 <= b1 <= 0xBF ->
  DecodeRuneInString (b0 :: b1 :: rest)
  = (b0 mod 32 * 64 + b1 mod 64, 2%nat).
Proof.
  intros H0 H1. unfold DecodeRuneInString, at_.
  cbn [length nth Nat.ltb Nat.leb]. rewrite first_2 by assumption.
  change (s1 >=? as_) with false. cbv iota.
  change (Z.to_nat (Z.land s1 7)) with 2%nat.
  change (acceptRanges (Z.shiftr s1 4)) with (locb, hicb).
  cbn [Nat.ltb Nat.leb fst snd]. unfold locb, hicb.
  by_cases_Z. cbn [orb].
  rewrite land_mask2, land_maskx, assemble2
    by (apply Z.mod_pos_bound; lia).
  reflexivity.
Qed.

Lemma DecodeRune_3 (b0 b1 b2 : Z) (rest : list Z) :
  0xE0 <= b0 <= 0xEF -> 0x80 <= b1 <= 0xBF -> 0x80 <= b2 <= 0xBF ->
  (b0 = 0xE0 -> 0xA0 <= b1) -> (b0 = 0xED -> b1 <= 0x9F) ->
  DecodeRuneInString (b0 :: b1 :: b2 :: rest)
  = (b0 mod 16 * 4096 + b1 mod 64 * 64 + b2 mod 64, 3%nat).
Proof.
  intros H0 H1 H2 Hlo Hhi. unfold DecodeRuneInString, at_.
  cbn [length nth Nat.ltb Nat.leb]. rewrite first_3 by assumption.
  assert (Hval :
    (Z.lor (Z.lor (Z.shiftl (Z.land b0 mask3) 12)
                  (Z.shiftl (Z.land b1 maskx) 6)) (Z.land b2 maskx))
    = b0 mod 16 * 4096 + b1 mod 64 * 64 + b2 mod 64).
  { rewrite land_mask3, !land_maskx, assemble3
      by (apply Z.mod_pos_bound; lia). reflexivity. }
  destruct (Z.eqb_spec b0 0xE0) as [E0|N0];
    [|destruct (Z.eqb_spec b0 0xED) as [ED|ND]].
  - change (s2 >=? as_) with false. cbv iota.
    change (Z.to_nat (Z.land s2 7)) with 3%nat.
    change (acceptRanges (Z.shiftr s2 4)) with (0xA0, hicb).
    cbn [Nat.ltb Nat.leb fst snd]. unfold locb, hicb.
    specialize (Hlo E0). by_cases_Z. cbn [orb]. rewrite Hval. reflexivity.
  - change (s4 >=? as_) with false. cbv iota.
    change (Z.to_nat (Z.land s4 7)) with 3%nat.
    change (acceptRanges (Z.shiftr s4 4)) with (locb, 0x9F).
    cbn [Nat.ltb Nat.leb fst snd]. unfold locb, hicb.
    specialize (Hhi ED). by_cases_Z. cbn [orb]. rewrite Hval. reflexivity.
  - change (s3 >=? as_) with false. cbv iota.
    change (Z.to_nat (Z.land s3 7)) with 3%nat.
    change (acceptRanges (Z.shiftr s3 4)) with (locb, hicb).
    cbn [Nat.ltb Nat.leb fst snd]. unfold locb, hicb.
    by_cases_Z. cbn [orb]. rewrite Hval. reflexivity.
Qed.

Lemma DecodeRune_4 (b0 b1 b2 b3 : Z) (rest : list Z) :
  0xF0 <= b0 <= 0xF4 ->
  0x80 <= b1 <= 0xBF -> 0x80 <= b2 <= 0xBF -> 0x80 <= b3 <= 0xBF ->
  (b0 = 0xF0 -> 0x90 <= b1) -> (b0 = 0xF4 -> b1 <= 0x8F) ->
  DecodeRuneInString (b0 :: b1 :: b2 :: b3 :: rest)
  = (b0 mod 8 * 262144 + b1 mod 64 * 4096 + b2 mod 64 * 64 + b3 mod 64,
     4%nat).
Proof.
  intros H0 H1 H2 H3 Hlo Hhi. unfold DecodeRuneInString, at_.
  cbn [length nth Nat.ltb Nat.leb]. rewrite first_4 by assumption.
  assert (Hval :
    (Z.lor (Z.lor (Z.lor (Z.shiftl (Z.land b0 mask4) 18)
                         (Z.shiftl (Z.land b1 maskx) 12))
                  (Z.shiftl (Z.land b2 maskx) 6)) (Z.land b3 maskx))
    = b0 mod 8 * 262144 + b1 mod 64 * 4096 + b2 mod 64 * 64 + b3 mod 64).
  { rewrite land_mask4, !land_maskx, assemble4
      by (apply Z.mod_pos_bound; lia). reflexivity. }
  destruct (Z.eqb_spec b0 0xF0) as [E0|N0];
    [|destruct (Z.eqb_spec b0 0xF4) as [E4|N4]].
  - change (s5 >=? as_) with false. cbv iota.
    change (Z.to_nat (Z.land s5 7)) with 4%nat.
    change (acceptRanges (Z.shiftr s5 4)) with (0x90, hicb).
    cbn [Nat.ltb Nat.leb fst snd]. unfold locb, hicb.
    specialize (Hlo E0). by_cases_Z. cbn [orb]. rewrite Hval. reflexivity.
  - change (s7 >=? as_) with false. cbv iota.
    change (Z.to_nat (Z.land s7 7)) with 4%nat.
    change (acceptRanges (Z.shiftr s7 4)) with (locb, 0x8F).
    cbn [Nat.ltb Nat.leb fst snd]. unfold locb, hicb.
    specialize (Hhi E4). by_cases_Z. cbn [orb]. rewrite Hval. reflexivity.
  - change (s6 >=? as_) with false. cbv iota.
    change (Z.to_nat (Z.land s6 7)) with 4%nat.
    change (acceptRanges (Z.shiftr s6 4)) with (locb, hicb).
    cbn [Nat.ltb Nat.leb fst snd]. unfold locb, hicb.
    by_cases_Z. cbn [orb]. rewrite Hval. reflexivity.
Qed.

(** ** Every decoding step has one of the shapes of [decodes] *)

Lemma first_cases (b : Z) :
  (b <= 0x7F /\ first b = as_) \/
  ((0x80 <= b <= 0xC1 \/ 0xF5 <= b) /\ first b = xx) \/
  (0xC2 <= b <= 0xDF /\ first b = s1) \/
  (b = 0xE0 /\ first b = s2) \/
  ((0xE1 <= b <= 0xEC \/ 0xEE <= b <= 0xEF) /\ first b = s3) \/
  (b = 0xED /\ first b = s4) \/
  (b = 0xF0 /\ first b = s5) \/
  (0xF1 <= b <= 0xF3 /\ first b = s6) \/
  (b = 0xF4 /\ first b = s7).
Proof.
  unfold first. by_cases_Z; intuition lia.
Qed.

Ltac decode_multibyte K n lo hi :=
  match goal with
  | HK : first ?b0 = K |- context [DecodeRuneInString (?b0 :: ?rest)] =>
      unfold DecodeRuneInString, at_;
      change (length (b0 :: rest) <? 1)%nat with false; cbv iota;
      cbn [nth]; rewrite HK;
      change (K >=? as_) with false; cbv iota;
      change (Z.to_nat (Z.land K 7)) with n;
      change (acceptRanges (Z.shiftr K 4)) with (lo, hi);
      unfold locb, hicb; cbn [fst snd];
      destruct rest as [|?b1 [|?b2 [|?b3 ?rest]]];
      cbn [length nth Nat.ltb Nat.leb fst snd]
  end.

Ltac decode_leaf :=
  first
    [ apply dec_error; [discriminate | unfold at_; cbn [nth]; lia]
    | rewrite land_mask2, land_maskx, assemble2
        by (apply Z.mod_pos_bound; lia);
      apply dec_2; unfold at_; cbn [nth length]; lia
    | rewrite land_mask3, !land_maskx, assemble3
        by (apply Z.mod_pos_bound; lia);
      apply dec_3; unfold at_; cbn [nth length]; lia
    | rewrite land_mask4, !land_maskx, assemble4
        by (apply Z.mod_pos_bound; lia);
      apply dec_4; unfold at_; cbn [nth length]; lia ].

Ltac decode_branches :=
  repeat match goal with
         | |- context [?a <? ?b] => destruct (Z.ltb_spec a b)
         end;
  cbn [orb fst snd]; decode_leaf.

Lemma DecodeRune_decodes (s : list Z) :
  decodes s (fst (DecodeRuneInString s)) (snd (DecodeRuneInString s)).
Proof.
  destruct s as [|b0 rest]; [apply dec_empty; reflexivity|].
  destruct (first_cases b0)
    as [[Hb H]|[[Hb H]|[[Hb H]|[[Hb H]|[[Hb H]|[[Hb H]|[[Hb H]|[[Hb H]|[Hb H]]]]]]]]].
  - rewrite DecodeRune_ascii by assumption.
    apply (dec_ascii (b0 :: rest)); [discriminate | exact Hb].
  - rewrite DecodeRune_invalid by assumption.
    apply dec_error; [discriminate | unfold at_; cbn [nth]; lia].
  - decode_multibyte s1 2%nat 0x80 0xBF; decode_branches.
  - decode_multibyte s2 3%nat 0xA0 0xBF; decode_branches.
  - decode_multibyte s3 3%nat 0x80 0xBF; decode_branches.
  - decode_multibyte s4 3%nat 0x80 0x9F; decode_branches.
  - decode_multibyte s5 4%nat 0x90 0xBF; decode_branches.
  - decode_multibyte s6 4%nat 0x80 0xBF; decode_branches.
  - decode_multibyte s7 4%nat 0x80 0x8F; decode_branches.
Qed.

(** ** The four shapes of an encoding *)

Lemma to_uint32_small (x : Z) : 0 <= x < 4294967296 -> to_uint32 x = x.
Proof. intros H. unfold to_uint32. apply Z.mod_small. exact H. Qed.

Lemma EncodeRune_1 (r : Z) : 0 <= r <= 0x7F -> EncodeRune r = [r].
Proof.
  intros H. unfold EncodeRune. rewrite to_uint32_small by lia.
  unfold rune1Max. by_cases_Z. unfold to_byte.
  rewrite Z.mod_small by lia. reflexivity.
Qed.

Lemma EncodeRune_2 (r : Z) :
  0x80 <= r <= 0x7FF -> EncodeRune r = [0xC0 + r / 64; 0x80 + r mod 64].
Proof.
  intros H. unfold EncodeRune. rewrite to_uint32_small by lia.
  unfold rune1Max, rune2Max. by_cases_Z.
  rewrite lor_tx_maskx, shiftr_6. unfold to_byte.
  rewrite lor_t2 by (Z.div_mod_to_equations; lia).
  eq_by_elements; Z.div_mod_to_equations; lia.
Qed.

Lemma EncodeRune_3 (r : Z) :
  0x800 <= r <= 0xFFFF -> ~ (0xD800 <= r <= 0xDFFF) ->
  EncodeRune r
  = [0xE0 + r / 4096; 0x80 + (r / 64) mod 64; 0x80 + r mod 64].
Proof.
  intros H Hs. unfold EncodeRune. rewrite to_uint32_small by lia.
  unfold rune1Max, rune2Max, rune3Max, MaxRune, surrogateMin, surrogateMax.
  by_cases_Z; cbn [orb andb];
    rewrite !lor_tx_maskx, shiftr_6, shiftr_12; unfold to_byte;
    rewrite lor_t3 by (Z.div_mod_to_equations; lia);
    eq_by_elements; Z.div_mod_to_equations; lia.
Qed.

Lemma EncodeRune_4 (r : Z) :
  0x10000 <= r <= 0x10FFFF ->
  EncodeRune r
  = [0xF0 + r / 262144; 0x80 + (r / 4096) mod 64;
     0x80 + (r / 64) mod 64; 0x80 + r mod 64].
Proof.
  intros H. unfold EncodeRune. rewrite to_uint32_small by lia.
  unfold rune1Max, rune2Max, rune3Max, MaxRune, surrogateMin, surrogateMax.
  by_cases_Z; cbn [orb andb];
    rewrite !lor_tx_maskx, shiftr_6, shiftr_12, shiftr_18; unfold to_byte;
    rewrite lor_t4 by (Z.div_mod_to_equations; lia);
    eq_by_elements; Z.div_mod_to_equations; lia.
Qed.

(** The encoding of a scalar value, by the range it lies in. *)
Lemma is_scalar_cases (r : Z) :
  is_scalar r ->
  0 <= r <= 0x7F \/ 0x80 <= r <= 0x7FF \/
  (0x800 <= r <= 0xFFFF /\ ~ (0xD800 <= r <= 0xDFFF)) \/
  0x10000 <= r <= 0x10FFFF.
Proof. unfold is_scalar. lia. Qed.

(** Decoding reads back the scalar value that was encoded, whatever
    follows it. *)
Lemma DecodeRune_EncodeRune (r : Z) (rest : list Z) :
  is_scalar r ->
  DecodeRuneInString (EncodeRune r ++ rest) = (r, length (EncodeRune r)).
Proof.
  intros Hr.
  destruct (is_scalar_cases r Hr) as [H|[H|[[H Hs]|H]]].
  - rewrite EncodeRune_1 by assumption. cbn [app length].
    apply DecodeRune_ascii. lia.
  - rewrite EncodeRune_2 by assumption. cbn [app length].
    rewrite DecodeRune_2 by (Z.div_mod_to_equations; lia).
    f_equal. Z.div_mod_to_equations; lia.
  - rewrite EncodeRune_3 by assumption. cbn [app length].
    rewrite DecodeRune_3 by (Z.div_mod_to_equations; lia).
    f_equal. Z.div_mod_to_equations; lia.
  - rewrite EncodeRune_4 by assumption. cbn [app length].
    rewrite DecodeRune_4 by (Z.div_mod_to_equations; lia).
    f_equal. Z.div_mod_to_equations; lia.
Qed.

(** The encoding of a scalar value is a first byte followed by
    continuation bytes only. *)
Lemma EncodeRune_shape (r : Z) :
  is_scalar r ->
  exists b0 tl, EncodeRune r = b0 :: tl /\ is_byte b0 /\
                Forall (fun b => 0x80 <= b <= 0xBF) tl.
Proof.
  intros Hr. unfold is_byte.
  destruct (is_scalar_cases r Hr) as [H|[H|[[H Hs]|H]]].
  - rewrite EncodeRune_1 by assumption. exists r, []. repeat split; try lia.
    constructor.
  - rewrite EncodeRune_2 by assumption. eexists _, _.
    split; [reflexivity|]. split; [Z.div_mod_to_equations; lia|].
    repeat constructor; Z.div_mod_to_equations; lia.
  - rewrite EncodeRune_3 by assumption. eexists _, _.
    split; [reflexivity|]. split; [Z.div_mod_to_equations; lia|].
    repeat constructor; Z.div_mod_to_equations; lia.
  - rewrite EncodeRune_4 by assumption. eexists _, _.
    split; [reflexivity|]. split; [Z.div_mod_to_equations; lia|].
    repeat constructor; Z.div_mod_to_equations; lia.
Qed.

Lemma EncodeRune_length_pos (r : Z) : (1 <= length (EncodeRune r))%nat.
Proof.
  unfold EncodeRune.
  repeat match goal with
         | |- context [if ?b then _ else _] => destruct b
         end; cbn [length]; lia.
Qed.

End Utf8.

(* ===================================================================== *)
(** * Ranging over a string *)
(* ===================================================================== *)

Section Ranging.

Lemma skipn_length_app {A : Type} (l rest : list A) :
  skipn (length l) (l ++ rest) = rest.
Proof. induction l as [|a l IH]; [reflexivity | exact IH]. Qed.

Lemma Forall_skipn_keep {A : Type} (P : A -> Prop) (n : nat) (l : list A) :
  Forall P l -> Forall P (skipn n l).
Proof.
  revert l. induction n as [|n IH]; intros l Hl; [exact Hl|].
  destruct Hl as [|a l Ha Hl]; [constructor | apply IH; exact Hl].
Qed.

Lemma DecodeRune_size_pos (c : Z) (s' : list Z) :
  (1 <= snd (DecodeRuneInString (c :: s')))%nat.
Proof.
  unfold DecodeRuneInString.
  change (length (c :: s') <? 1)%nat with false. cbv iota.
  repeat match goal with
         | |- context [if ?b then _ else _] => destruct b
         end; simpl; lia.
Qed.

(** One step of the iteration. *)
Lemma range_from_cons (i : nat) (c : Z) (s' : list Z) :
  range_from i (c :: s')
  = (i, fst (DecodeRuneInString (c :: s')))
      :: range_from (i + snd (DecodeRuneInString (c :: s')))
                    (skipn (snd (DecodeRuneInString (c :: s'))) (c :: s')).
Proof. rewrite range_from_equation_2. reflexivity. Qed.

(** The runes do not depend on where the indices start. *)
Lemma map_snd_range_from (s : list Z) :
  forall i j, map snd (range_from i s) = map snd (range_from j s).
Proof.
  remember (length s) as n eqn:Hn.
  revert s Hn. induction n as [n IH] using lt_wf_ind. intros s Hn i j.
  destruct s as [|c s']; [reflexivity|].
  rewrite !range_from_cons. cbn [map snd]. f_equal.
  eapply IH; [|reflexivity].
  pose proof (DecodeRune_size_pos c s') as Hpos.
  rewrite length_skipn. subst n. cbn [length]. lia.
Qed.

Lemma runes_nil : runes [] = [].
Proof. reflexivity. Qed.

Lemma runes_cons (c : Z) (s' : list Z) :
  runes (c :: s')
  = fst (DecodeRuneInString (c :: s'))
      :: runes (skipn (snd (DecodeRuneInString (c :: s'))) (c :: s')).
Proof.
  unfold runes, range_string. rewrite range_from_cons. cbn [map snd].
  f_equal. apply map_snd_range_from.
Qed.

Lemma runes_ascii (c : Z) (rest : list Z) :
  c <= 0x7F -> runes (c :: rest) = c :: runes rest.
Proof.
  intros H. rewrite runes_cons, DecodeRune_ascii by assumption.
  reflexivity.
Qed.

Lemma runes_invalid (c : Z) (rest : list Z) :
  0x80 <= c <= 0xC1 \/ 0xF5 <= c ->
  runes (c :: rest) = RuneError :: runes rest.
Proof.
  intros H. rewrite runes_cons, DecodeRune_invalid by assumption.
  reflexivity.
Qed.

(** Stray continuation bytes are one [RuneError] each. *)
Lemma runes_continuation (tl rest : list Z) :
  Forall (fun b => 0x80 <= b <= 0xBF) tl ->
  runes (tl ++ rest) = repeat RuneError (length tl) ++ runes rest.
Proof.
  induction 1 as [|b tl Hb Htl IH]; [reflexivity|].
  cbn [app length repeat]. rewrite runes_invalid by lia. rewrite IH.
  reflexivity.
Qed.

(** A scalar value that was encoded is the rune the iteration yields. *)
Lemma runes_scalar (r : Z) (rest : list Z) :
  is_scalar r -> runes (EncodeRune r ++ rest) = r :: runes rest.
Proof.
  intros Hr.
  pose proof (DecodeRune_EncodeRune r rest Hr) as Hdec.
  pose proof (EncodeRune_length_pos r) as Hlen.
  destruct (EncodeRune r ++ rest) as [|c s'] eqn:E.
  - apply (f_equal (@length Z)) in E. rewrite length_app in E.
    cbn [length] in E. lia.
  - rewrite runes_cons, Hdec. cbn [fst snd]. rewrite <- E.
    rewrite skipn_length_app. reflexivity.
Qed.

(** Ranging over well-formed text yields its scalar values in order. *)
Lemma runes_utf8_string (rs : list Z) (rest : list Z) :
  Forall is_scalar rs -> runes (utf8_string rs ++ rest) = rs ++ runes rest.
Proof.
  induction 1 as [|r rs Hr Hrs IH]; [reflexivity|].
  unfold utf8_string in *. cbn [map concat]. rewrite <- app_assoc.
  rewrite runes_scalar by assumption. rewrite IH. reflexivity.
Qed.

(** Every rune the iteration yields fits 21 bits, so it is an int32. *)
Lemma DecodeRune_bound (s : list Z) :
  is_bytes s -> 0 <= fst (DecodeRuneInString s) < 0x200000.
Proof.
  intros Hs. unfold DecodeRuneInString, at_.
  assert (H0 : 0 <= nth 0 s 0 < 256).
  { destruct Hs as [|a l Ha Hl]; [cbn; lia | exact Ha]. }
  assert (Hm : forall x m, 0 < m -> 0 <= x mod m < m)
    by (intros; apply Z.mod_pos_bound; assumption).
  repeat match goal with
         | |- context [if ?b then _ else _] => destruct b eqn:?
         end; cbn [fst]; unfold RuneError; try lia.
  - rewrite land_mask2, land_maskx, assemble2 by (apply Hm; lia).
    pose proof (Hm (nth 0 s 0) 32). pose proof (Hm (nth 1 s 0) 64). lia.
  - rewrite land_mask3, !land_maskx, assemble3 by (apply Hm; lia).
    pose proof (Hm (nth 0 s 0) 16). pose proof (Hm (nth 1 s 0) 64).
    pose proof (Hm (nth 2 s 0) 64). lia.
  - rewrite land_mask4, !land_maskx, assemble4 by (apply Hm; lia).
    pose proof (Hm (nth 0 s 0) 8). pose proof (Hm (nth 1 s 0) 64).
    pose proof (Hm (nth 2 s 0) 64). pose proof (Hm (nth 3 s 0) 64). lia.
Qed.

Lemma runes_bound (s : list Z) :
  is_bytes s -> Forall (fun r => 0 <= r < 0x200000) (runes s).
Proof.
  remember (length s) as n eqn:Hn.
  revert s Hn. induction n as [n IH] using lt_wf_ind. intros s Hn Hs.
  destruct s as [|c s']; [constructor|].
  rewrite runes_cons. constructor.
  - apply DecodeRune_bound. exact Hs.
  - eapply IH; [|reflexivity|apply Forall_skipn_keep; exact Hs].
    pose proof (DecodeRune_size_pos c s') as Hpos.
    rewrite length_skipn. subst n. cbn [length]. lia.
Qed.

(** A non-empty string yields at least one rune. *)
Lemma runes_nonempty (s : list Z) : s <> [] -> runes s <> [].
Proof.
  destruct s as [|c s']; [congruence|]. intros _.
  rewrite runes_cons. discriminate.
Qed.

End Ranging.

(* ===================================================================== *)
(** * The byte / codepoint map *)
(* ===================================================================== *)

Section ByteCodepointMap.

(** The search loop finds [varSel] exactly when it lies between the
    current [i] and the end of the range. *)
Lemma scan_range_spec (varSel rangeE found : Z) (n : nat) :
  forall i, Z.to_nat (rangeE + 1 - i) = n ->
  scan_range varSel rangeE found i
  = if (i <=? varSel) && (varSel <=? rangeE) then Some found else None.
Proof.
  induction n as [|n IH]; intros i Hn; rewrite scan_range_equation_1;
    destruct (Z_le_gt_dec i rangeE) as [Hle|Hgt]; cbn.
  - lia.
  - destruct (Z.leb_spec i varSel), (Z.leb_spec varSel rangeE);
      cbn; try reflexivity; lia.
  - destruct (Z.eqb_spec varSel i) as [->|Hne].
    + rewrite Z.leb_refl. destruct (Z.leb_spec i rangeE); [reflexivity|lia].
    + rewrite IH by lia.
      destruct (Z.leb_spec (i + 1) varSel), (Z.leb_spec i varSel),
        (Z.leb_spec varSel rangeE); cbn; try reflexivity; lia.
  - destruct (Z.leb_spec i varSel), (Z.leb_spec varSel rangeE);
      cbn; try reflexivity; lia.
Qed.

(** The two searches, by interval comparison, for any argument. *)
Lemma variationSelectorToByte_unfold (vs : Z) :
  variationSelectorToByte vs =
  let varSel := to_uint32 vs in
  if (range1S <=? varSel) && (varSel <=? range1E)
  then Ok (to_byte (to_uint32 (varSel - range1S)))
  else if (range2S <=? varSel) && (varSel <=? range2E)
  then Ok (to_byte (to_uint32 (to_uint32 (varSel - range2S) + 16)))
  else Err "couldn't decode".
Proof.
  unfold variationSelectorToByte. cbv zeta.
  rewrite (scan_range_spec _ range1E _ _ range1S eq_refl).
  rewrite (scan_range_spec _ range2E _ _ range2S eq_refl).
  destruct (_ && _); [reflexivity|]. destruct (_ && _); reflexivity.
Qed.

(** On a rune, the source's reverse map is the interval comparison of
    the specification. *)
Lemma variationSelectorToByte_interval (vs : Z) :
  is_rune vs ->
  variationSelectorToByte vs =
  match FromCodepoint_spec vs with
  | Some b => Ok b
  | None => Err "couldn't decode"
  end.
Proof.
  unfold is_rune. intros Hvs. rewrite variationSelectorToByte_unfold.
  unfold FromCodepoint_spec, in_rangeAb, in_rangeBb, to_uint32, to_byte,
    range1S, range1E, range2S, range2E. cbv zeta.
  destruct (Z_lt_le_dec vs 0) as [Hneg|Hpos].
  - assert (Hu : vs mod 4294967296 = vs + 4294967296)
      by (Z.div_mod_to_equations; lia).
    rewrite Hu.
    repeat match goal with
           | |- context [?a <=? ?b] => destruct (Z.leb_spec a b); try lia
           end; reflexivity.
  - rewrite (Z.mod_small vs) by lia.
    repeat match goal with
           | |- context [?a <=? ?b] => destruct (Z.leb_spec a b); try lia
           end; cbn [andb]; try reflexivity; f_equal;
      Z.div_mod_to_equations; lia.
Qed.

(** The forward map is the arithmetic of the specification. *)
Lemma byteToVariationSelector_arith (b : Z) :
  is_byte b -> byteToVariationSelector b = ToCodepoint_spec b.
Proof.
  unfold is_byte, byteToVariationSelector, ToCodepoint_spec,
    to_rune, to_uint32, to_byte.
  intros Hb. destruct (Z.ltb_spec b 16); Z.div_mod_to_equations; lia.
Qed.

Lemma ToCodepoint_spec_range (b : Z) :
  is_byte b -> VariationSelector (ToCodepoint_spec b).
Proof.
  unfold is_byte, VariationSelector, in_rangeA, in_rangeB, ToCodepoint_spec.
  intros Hb. destruct (Z.ltb_spec b 16); lia.
Qed.

Lemma FromCodepoint_ToCodepoint_spec (b : Z) :
  is_byte b -> FromCodepoint_spec (ToCodepoint_spec b) = Some b.
Proof.
  unfold is_byte, FromCodepoint_spec, ToCodepoint_spec, in_rangeAb, in_rangeBb.
  intros Hb. destruct (Z.ltb_spec b 16);
    repeat match goal with
           | |- context [?a <=? ?b] => destruct (Z.leb_spec a b); try lia
           end; cbn [andb]; f_equal; lia.
Qed.

Lemma FromCodepoint_spec_outside (cp : Z) :
  ~ VariationSelector cp -> FromCodepoint_spec cp = None.
Proof.
  unfold VariationSelector, in_rangeA, in_rangeB, FromCodepoint_spec,
    in_rangeAb, in_rangeBb.
  intros H.
  repeat match goal with
         | |- context [?a <=? ?b] => destruct (Z.leb_spec a b); try lia
         end; reflexivity.
Qed.

(** A selector is a scalar value. *)
Lemma VariationSelector_scalar (cp : Z) :
  VariationSelector cp -> is_scalar cp.
Proof.
  unfold VariationSelector, in_rangeA, in_rangeB, is_scalar. lia.
Qed.

Lemma byteToVariationSelector_scalar (b : Z) :
  is_byte b -> is_scalar (byteToVariationSelector b).
Proof.
  intros Hb. rewrite byteToVariationSelector_arith by assumption.
  apply VariationSelector_scalar, ToCodepoint_spec_range. exact Hb.
Qed.

Lemma byte_or_newline_selector (b : Z) :
  is_byte b -> byte_or_newline (byteToVariationSelector b) = b.
Proof.
  intros Hb. unfold byte_or_newline.
  rewrite byteToVariationSelector_arith, FromCodepoint_ToCodepoint_spec
    by assumption. reflexivity.
Qed.

Lemma byte_or_newline_outside (cp : Z) :
  ~ VariationSelector cp -> byte_or_newline cp = 0x0A.
Proof.
  intros H. unfold byte_or_newline.
  rewrite FromCodepoint_spec_outside by assumption. reflexivity.
Qed.

End ByteCodepointMap.

(* ===================================================================== *)
(** * encode and decode *)
(* ===================================================================== *)

Section Transform.

Lemma decode_step_written (message : list Z) (vs : Z) :
  decode_step message vs = message ++ [written vs].
Proof.
  unfold decode_step, written.
  destruct (variationSelectorToByte vs); reflexivity.
Qed.

Lemma fold_decode_step (rs : list Z) :
  forall message,
    fold_left decode_step rs message = message ++ map written rs.
Proof.
  induction rs as [|r rs IH]; intros message; cbn [fold_left map].
  - rewrite app_nil_r. reflexivity.
  - rewrite IH, decode_step_written, <- app_assoc. reflexivity.
Qed.

(** [decode] writes one byte per rune of its argument, in order. *)
Lemma decode_written (s : list Z) : decode s = map written (runes s).
Proof. unfold decode. rewrite fold_decode_step. reflexivity. Qed.

Lemma written_rune (vs : Z) :
  is_rune vs -> written vs = byte_or_newline vs.
Proof.
  intros Hvs. unfold written, byte_or_newline.
  rewrite variationSelectorToByte_interval by assumption.
  destruct (FromCodepoint_spec vs); reflexivity.
Qed.

Lemma written_selector (b : Z) :
  is_byte b -> written (byteToVariationSelector b) = b.
Proof.
  intros Hb. rewrite written_rune.
  - apply byte_or_newline_selector. exact Hb.
  - pose proof (byteToVariationSelector_scalar b Hb) as Hs.
    unfold is_scalar in Hs. unfold is_rune. lia.
Qed.

Lemma written_outside (cp : Z) :
  is_rune cp -> ~ VariationSelector cp -> written cp = 0x0A.
Proof.
  intros Hr Hcp. rewrite written_rune by assumption.
  apply byte_or_newline_outside. exact Hcp.
Qed.

Lemma map_written_selectors (p : list Z) :
  is_bytes p -> map written (map byteToVariationSelector p) = p.
Proof.
  induction 1 as [|b p Hb Hp IH]; [reflexivity|].
  cbn [map]. rewrite written_selector, IH by assumption. reflexivity.
Qed.

Lemma map_written_RuneError (n : nat) :
  map written (repeat RuneError n) = repeat 0x0A n.
Proof.
  induction n as [|n IH]; [reflexivity|].
  cbn [repeat map]. rewrite IH. reflexivity.
Qed.

(** On a string of bytes, [decode] is the map of the specification over
    the runes. *)
Lemma decode_byte_or_newline (s : list Z) :
  is_bytes s -> decode s = map byte_or_newline (runes s).
Proof.
  intros Hs. rewrite decode_written.
  pose proof (runes_bound s Hs) as Hb.
  induction Hb as [|r rs Hr Hrs IH]; [reflexivity|].
  cbn [map]. rewrite IH, written_rune; [reflexivity|].
  unfold is_rune. lia.
Qed.

Lemma decode_app_utf8 (rs rest : list Z) :
  Forall is_scalar rs ->
  decode (utf8_string rs ++ rest) = map written rs ++ decode rest.
Proof.
  intros Hrs. rewrite !decode_written, runes_utf8_string by assumption.
  apply map_app.
Qed.

Lemma fold_encode (sentence : list Z) :
  forall acc,
    fold_left (fun s b => s ++ EncodeRune (byteToVariationSelector b))
              sentence acc
    = acc ++ utf8_string (map byteToVariationSelector sentence).
Proof.
  unfold utf8_string.
  induction sentence as [|b bs IH]; intros acc; cbn [fold_left map concat].
  - rewrite app_nil_r. reflexivity.
  - rewrite IH, <- app_assoc. reflexivity.
Qed.

(** [encode] produces the text of [base] followed by the selectors. *)
Lemma encode_utf8_string (base : Z) (sentence : list Z) :
  encode base sentence
  = utf8_string (base :: map byteToVariationSelector sentence).
Proof.
  unfold encode. rewrite fold_encode. reflexivity.
Qed.

Lemma selectors_scalar (p : list Z) :
  is_bytes p -> Forall is_scalar (map byteToVariationSelector p).
Proof.
  induction 1 as [|b p Hb Hp IH]; cbn [map]; constructor;
    [apply byteToVariationSelector_scalar|]; assumption.
Qed.

(** The inner round trip, with anything after the encoded run. *)
Lemma decode_encode_app (base : Z) (p rest : list Z) :
  is_scalar base -> ~ VariationSelector base -> is_bytes p ->
  decode (encode base p ++ rest) = 0x0A :: p ++ decode rest.
Proof.
  intros Hbase Hout Hp. rewrite encode_utf8_string.
  rewrite decode_app_utf8
    by (constructor; [assumption | apply selectors_scalar; assumption]).
  cbn [map app]. rewrite map_written_selectors by assumption.
  rewrite written_outside; [reflexivity| |assumption].
  unfold is_scalar in Hbase. unfold is_rune. lia.
Qed.

Lemma decode_continuation (tl : list Z) :
  Forall (fun b => 0x80 <= b <= 0xBF) tl ->
  decode tl = repeat 0x0A (length tl).
Proof.
  intros Htl. rewrite decode_written.
  rewrite <- (app_nil_r tl) at 1.
  rewrite runes_continuation, runes_nil, app_nil_r by assumption.
  apply map_written_RuneError.
Qed.

Lemma to_rune_byte (b : Z) : is_byte b -> to_rune b = b.
Proof.
  unfold is_byte, to_rune. intros Hb. Z.div_mod_to_equations; lia.
Qed.

Lemma length_eqb_nil {A : Type} (l : list A) :
  (length l =? 0)%nat = true <-> l = [].
Proof.
  destruct l; cbn; split; intros H; try reflexivity; discriminate.
Qed.

(** [EncodeText] on a non-empty target and a non-empty clear text. *)
Lemma EncodeText_cons (s : smuggler) (b0 : Z) (tl : list Z) :
  clearText s <> [] ->
  EncodeText s (b0 :: tl)
  = Ok (encode (to_rune b0) (clearText s) ++ tl).
Proof.
  intros Hp. unfold EncodeText, strings.slice_from, at_.
  destruct (clearText s) as [|b p] eqn:Ep; [congruence|].
  cbn [length Nat.eqb nth skipn].
  destruct tl as [|t tl]; cbn; [rewrite app_nil_r|]; reflexivity.
Qed.

End Transform.

(* ===================================================================== *)
(** * TrimSpace *)
(* ===================================================================== *)

Section Trimming.

Lemma asciiSpace_space (c : Z) :
  is_ascii_space c -> (c >=? RuneSelf) = false /\ strings.asciiSpace c = 1.
Proof.
  unfold is_ascii_space.
  intros [-> | [-> | [-> | [-> | [-> | ->]]]]]; split; reflexivity.
Qed.

Lemma asciiSpace_graph (c : Z) :
  isgraph c -> (c >=? RuneSelf) = false /\ strings.asciiSpace c = 0.
Proof.
  unfold isgraph, RuneSelf, strings.asciiSpace. intros H. split.
  - rewrite Z.geb_leb. apply Z.leb_gt. lia.
  - repeat match goal with
           | |- context [?a =? ?b] => destruct (Z.eqb_spec a b); try lia
           end; reflexivity.
Qed.

Lemma TrimSpace_stop_spaces (ws rs : list Z) :
  Forall is_ascii_space ws ->
  strings.TrimSpace_stop (ws ++ rs) = strings.TrimSpace_stop rs.
Proof.
  induction 1 as [|c ws Hc Hws IH]; [reflexivity|].
  destruct (asciiSpace_space c Hc) as [Hself Hsp].
  cbn [app strings.TrimSpace_stop]. rewrite Hself, Hsp. exact IH.
Qed.

Lemma TrimSpace_spaces (ws s : list Z) :
  Forall is_ascii_space ws ->
  strings.TrimSpace (ws ++ s) = strings.TrimSpace s.
Proof.
  induction 1 as [|c ws Hc Hws IH]; [reflexivity|].
  destruct (asciiSpace_space c Hc) as [Hself Hsp].
  cbn [app strings.TrimSpace]. rewrite Hself, Hsp. exact IH.
Qed.

(** A string of white space only trims to the empty string. *)
Lemma TrimSpace_all_spaces (ws : list Z) :
  Forall is_ascii_space ws -> strings.TrimSpace ws = [].
Proof.
  intros Hws. rewrite <- (app_nil_r ws), TrimSpace_spaces by assumption.
  reflexivity.
Qed.

(** White space around a run that starts and ends with a graphic
    character is removed, and nothing else. *)
Lemma TrimSpace_around (ws ws' p : list Z) (a z : Z) (mid : list Z) :
  Forall is_ascii_space ws -> Forall is_ascii_space ws' ->
  p = a :: mid -> rev p = z :: rev (removelast p) ->
  isgraph a -> isgraph z ->
  strings.TrimSpace (ws ++ p ++ ws') = p.
Proof.
  intros Hws Hws' Hp Hrev Ha Hz.
  rewrite TrimSpace_spaces by assumption.
  destruct (asciiSpace_graph a Ha) as [Hself Hsp].
  destruct (asciiSpace_graph z Hz) as [Hselfz Hspz].
  assert (Hstop : strings.TrimSpace (p ++ ws')
                  = strings.TrimSpace_stop (rev (p ++ ws'))).
  { rewrite Hp. cbn [app strings.TrimSpace]. rewrite Hself, Hsp.
    reflexivity. }
  rewrite Hstop, rev_app_distr.
  rewrite TrimSpace_stop_spaces by (apply Forall_rev; assumption).
  rewrite Hrev. cbn [strings.TrimSpace_stop]. rewrite Hselfz, Hspz.
  rewrite <- Hrev. apply rev_involutive.
Qed.

(** On ASCII text [TrimSpace] drops the white space at both ends. *)
Lemma TrimSpace_stop_ascii (rs : list Z) :
  Forall (fun c => c < RuneSelf) rs ->
  strings.TrimSpace_stop rs = rev (drop_ascii_space rs).
Proof.
  induction 1 as [|c rs Hc Hrs IH]; [reflexivity|].
  cbn [strings.TrimSpace_stop drop_ascii_space].
  rewrite Z.geb_leb. destruct (Z.leb_spec RuneSelf c); [lia|].
  destruct (strings.asciiSpace c =? 0); [reflexivity | exact IH].
Qed.

Lemma TrimSpace_ascii (s : list Z) :
  Forall (fun c => c < RuneSelf) s -> strings.TrimSpace s = trim_ascii s.
Proof.
  unfold trim_ascii.
  induction 1 as [|c s Hc Hs IH]; [reflexivity|].
  cbn [strings.TrimSpace drop_ascii_space].
  rewrite Z.geb_leb. destruct (Z.leb_spec RuneSelf c); [lia|].
  destruct (strings.asciiSpace c =? 0); [|exact IH].
  apply TrimSpace_stop_ascii, Forall_rev. constructor; assumption.
Qed.

(** ** White space runes and the bytes that encode them *)

Lemma IsSpace_cases (r : Z) :
  unicode.IsSpace r = true ->
  is_ascii_space r \/ r = 0x85 \/ r = 0xA0 \/ r = 0x1680 \/
  0x2000 <= r <= 0x200A \/ r = 0x2028 \/ r = 0x2029 \/ r = 0x202F \/
  r = 0x205F \/ r = 0x3000.
Proof.
  unfold unicode.IsSpace, unicode.isExcludingLatin,
    unicode.White_Space_excluding_latin, is_ascii_space.
  cbn [existsb fst snd].
  repeat match goal with
         | |- context [?a =? ?b] => destruct (Z.eqb_spec a b); try lia
         end;
  repeat match goal with
         | |- context [?a <=? ?b] => destruct (Z.leb_spec a b); try lia
         end;
  cbn [orb andb]; intros H; try discriminate; lia.
Qed.

Lemma IsSpace_ascii_space (c : Z) :
  is_ascii_space c -> unicode.IsSpace c = true.
Proof.
  unfold is_ascii_space.
  intros [-> | [-> | [-> | [-> | [-> | ->]]]]]; reflexivity.
Qed.

(** A step that decodes a white space rune either read one ASCII white
    space byte or read a second byte in 0x80..0xA0. *)
Lemma space_rune_bytes (s : list Z) (r : Z) (size : nat) :
  decodes s r size -> unicode.IsSpace r = true ->
  (r = at_ s 0 /\ is_ascii_space r) \/
  ((2 <= length s)%nat /\ 0x80 <= at_ s 1 <= 0xA0).
Proof.
  intros Hd Hsp. apply IsSpace_cases in Hsp. unfold is_ascii_space in *.
  destruct Hd; unfold RuneError in *.
  - lia.
  - left. split; [reflexivity | lia].
  - lia.
  - right. split; [assumption|]. Z.div_mod_to_equations. lia.
  - right. split; [lia|]. Z.div_mod_to_equations. lia.
  - exfalso. Z.div_mod_to_equations. lia.
Qed.

Lemma nth_Forall {A : Type} (P : A -> Prop) (l : list A) (n : nat) (d : A) :
  Forall P l -> (n < length l)%nat -> P (nth n l d).
Proof.
  intros Hl Hn. rewrite Forall_forall in Hl. apply Hl, nth_In, Hn.
Qed.

(** In a string with no byte in 0x80..0xA0, a step that starts on a
    byte that is no ASCII white space does not decode white space. *)
Lemma step_not_space (s : list Z) :
  Forall no_space_byte s -> ~ is_ascii_space (at_ s 0) ->
  unicode.IsSpace (fst (DecodeRuneInString s)) = false.
Proof.
  intros Hs Hfirst.
  destruct (unicode.IsSpace _) eqn:Hsp; [exfalso | reflexivity].
  destruct (space_rune_bytes s _ _ (DecodeRune_decodes s) Hsp)
    as [[Hr Ha]|[Hlen Hb]].
  - rewrite Hr in Ha. contradiction.
  - apply (nth_Forall no_space_byte s 1 0 Hs); [lia | exact Hb].
Qed.

Lemma printable_no_space_byte (b : Z) : printable b -> no_space_byte b.
Proof. unfold printable, isgraph, no_space_byte. lia. Qed.

Lemma printable_not_ascii_space (b : Z) : printable b -> ~ is_ascii_space b.
Proof. unfold printable, isgraph, is_ascii_space. lia. Qed.

Lemma ascii_space_no_space_byte (b : Z) : is_ascii_space b -> no_space_byte b.
Proof. unfold is_ascii_space, no_space_byte. lia. Qed.

(** ** Trimming by function, on a string that starts and ends a run *)

(** Nothing is cut on the left of a string whose first rune is no white
    space. *)
Lemma TrimLeftFunc_keep (s : list Z) :
  s <> [] -> unicode.IsSpace (fst (DecodeRuneInString s)) = false ->
  strings.TrimLeftFunc s unicode.IsSpace = s.
Proof.
  intros Hne Hsp. destruct s as [|c s']; [congruence|].
  unfold strings.TrimLeftFunc, strings.indexFunc, range_string.
  rewrite range_from_cons. cbn [strings.indexFunc_loop]. rewrite Hsp.
  reflexivity.
Qed.

Lemma lastIndexFunc_loop_step (f : Z -> bool) (truth : bool) (pre : list Z) :
  pre <> [] ->
  strings.lastIndexFunc_loop f truth pre
  = if Bool.eqb (f (fst (DecodeLastRuneInString pre))) truth
    then Z.of_nat (length pre - snd (DecodeLastRuneInString pre))
    else strings.lastIndexFunc_loop f truth
           (firstn (length pre - snd (DecodeLastRuneInString pre)) pre).
Proof.
  destruct pre as [|c pre']; [congruence|]. intros _.
  rewrite strings.lastIndexFunc_loop_equation_2. reflexivity.
Qed.

(** A last byte below [RuneSelf] is the last rune. *)
Lemma DecodeLastRune_ascii (q : list Z) (c : Z) :
  c < RuneSelf -> DecodeLastRuneInString (q ++ [c]) = (c, 1%nat).
Proof.
  intros Hc. unfold DecodeLastRuneInString, at_.
  rewrite length_app. cbn [length].
  replace (Z.to_nat (Z.of_nat (length q + 1) - 1)) with (length q) by lia.
  rewrite nth_middle.
  destruct (Z.eqb_spec (Z.of_nat (length q + 1)) 0); [lia|].
  destruct (Z.ltb_spec c RuneSelf); [reflexivity | lia].
Qed.

(** Trailing ASCII white space is passed over by the backward search. *)
Lemma lastIndexFunc_loop_spaces (ws' : list Z) :
  Forall is_ascii_space ws' ->
  forall p,
    strings.lastIndexFunc_loop unicode.IsSpace false (p ++ rev ws')
    = strings.lastIndexFunc_loop unicode.IsSpace false p.
Proof.
  induction 1 as [|c ws' Hc Hws' IH]; intros p.
  - cbn [rev]. rewrite app_nil_r. reflexivity.
  - cbn [rev]. rewrite app_assoc.
    rewrite lastIndexFunc_loop_step
      by (intros Hnil; apply app_eq_nil in Hnil; destruct Hnil; discriminate).
    rewrite DecodeLastRune_ascii
      by (destruct (asciiSpace_space c Hc) as [Hself _];
          rewrite Z.geb_leb in Hself; apply Z.leb_gt in Hself; exact Hself).
    cbn [fst snd]. rewrite IsSpace_ascii_space by assumption. cbn [Bool.eqb].
    rewrite length_app. cbn [length].
    replace (length (p ++ rev ws') + 1 - 1)%nat
      with (length (p ++ rev ws') + 0)%nat by lia.
    rewrite firstn_app_2, firstn_O, app_nil_r. apply IH.
Qed.

(** What the backward step returns on a non-empty string. *)
Lemma DecodeLastRune_cases (s : list Z) :
  s <> [] ->
  let r := fst (DecodeLastRuneInString s) in
  let size := snd (DecodeLastRuneInString s) in
  let z := at_ s (length s - 1) in
  (z < RuneSelf /\ r = z /\ size = 1%nat) \/
  (RuneSelf <= z /\ r = RuneError /\ size = 1%nat) \/
  (RuneSelf <= z /\
   exists start, (start + size = length s)%nat /\ (1 <= size)%nat /\
                 DecodeRuneInString (skipn start s) = (r, size)).
Proof.
  intros Hne. cbv zeta. unfold DecodeLastRuneInString.
  assert (Hlen : (1 <= length s)%nat)
    by (destruct s; [congruence | cbn [length]; lia]).
  destruct (Z.eqb_spec (Z.of_nat (length s)) 0); [lia|].
  replace (Z.to_nat (Z.of_nat (length s) - 1)) with (length s - 1)%nat by lia.
  destruct (Z.ltb_spec (at_ s (length s - 1)) RuneSelf) as [Hz|Hz].
  - left. repeat split. exact Hz.
  - right.
    match goal with
    | |- context [skipn (Z.to_nat ?st) _] => set (start := st)
    end.
    assert (Hstart : 0 <= start) by (unfold start; lia).
    destruct (DecodeRuneInString (skipn (Z.to_nat start) s))
      as [r size] eqn:Hdec.
    destruct (Z.eqb_spec (start + Z.of_nat size) (Z.of_nat (length s)))
      as [Heq|Hneq]; cbn [negb fst snd].
    + right. split; [exact Hz|]. exists (Z.to_nat start).
      split; [lia|]. split; [|exact Hdec].
      destruct (skipn (Z.to_nat start) s) as [|c q] eqn:Hq.
      * apply (f_equal (@length Z)) in Hq. rewrite length_skipn in Hq.
        cbn [length] in Hq.
        assert (Hsz : size = 0%nat)
          by (unfold DecodeRuneInString in Hdec; cbn in Hdec;
              inversion Hdec; reflexivity).
        assert (Hback : forall k st, scanBack s k st <= st).
        { intros k. induction k as [|k IHk]; intros st; cbn [scanBack].
          - lia.
          - destruct (RuneStart _); [lia | specialize (IHk (st - 1)); lia]. }
        unfold start in Heq.
        match type of Heq with
        | context [scanBack s ?k ?st] => specialize (Hback k st)
        end. lia.
      * pose proof (DecodeRune_size_pos c q) as Hpos.
        rewrite Hdec in Hpos. exact Hpos.
    + left. repeat split. exact Hz.
Qed.

(** A byte followed by bytes below [RuneSelf] only is a step of width
    one. *)
Lemma DecodeRune_before_ascii (z : Z) (w : list Z) :
  Forall (fun c => c < RuneSelf) w ->
  snd (DecodeRuneInString (z :: w)) = 1%nat.
Proof.
  intros Hw. pose proof (DecodeRune_decodes (z :: w)) as Hd.
  assert (H1 : forall c, at_ (z :: w) 1 = c -> (2 <= length (z :: w))%nat ->
                         0x80 <= c -> False).
  { intros c Hc Hlen Hge. destruct w as [|c' w]; [cbn in Hlen; lia|].
    unfold at_ in Hc. cbn [nth] in Hc. subst c'.
    inversion Hw; subst. unfold RuneSelf in *. lia. }
  inversion Hd as [Hnil| | |Hlen _ Hb1|Hlen _ Hb1|Hlen _ Hb1];
    try reflexivity; try discriminate;
    exfalso; apply (H1 _ eq_refl); lia.
Qed.

(** A step of width two or more reads the same whatever follows. *)
Lemma DecodeRune_app_full (q w : list Z) :
  (2 <= snd (DecodeRuneInString q))%nat ->
  length q = snd (DecodeRuneInString q) ->
  snd (DecodeRuneInString (q ++ w)) = length q.
Proof.
  intros Hsize Hlen. pose proof (DecodeRune_decodes q) as Hd.
  destruct (DecodeRuneInString q) as [r size]. cbn [fst snd] in *.
  inversion Hd; subst; try lia;
    destruct q as [|b0 [|b1 [|b2 [|b3 [|b4 q]]]]];
    cbn [length] in *; try lia;
    unfold at_ in *; cbn [nth] in *; cbn [app].
  - rewrite DecodeRune_2 by assumption. reflexivity.
  - rewrite DecodeRune_3 by assumption. reflexivity.
  - rewrite DecodeRune_4 by assumption. reflexivity.
Qed.

(** The first byte of a step of width two or more is a leading byte. *)
Lemma DecodeRune_lead (q : list Z) :
  (2 <= snd (DecodeRuneInString q))%nat -> 0xC2 <= at_ q 0.
Proof.
  intros Hsize. pose proof (DecodeRune_decodes q) as Hd.
  destruct (DecodeRuneInString q) as [r size]. cbn [fst snd] in *.
  inversion Hd; subst; lia.
Qed.

Lemma skipn_last {A : Type} (q : list A) (z : A) :
  skipn (length (q ++ [z]) - 1) (q ++ [z]) = [z].
Proof.
  rewrite length_app. cbn [length].
  replace (length q + 1 - 1)%nat with (length q) by lia.
  apply skipn_length_app.
Qed.

Lemma firstn_length_app {A : Type} (p w : list A) :
  firstn (length p) (p ++ w) = p.
Proof.
  replace (length p) with (length p + 0)%nat by lia.
  rewrite firstn_app_2, firstn_O. apply app_nil_r.
Qed.

(** Trimming on the right removes the ASCII white space after a run of
    printable bytes, and nothing of the run. *)
Lemma TrimRightFunc_run (p ws' : list Z) :
  p <> [] -> Forall printable p -> Forall is_ascii_space ws' ->
  strings.TrimRightFunc (p ++ ws') unicode.IsSpace = p.
Proof.
  intros Hne Hp Hws'.
  rewrite <- (rev_involutive ws').
  assert (Hrws : Forall is_ascii_space (rev ws')) by (apply Forall_rev; assumption).
  set (w := rev (rev ws')).
  assert (Hw : Forall (fun c => c < RuneSelf) w).
  { unfold w. rewrite rev_involutive. eapply Forall_impl; [|exact Hws'].
    unfold is_ascii_space, RuneSelf. intros c Hc. lia. }
  assert (Hnsb : Forall no_space_byte p)
    by (eapply Forall_impl; [|exact Hp]; apply printable_no_space_byte).
  assert (Hlen : (1 <= length p)%nat)
    by (destruct p; [congruence | cbn [length]; lia]).
  pose proof (DecodeLastRune_cases p Hne) as Hcases. cbv zeta in Hcases.
  destruct (DecodeLastRuneInString p) as [r size] eqn:Hlast.
  cbn [fst snd] in *.
  assert (Hz : printable (at_ p (length p - 1)))
    by (unfold at_; apply nth_Forall; [assumption | lia]).
  assert (Hsize : (1 <= size <= length p)%nat).
  { destruct Hcases as [[_ [_ ->]]|[[_ [_ ->]]|[_ [start [H1 [H2 _]]]]]]; lia. }
  assert (Hsp : unicode.IsSpace r = false).
  { destruct Hcases as [[Hlt [-> _]]|[[_ [-> _]]|[_ [start [H1 [H2 Hdec]]]]]].
    - destruct (unicode.IsSpace _) eqn:E; [|reflexivity].
      apply IsSpace_cases in E.
      unfold printable, isgraph, is_ascii_space, RuneSelf in *. lia.
    - reflexivity.
    - replace r with (fst (DecodeRuneInString (skipn start p)))
        by (rewrite Hdec; reflexivity).
      apply step_not_space.
      + apply Forall_skipn_keep. exact Hnsb.
      + apply printable_not_ascii_space.
        unfold at_. rewrite nth_skipn. rewrite Nat.add_0_r.
        apply nth_Forall; [assumption | lia]. }
  set (j := (length p - size)%nat).
  assert (Hj : (j < length p)%nat) by (unfold j; lia).
  assert (Hidx : strings.lastIndexFunc (p ++ w) unicode.IsSpace false
                 = Z.of_nat j).
  { unfold strings.lastIndexFunc, w.
    rewrite lastIndexFunc_loop_spaces by assumption.
    rewrite lastIndexFunc_loop_step by assumption.
    rewrite Hlast. cbn [fst snd]. rewrite Hsp. reflexivity. }
  unfold strings.TrimRightFunc, strings.slice, strings.slice_from.
  rewrite Hidx. cbv zeta.
  replace (Z.of_nat j >=? 0) with true
    by (symmetry; rewrite Z.geb_leb; apply Z.leb_le; lia).
  rewrite Nat2Z.id. cbn [andb]. unfold at_ at 1.
  rewrite app_nth1 by assumption. fold (at_ p j).
  rewrite skipn_app.
  replace (j - length p)%nat with 0%nat by lia. cbn [skipn].
  assert (Hgoal : forall k, Z.to_nat k = length p ->
                            firstn (Z.to_nat k - 0) (p ++ w) = p).
  { intros k Hk. rewrite Nat.sub_0_r, Hk. apply firstn_length_app. }
  destruct Hcases as [[Hlt [_ ->]]|[[Hge [_ ->]]|[Hge [start [H1 [H2 Hdec]]]]]].
  - (* the last byte is ASCII *)
    unfold j. rewrite Z.geb_leb.
    destruct (Z.leb_spec RuneSelf (at_ p (length p - 1))); [lia|].
    apply Hgoal. lia.
  - (* the last byte is an invalid encoding *)
    unfold j. rewrite Z.geb_leb.
    destruct (Z.leb_spec RuneSelf (at_ p (length p - 1))); [|lia].
    destruct (exists_last Hne) as [q [z ->]].
    rewrite skipn_last. cbn [app].
    rewrite DecodeRune_before_ascii by assumption.
    apply Hgoal. lia.
  - (* the last rune is well formed *)
    assert (Hjs : j = start) by (unfold j; lia). rewrite Hjs.
    assert (Hlead : RuneSelf <= at_ p start).
    { destruct (Nat.eq_dec size 1) as [E1|N1].
      - replace start with (length p - 1)%nat by lia. exact Hge.
      - pose proof (DecodeRune_lead (skipn start p)) as Hl.
        rewrite Hdec in Hl. cbn [snd] in Hl.
        unfold at_ in Hl. rewrite nth_skipn, Nat.add_0_r in Hl.
        unfold at_, RuneSelf. lia. }
    rewrite Z.geb_leb.
    destruct (Z.leb_spec RuneSelf (at_ p start)); [|lia].
    assert (Hwid : snd (DecodeRuneInString (skipn start p ++ w)) = size).
    { destruct (Nat.eq_dec size 1) as [E1|N1].
      - destruct (exists_last Hne) as [q [z Hq]].
        replace start with (length p - 1)%nat by lia.
        rewrite Hq, skipn_last. cbn [app].
        rewrite DecodeRune_before_ascii by assumption. lia.
      - rewrite DecodeRune_app_full; rewrite ?Hdec; cbn [snd];
          rewrite ?length_skipn; lia. }
    rewrite Hwid. apply Hgoal. lia.
Qed.

(** White space around a run of printable bytes is removed, and
    nothing else, whichever path [TrimSpace] takes. *)
Lemma TrimSpace_printable (ws ws' p : list Z) :
  Forall is_ascii_space ws -> Forall is_ascii_space ws' ->
  p <> [] -> Forall printable p ->
  strings.TrimSpace (ws ++ p ++ ws') = p.
Proof.
  intros Hws Hws' Hne Hp.
  rewrite TrimSpace_spaces by assumption.
  destruct p as [|a mid] eqn:Ep; [congruence|]. rewrite <- Ep in *.
  assert (Ha : printable a) by (rewrite Ep in Hp; inversion Hp; assumption).
  assert (Hstep : strings.TrimSpace (p ++ ws')
                  = if a >=? RuneSelf
                    then strings.TrimFunc (p ++ ws') unicode.IsSpace
                    else strings.TrimSpace_stop (rev (p ++ ws'))).
  { rewrite Ep. cbn [app strings.TrimSpace].
    destruct (a >=? RuneSelf) eqn:Hself; [reflexivity|].
    assert (Hg : isgraph a).
    { rewrite Z.geb_leb in Hself. apply Z.leb_gt in Hself.
      unfold printable, isgraph, RuneSelf in *. lia. }
    destruct (asciiSpace_graph a Hg) as [_ ->]. reflexivity. }
  rewrite Hstep. destruct (a >=? RuneSelf) eqn:Hself.
  - (* the run starts above ASCII: trimming by function *)
    unfold strings.TrimFunc. rewrite TrimLeftFunc_keep.
    + apply TrimRightFunc_run; assumption.
    + rewrite Ep. discriminate.
    + apply step_not_space.
      * apply Forall_app. split.
        -- eapply Forall_impl; [|exact Hp]. apply printable_no_space_byte.
        -- eapply Forall_impl; [|exact Hws']. apply ascii_space_no_space_byte.
      * rewrite Ep. unfold at_. cbn [app nth].
        apply printable_not_ascii_space. exact Ha.
  - (* the run starts in ASCII: the second loop *)
    rewrite rev_app_distr.
    rewrite TrimSpace_stop_spaces by (apply Forall_rev; assumption).
    destruct (exists_last Hne) as [q [z Hq]].
    assert (Hz : printable z).
    { rewrite Hq in Hp. apply Forall_app in Hp. destruct Hp as [_ Hz].
      inversion Hz. assumption. }
    assert (Hrev : rev p = z :: rev q)
      by (rewrite Hq, rev_app_distr; reflexivity).
    rewrite Hrev. cbn [strings.TrimSpace_stop]. rewrite <- Hrev.
    rewrite rev_involutive.
    destruct (z >=? RuneSelf) eqn:Hzself.
    + rewrite <- (app_nil_r p) at 1.
      apply TrimRightFunc_run; [assumption | assumption | constructor].
    + assert (Hg : isgraph z).
      { rewrite Z.geb_leb in Hzself. apply Z.leb_gt in Hzself.
        unfold printable, isgraph, RuneSelf in *. lia. }
      destruct (asciiSpace_graph z Hg) as [_ ->]. reflexivity.
Qed.

Lemma Forall_repeat_newline (n : nat) :
  Forall is_ascii_space (repeat 0x0A n).
Proof.
  induction n as [|n IH]; cbn [repeat]; constructor; [|exact IH].
  unfold is_ascii_space. lia.
Qed.

End Trimming.

(* ===================================================================== *)
(** * The properties of the codec *)
(* ===================================================================== *)

Section Properties.

Lemma DecodeText_nonempty (s : smuggler) (target : list Z) :
  target <> [] ->
  DecodeText s target = Ok (strings.TrimSpace (decode target)).
Proof.
  intros Hne. unfold DecodeText.
  destruct (length target =? 0)%nat eqn:E; [|reflexivity].
  apply length_eqb_nil in E. congruence.
Qed.

Lemma printable_is_bytes (p : list Z) : Forall printable p -> is_bytes p.
Proof.
  unfold is_bytes. apply Forall_impl. unfold printable, isgraph, is_byte. lia.
Qed.

Lemma byte_not_selector (b : Z) :
  is_byte b -> is_scalar b /\ ~ VariationSelector b.
Proof.
  unfold is_byte, is_scalar, VariationSelector, in_rangeA, in_rangeB. lia.
Qed.

(** What [Extract] gives back after [Embed], for any carrier made of a
    first byte and continuation bytes. *)
Lemma DecodeText_EncodeText_shape (s s' : smuggler) (b0 : Z) (tl : list Z) :
  is_byte b0 -> Forall (fun b => 0x80 <= b <= 0xBF) tl ->
  clearText s <> [] -> Forall printable (clearText s) ->
  exists embedded,
    EncodeText s (b0 :: tl) = Ok embedded /\
    DecodeText s' embedded = Ok (clearText s).
Proof.
  intros Hb0 Htl Hne Hp.
  exists (encode (to_rune b0) (clearText s) ++ tl).
  split; [apply EncodeText_cons; assumption|].
  rewrite to_rune_byte by assumption.
  destruct (byte_not_selector b0 Hb0) as [Hscalar Hout].
  assert (Hdec : decode (encode b0 (clearText s) ++ tl)
                 = [0x0A] ++ clearText s ++ repeat 0x0A (length tl)).
  { rewrite decode_encode_app
      by (try assumption; apply printable_is_bytes; assumption).
    rewrite decode_continuation by assumption. reflexivity. }
  rewrite DecodeText_nonempty.
  - rewrite Hdec. f_equal. apply TrimSpace_printable; try assumption.
    + constructor; [unfold is_ascii_space; lia | constructor].
    + apply Forall_repeat_newline.
  - intros Hnil. rewrite Hnil in Hdec. cbn in Hdec. discriminate.
Qed.

(** C1.  Round trip: for every non-empty payload of printable,
    non-whitespace bytes (the clear text of the smuggler; the graphic
    bytes of ASCII, 0x21..0x7E, and those of ISO 8859-1, 0xA1..0xFF) and
    every carrier that is one character, the UTF-8 encoding of a scalar
    value [c], [EncodeText] succeeds and [DecodeText] of its result
    returns the payload exactly. *)
Theorem roundtrip_printable_payload (s s' : smuggler) (c : Z) :
  is_scalar c -> clearText s <> [] -> Forall printable (clearText s) ->
  exists embedded,
    EncodeText s (EncodeRune c) = Ok embedded /\
    DecodeText s' embedded = Ok (clearText s).
Proof.
  intros Hc Hne Hp.
  destruct (EncodeRune_shape c Hc) as [b0 [tl [Henc [Hb0 Htl]]]].
  rewrite Henc. apply DecodeText_EncodeText_shape; assumption.
Qed.

Lemma roundtrip_printable_payload_witness :
  let s := {| clearText := [0x48; 0x69; 0xE9]; encodeMode := true |} in
  let s' := {| clearText := []; encodeMode := false |} in
  is_scalar 0x1F600 /\ clearText s <> [] /\ Forall printable (clearText s) /\
  exists embedded,
    EncodeText s (EncodeRune 0x1F600) = Ok embedded /\
    DecodeText s' embedded = Ok [0x48; 0x69; 0xE9].
Proof.
  intros s s'.
  assert (H1 : is_scalar 0x1F600) by (unfold is_scalar; lia).
  assert (H2 : clearText s <> []) by discriminate.
  assert (H3 : Forall printable (clearText s))
    by (repeat constructor; unfold printable, isgraph; lia).
  split; [exact H1|]. split; [exact H2|]. split; [exact H3|].
  exact (roundtrip_printable_payload s s' 0x1F600 H1 H2 H3).
Defined.

(** C2.  The byte / codepoint map is a bijection between the bytes and
    Range A union Range B: the reverse map undoes the forward map on
    every byte, the forward map is injective, its image is exactly the
    two ranges, the ranges are disjoint, and the image of the 256 bytes
    has 256 distinct codepoints. *)
Theorem byte_codepoint_bijection :
  (forall b, is_byte b ->
             variationSelectorToByte (byteToVariationSelector b) = Ok b) /\
  (forall b1 b2, is_byte b1 -> is_byte b2 ->
                 byteToVariationSelector b1 = byteToVariationSelector b2 ->
                 b1 = b2) /\
  (forall cp, (exists b, is_byte b /\ byteToVariationSelector b = cp)
              <-> in_rangeA cp \/ in_rangeB cp) /\
  (forall cp, ~ (in_rangeA cp /\ in_rangeB cp)) /\
  length (nodup Z.eq_dec
                (map byteToVariationSelector (map Z.of_nat (seq 0 256))))
  = 256%nat.
Proof.
  split; [|split; [|split; [|split]]].
  - intros b Hb.
    pose proof (byteToVariationSelector_scalar b Hb) as Hs.
    rewrite variationSelectorToByte_interval
      by (unfold is_scalar in Hs; unfold is_rune; lia).
    rewrite byteToVariationSelector_arith, FromCodepoint_ToCodepoint_spec
      by assumption. reflexivity.
  - intros b1 b2 H1 H2.
    rewrite !byteToVariationSelector_arith by assumption.
    unfold is_byte, ToCodepoint_spec in *.
    destruct (Z.ltb_spec b1 16), (Z.ltb_spec b2 16); lia.
  - intros cp. split.
    + intros [b [Hb <-]]. rewrite byteToVariationSelector_arith by assumption.
      apply ToCodepoint_spec_range. exact Hb.
    + unfold in_rangeA, in_rangeB. intros [HA|HB].
      * exists (cp - 0xFE00). split; [unfold is_byte; lia|].
        rewrite byteToVariationSelector_arith by (unfold is_byte; lia).
        unfold ToCodepoint_spec.
        destruct (Z.ltb_spec (cp - 0xFE00) 16); lia.
      * exists (cp - 0xE0100 + 16). split; [unfold is_byte; lia|].
        rewrite byteToVariationSelector_arith by (unfold is_byte; lia).
        unfold ToCodepoint_spec.
        destruct (Z.ltb_spec (cp - 0xE0100 + 16) 16); lia.
  - unfold in_rangeA, in_rangeB. lia.
  - vm_compute. reflexivity.
Qed.

Lemma byte_codepoint_bijection_witness :
  is_byte 200 /\
  variationSelectorToByte (byteToVariationSelector 200) = Ok 200.
Proof.
  assert (H : is_byte 200) by (unfold is_byte; lia).
  split; [exact H|].
  exact (proj1 byte_codepoint_bijection 200 H).
Defined.

(** What [Embed] does agree with the specification on: a carrier whose
    first character is a single byte. *)
Lemma EncodeText_ascii_carrier (s : smuggler) (c : Z) (rest : list Z) :
  0 <= c <= 0x7F -> clearText s <> [] -> is_bytes (clearText s) ->
  EncodeText s (c :: rest) = Ok (Embed_spec (c :: rest) (clearText s)).
Proof.
  intros Hc Hne Hp. rewrite EncodeText_cons by assumption.
  unfold Embed_spec. rewrite DecodeRune_ascii by lia.
  cbn [snd firstn skipn]. rewrite encode_utf8_string.
  rewrite to_rune_byte by (unfold is_byte; lia).
  assert (Hmap : map byteToVariationSelector (clearText s)
                 = map ToCodepoint_spec (clearText s)).
  { apply map_ext_in. intros b Hb.
    apply byteToVariationSelector_arith.
    unfold is_bytes in Hp. rewrite Forall_forall in Hp. apply Hp. exact Hb. }
  rewrite Hmap. unfold utf8_string. cbn [map concat].
  rewrite EncodeRune_1 by lia. reflexivity.
Qed.

(** And where it never does: a carrier whose first byte is not ASCII.
    The first byte is written as a two-byte rune of its own and the rest
    of the character is left after the selectors, so the result is one
    byte longer than what the specification asks for. *)
Lemma EncodeText_non_ascii_carrier (s : smuggler) (b0 : Z) (tl : list Z) :
  0x80 <= b0 <= 0xFF -> clearText s <> [] -> is_bytes (clearText s) ->
  exists embedded,
    EncodeText s (b0 :: tl) = Ok embedded /\
    length embedded
    = S (length (Embed_spec (b0 :: tl) (clearText s))).
Proof.
  intros Hb0 Hne Hp. eexists. split; [apply EncodeText_cons; assumption|].
  rewrite to_rune_byte by (unfold is_byte; lia).
  rewrite encode_utf8_string. unfold Embed_spec.
  assert (Hmap : map byteToVariationSelector (clearText s)
                 = map ToCodepoint_spec (clearText s)).
  { apply map_ext_in. intros b Hb.
    apply byteToVariationSelector_arith.
    unfold is_bytes in Hp. rewrite Forall_forall in Hp. apply Hp. exact Hb. }
  rewrite Hmap. unfold utf8_string at 1. cbn [map concat].
  fold (utf8_string (map ToCodepoint_spec (clearText s))).
  rewrite EncodeRune_2 by lia.
  set (size := snd (DecodeRuneInString (b0 :: tl))).
  pose proof (firstn_skipn size (b0 :: tl)) as Hsplit.
  apply (f_equal (@length Z)) in Hsplit.
  rewrite !length_app in *. cbn [length] in *. lia.
Qed.

(** C3.  [EncodeText] takes the first byte of the carrier, not its first
    character: on the carrier U+00E9 (bytes C3 A9) and the payload
    [0x41] it writes U+00C3 (the byte C3 read as a rune), the selector,
    and then the stray byte A9, where the specification asks for the
    carrier C3 A9 followed by the selector.  On the carrier U+1F600 and
    the payload "Hi" it writes U+00F0, the two selectors, and the three
    stray bytes 9F 98 80. *)
Theorem EncodeText_splits_multibyte_carrier :
  let s := {| clearText := [0x41]; encodeMode := true |} in
  let hi := {| clearText := [0x48; 0x69]; encodeMode := true |} in
  EncodeRune 0xE9 = [0xC3; 0xA9] /\
  EncodeText s [0xC3; 0xA9]
  = Ok [0xC3; 0x83; 0xF3; 0xA0; 0x84; 0xB1; 0xA9] /\
  Embed_spec [0xC3; 0xA9] [0x41] = [0xC3; 0xA9; 0xF3; 0xA0; 0x84; 0xB1] /\
  EncodeText s [0xC3; 0xA9] <> Ok (Embed_spec [0xC3; 0xA9] [0x41]) /\
  EncodeRune 0x1F600 = [0xF0; 0x9F; 0x98; 0x80] /\
  EncodeText hi [0xF0; 0x9F; 0x98; 0x80]
  = Ok [0xC3; 0xB0; 0xF3; 0xA0; 0x84; 0xB8; 0xF3; 0xA0; 0x85; 0x99;
        0x9F; 0x98; 0x80] /\
  Embed_spec [0xF0; 0x9F; 0x98; 0x80] [0x48; 0x69]
  = [0xF0; 0x9F; 0x98; 0x80; 0xF3; 0xA0; 0x84; 0xB8; 0xF3; 0xA0; 0x85; 0x99].
Proof.
  intros s hi.
  split; [reflexivity|]. split; [reflexivity|]. split; [reflexivity|].
  split; [vm_compute; discriminate|].
  split; [reflexivity|]. split; reflexivity.
Qed.

(** C5.  [EncodeText] fails exactly when the carrier or the clear text
    is empty, [DecodeText] exactly when its input is empty, and the
    error is an [EmptyInputError] in each case. *)
Theorem empty_input_rejection (s : smuggler) (target : list Z) :
  ((exists msg, EncodeText s target = Err msg)
   <-> target = [] \/ clearText s = []) /\
  (forall msg, EncodeText s target = Err msg -> EmptyInputError msg) /\
  ((exists msg, DecodeText s target = Err msg) <-> target = []) /\
  (forall msg, DecodeText s target = Err msg -> EmptyInputError msg).
Proof.
  assert (HE : forall msg, EncodeText s target = Err msg ->
                           (target = [] \/ clearText s = []) /\
                           EmptyInputError msg).
  { unfold EncodeText, EmptyInputError. intros msg.
    destruct target as [|c tl]; cbn [length Nat.eqb].
    - intros H. inversion H. split; left; reflexivity.
    - destruct (clearText s) as [|b p]; cbn [length Nat.eqb].
      + intros H. inversion H. split; right; reflexivity.
      + discriminate. }
  assert (HD : forall msg, DecodeText s target = Err msg ->
                           target = [] /\ EmptyInputError msg).
  { unfold DecodeText, EmptyInputError. intros msg.
    destruct target as [|c tl]; cbn [length Nat.eqb].
    - intros H. inversion H. split; [|left]; reflexivity.
    - discriminate. }
  split; [|split; [|split]].
  - split.
    + intros [msg H]. apply (HE msg H).
    + intros [-> | Hc].
      * eexists. reflexivity.
      * unfold EncodeText. rewrite Hc.
        destruct target; cbn [length Nat.eqb]; eexists; reflexivity.
  - intros msg H. apply (HE msg H).
  - split.
    + intros [msg H]. apply (HD msg H).
    + intros ->. eexists. reflexivity.
  - intros msg H. apply (HD msg H).
Qed.

Lemma empty_input_rejection_witness :
  let x := {| clearText := [0x78]; encodeMode := true |} in
  let e := {| clearText := []; encodeMode := true |} in
  EncodeText x [] = Err "target cannot be empty" /\
  EncodeText e [0x78] = Err "clear text cannot be empty" /\
  DecodeText x [] = Err "target cannot be empty" /\
  EmptyInputError "clear text cannot be empty".
Proof.
  intros x e.
  split; [reflexivity|]. split; [reflexivity|]. split; [reflexivity|].
  exact (proj1 (proj2 (empty_input_rejection e [0x78]))
               "clear text cannot be empty"%string eq_refl).
Defined.

(** C6.  [byteToVariationSelector] is a function on the bytes with no
    failure: below 16 it is [0xFE00 + b], from 16 on it is
    [0xE0100 + (b - 16)]. *)
Theorem byteToVariationSelector_formula (b : Z) :
  is_byte b ->
  byteToVariationSelector b
  = if b <? 16 then 0xFE00 + b else 0xE0100 + (b - 16).
Proof. exact (byteToVariationSelector_arith b). Qed.

Lemma byteToVariationSelector_formula_witness :
  is_byte 0x41 /\ byteToVariationSelector 0x41 = 0xE0131.
Proof.
  assert (H : is_byte 0x41) by (unfold is_byte; lia).
  split; [exact H|].
  exact (byteToVariationSelector_formula 0x41 H).
Defined.

(** C7.  [variationSelectorToByte] returns [cp - 0xFE00] on Range A,
    [cp - 0xE0100 + 16] on Range B, and fails on every other rune, the
    letter A among them. *)
Theorem variationSelectorToByte_ranges :
  (forall cp, in_rangeA cp ->
              variationSelectorToByte cp = Ok (cp - 0xFE00)) /\
  (forall cp, in_rangeB cp ->
              variationSelectorToByte cp = Ok (cp - 0xE0100 + 16)) /\
  (forall cp, is_rune cp -> ~ in_rangeA cp -> ~ in_rangeB cp ->
              variationSelectorToByte cp = Err "couldn't decode") /\
  variationSelectorToByte 0x41 = Err "couldn't decode".
Proof.
  unfold in_rangeA, in_rangeB, is_rune.
  split; [|split; [|split]].
  - intros cp H. rewrite variationSelectorToByte_interval
      by (unfold is_rune; lia).
    unfold FromCodepoint_spec, in_rangeAb.
    destruct (Z.leb_spec 0xFE00 cp), (Z.leb_spec cp 0xFE0F);
      try lia; reflexivity.
  - intros cp H. rewrite variationSelectorToByte_interval
      by (unfold is_rune; lia).
    unfold FromCodepoint_spec, in_rangeAb, in_rangeBb.
    destruct (Z.leb_spec 0xFE00 cp), (Z.leb_spec cp 0xFE0F),
      (Z.leb_spec 0xE0100 cp), (Z.leb_spec cp 0xE01EF);
      try lia; reflexivity.
  - intros cp Hr HA HB. rewrite variationSelectorToByte_interval
      by (unfold is_rune; lia).
    rewrite FromCodepoint_spec_outside; [reflexivity|].
    unfold VariationSelector, in_rangeA, in_rangeB. lia.
  - reflexivity.
Qed.

Lemma variationSelectorToByte_ranges_witness :
  in_rangeA 0xFE08 /\ variationSelectorToByte 0xFE08 = Ok 8.
Proof.
  assert (H : in_rangeA 0xFE08) by (unfold in_rangeA; lia).
  split; [exact H|].
  exact (proj1 variationSelectorToByte_ranges 0xFE08 H).
Defined.

(** C8.  A non-empty string none of whose runes is a variation selector
    decodes to the empty string: every rune becomes a newline and the
    trim removes them all. *)
Theorem DecodeText_plain_text_empty (s : smuggler) (target : list Z) :
  is_bytes target -> target <> [] ->
  Forall (fun r => ~ VariationSelector r) (runes target) ->
  decode target = repeat 0x0A (length (runes target)) /\
  DecodeText s target = Ok [].
Proof.
  intros Hb Hne Hplain.
  assert (Hdec : decode target = repeat 0x0A (length (runes target))).
  { rewrite decode_byte_or_newline by assumption.
    induction Hplain as [|r rs Hr Hrs IH]; [reflexivity|].
    cbn [map length repeat].
    rewrite IH, byte_or_newline_outside by assumption. reflexivity. }
  split; [exact Hdec|].
  rewrite DecodeText_nonempty, Hdec by assumption. f_equal.
  apply TrimSpace_all_spaces, Forall_repeat_newline.
Qed.

Lemma DecodeText_plain_text_empty_witness :
  let s := {| clearText := []; encodeMode := false |} in
  let target := [0x48; 0x69; 0x20; 0xC3; 0xA9; 0xFF] in
  is_bytes target /\ target <> [] /\
  Forall (fun r => ~ VariationSelector r) (runes target) /\
  DecodeText s target = Ok [].
Proof.
  intros s target.
  assert (H1 : is_bytes target)
    by (repeat constructor; unfold is_byte; lia).
  assert (H2 : target <> []) by discriminate.
  assert (H3 : Forall (fun r => ~ VariationSelector r) (runes target)).
  { change (runes target) with [0x48; 0x69; 0x20; 0xE9; 0xFFFD].
    repeat constructor;
      unfold VariationSelector, in_rangeA, in_rangeB; lia. }
  split; [exact H1|]. split; [exact H2|]. split; [exact H3|].
  exact (proj2 (DecodeText_plain_text_empty s target H1 H2 H3)).
Defined.

(** C9.  Refinement: on every rune the two search loops of the source
    return what the interval comparison of the specification returns,
    the same byte on success and a failure outside both ranges. *)
Theorem variationSelectorToByte_refines_interval (cp : Z) :
  is_rune cp ->
  variationSelectorToByte cp =
  match FromCodepoint_spec cp with
  | Some b => Ok b
  | None => Err "couldn't decode"
  end.
Proof. exact (variationSelectorToByte_interval cp). Qed.

Lemma variationSelectorToByte_refines_interval_witness :
  is_rune 0xE01EF /\
  variationSelectorToByte 0xE01EF = Ok 255 /\
  FromCodepoint_spec 0xE01EF = Some 255.
Proof.
  assert (H : is_rune 0xE01EF) by (unfold is_rune; lia).
  split; [exact H|]. split; [|reflexivity].
  exact (variationSelectorToByte_refines_interval 0xE01EF H).
Defined.

(** C10.  The inner round trip, with no trimming and no restriction on
    the payload: for every byte sequence [p] and every scalar value
    [base] outside both ranges, [decode (encode base p)] is a newline
    followed by the bytes of [p]; and [decode] writes exactly one byte
    per rune of its input, so one per scalar value of well-formed
    text. *)
Theorem decode_encode_inner_roundtrip :
  (forall (base : Z) (p : list Z),
      is_scalar base -> ~ VariationSelector base -> is_bytes p ->
      decode (encode base p) = 0x0A :: p) /\
  (forall s : list Z, length (decode s) = length (runes s)) /\
  (forall rs : list Z,
      Forall is_scalar rs -> length (decode (utf8_string rs)) = length rs).
Proof.
  split; [|split].
  - intros base p Hbase Hout Hp.
    rewrite <- (app_nil_r (encode base p)).
    rewrite decode_encode_app by assumption.
    rewrite decode_written, runes_nil. cbn [map]. rewrite app_nil_r.
    reflexivity.
  - intros s. rewrite decode_written. apply length_map.
  - intros rs Hrs. rewrite decode_written. rewrite length_map.
    rewrite <- (app_nil_r (utf8_string rs)).
    rewrite runes_utf8_string, runes_nil, app_nil_r by assumption.
    reflexivity.
Qed.

Lemma decode_encode_inner_roundtrip_witness :
  is_scalar 0x1F600 /\ ~ VariationSelector 0x1F600 /\
  is_bytes [0x20; 0x0A; 0x00; 0xFF] /\
  decode (encode 0x1F600 [0x20; 0x0A; 0x00; 0xFF])
  = [0x0A; 0x20; 0x0A; 0x00; 0xFF].
Proof.
  assert (H1 : is_scalar 0x1F600) by (unfold is_scalar; lia).
  assert (H2 : ~ VariationSelector 0x1F600)
    by (unfold VariationSelector, in_rangeA, in_rangeB; lia).
  assert (H3 : is_bytes [0x20; 0x0A; 0x00; 0xFF])
    by (repeat constructor; unfold is_byte; lia).
  split; [exact H1|]. split; [exact H2|]. split; [exact H3|].
  exact (proj1 decode_encode_inner_roundtrip 0x1F600 _ H1 H2 H3).
Defined.

End Properties.


(* ===================================================================== *)
(** * More on embedding and extracting *)
(* ===================================================================== *)

Section Embedding.

Lemma is_bytes_app (p q : list Z) : is_bytes (p ++ q) <-> is_bytes p /\ is_bytes q.
Proof. unfold is_bytes. apply Forall_app. Qed.

Lemma ascii_space_is_bytes (ws : list Z) : Forall is_ascii_space ws -> is_bytes ws.
Proof.
  unfold is_bytes. apply Forall_impl. unfold is_ascii_space, is_byte. lia.
Qed.

Lemma encode_nonempty (base : Z) (p : list Z) : encode base p <> [].
Proof.
  rewrite encode_utf8_string. unfold utf8_string. cbn [map concat].
  pose proof (EncodeRune_length_pos base) as H.
  destruct (EncodeRune base); [cbn in H; lia | discriminate].
Qed.

(** X1.  What [decode] reads in the result of [EncodeText], for every
    non-empty target and every non-empty payload of bytes: a newline for
    the first byte of the target, the payload, and then whatever [decode]
    reads in the rest of the target; [DecodeText] returns that, trimmed. *)
Theorem decode_EncodeText (s s' : smuggler) (b0 : Z) (tl : list Z) :
  is_byte b0 -> clearText s <> [] -> is_bytes (clearText s) ->
  exists embedded,
    EncodeText s (b0 :: tl) = Ok embedded /\
    decode embedded = 0x0A :: clearText s ++ decode tl /\
    DecodeText s' embedded
    = Ok (strings.TrimSpace (0x0A :: clearText s ++ decode tl)).
Proof.
  intros Hb0 Hne Hp.
  exists (encode (to_rune b0) (clearText s) ++ tl).
  split; [apply EncodeText_cons; assumption|].
  rewrite to_rune_byte by assumption.
  destruct (byte_not_selector b0 Hb0) as [Hscalar Hout].
  assert (Hdec : decode (encode b0 (clearText s) ++ tl)
                 = 0x0A :: clearText s ++ decode tl)
    by (apply decode_encode_app; assumption).
  split; [exact Hdec|].
  rewrite DecodeText_nonempty, Hdec; [reflexivity|].
  intros Hnil. apply app_eq_nil in Hnil. destruct Hnil as [Hnil _].
  exact (encode_nonempty _ _ Hnil).
Qed.

Lemma decode_EncodeText_witness :
  let s := {| clearText := [0x20; 0xFF; 0x00]; encodeMode := true |} in
  let s' := {| clearText := []; encodeMode := false |} in
  is_byte 0x78 /\ clearText s <> [] /\ is_bytes (clearText s) /\
  exists embedded,
    EncodeText s [0x78; 0x79; 0xEF; 0xB8; 0x81] = Ok embedded /\
    decode embedded = [0x0A; 0x20; 0xFF; 0x00; 0x0A; 0x01] /\
    DecodeText s' embedded = Ok [0xFF; 0x00; 0x0A; 0x01].
Proof.
  intros s s'.
  assert (H1 : is_byte 0x78) by (unfold is_byte; lia).
  assert (H2 : clearText s <> []) by discriminate.
  assert (H3 : is_bytes (clearText s))
    by (repeat constructor; unfold is_byte; lia).
  split; [exact H1|]. split; [exact H2|]. split; [exact H3|].
  exact (decode_EncodeText s s' 0x78 [0x79; 0xEF; 0xB8; 0x81] H1 H2 H3).
Defined.

(** X2.  White space at the two ends of the payload does not survive
    the round trip: for a payload made of ASCII white space, printable
    bytes and ASCII white space again, and a carrier of one character,
    [DecodeText] of the result of [EncodeText] returns the printable
    bytes only, and the empty string when there are none. *)
Theorem roundtrip_loses_outer_space (s s' : smuggler) (c : Z)
        (ws q ws' : list Z) :
  is_scalar c ->
  Forall is_ascii_space ws -> Forall printable q ->
  Forall is_ascii_space ws' ->
  clearText s = ws ++ q ++ ws' -> clearText s <> [] ->
  exists embedded,
    EncodeText s (EncodeRune c) = Ok embedded /\
    DecodeText s' embedded = Ok q.
Proof.
  intros Hc Hws Hq Hws' Hp Hne.
  destruct (EncodeRune_shape c Hc) as [b0 [tl [Henc [Hb0 Htl]]]].
  rewrite Henc.
  assert (Hbytes : is_bytes (clearText s)).
  { rewrite Hp. apply is_bytes_app. split; [apply ascii_space_is_bytes; assumption|].
    apply is_bytes_app. split; [apply printable_is_bytes; assumption|].
    apply ascii_space_is_bytes; assumption. }
  destruct (decode_EncodeText s s' b0 tl Hb0 Hne Hbytes)
    as [e [Henc' [_ Hdec]]].
  exists e. split; [exact Henc'|]. rewrite Hdec. f_equal.
  rewrite decode_continuation by assumption. rewrite Hp.
  change (0x0A :: (ws ++ q ++ ws') ++ repeat 0x0A (length tl))
    with ((0x0A :: nil) ++ (ws ++ q ++ ws') ++ repeat 0x0A (length tl)).
  replace ([0x0A] ++ (ws ++ q ++ ws') ++ repeat 0x0A (length tl))
    with (([0x0A] ++ ws) ++ q ++ (ws' ++ repeat 0x0A (length tl)))
    by (rewrite <- !app_assoc; reflexivity).
  assert (Hl : Forall is_ascii_space ([0x0A] ++ ws)).
  { apply Forall_app. split; [|assumption].
    constructor; [unfold is_ascii_space; lia | constructor]. }
  assert (Hr : Forall is_ascii_space (ws' ++ repeat 0x0A (length tl))).
  { apply Forall_app. split; [assumption | apply Forall_repeat_newline]. }
  destruct q as [|a q'].
  - apply TrimSpace_all_spaces. apply Forall_app. split; assumption.
  - apply TrimSpace_printable; try assumption. discriminate.
Qed.

Lemma roundtrip_loses_outer_space_witness :
  let s := {| clearText := [0x20; 0x09; 0x48; 0x69; 0x0A];
              encodeMode := true |} in
  let s' := {| clearText := []; encodeMode := false |} in
  is_scalar 0x1F600 /\
  exists embedded,
    EncodeText s (EncodeRune 0x1F600) = Ok embedded /\
    DecodeText s' embedded = Ok [0x48; 0x69].
Proof.
  intros s s'.
  assert (H1 : is_scalar 0x1F600) by (unfold is_scalar; lia).
  split; [exact H1|].
  apply (roundtrip_loses_outer_space s s' 0x1F600 [0x20; 0x09] [0x48; 0x69] [0x0A]).
  - exact H1.
  - repeat constructor; unfold is_ascii_space; lia.
  - repeat constructor; unfold printable, isgraph; lia.
  - repeat constructor; unfold is_ascii_space; lia.
  - reflexivity.
  - discriminate.
Defined.

(** X3.  Embedding twice stacks the payloads, the later one first: for a
    carrier of one ASCII character, embedding [p2] in the text that
    carries [p1] gives the text that carries [p2 ++ p1], and for
    printable payloads [DecodeText] returns [p2 ++ p1]. *)
Theorem EncodeText_twice (s1 s2 s12 s' : smuggler) (c : Z) :
  0 <= c <= 0x7F ->
  clearText s1 <> [] -> clearText s2 <> [] ->
  clearText s12 = clearText s2 ++ clearText s1 ->
  exists e1 e2,
    EncodeText s1 [c] = Ok e1 /\
    EncodeText s2 e1 = Ok e2 /\
    EncodeText s12 [c] = Ok e2 /\
    (Forall printable (clearText s1) -> Forall printable (clearText s2) ->
     DecodeText s' e2 = Ok (clearText s2 ++ clearText s1)).
Proof.
  intros Hc H1 H2 H12.
  assert (Hb : is_byte c) by (unfold is_byte; lia).
  assert (H12ne : clearText s12 <> []).
  { rewrite H12. intros Hnil. apply app_eq_nil in Hnil. tauto. }
  exists (encode c (clearText s1)), (encode c (clearText s12)).
  assert (He1 : EncodeText s1 [c] = Ok (encode c (clearText s1))).
  { rewrite EncodeText_cons, to_rune_byte, app_nil_r by assumption.
    reflexivity. }
  assert (He12 : EncodeText s12 [c] = Ok (encode c (clearText s12))).
  { rewrite EncodeText_cons, to_rune_byte, app_nil_r by assumption.
    reflexivity. }
  assert (Hshape : forall p,
             encode c p = c :: utf8_string (map byteToVariationSelector p)).
  { intros p. rewrite encode_utf8_string. unfold utf8_string.
    cbn [map concat]. rewrite EncodeRune_1 by lia. reflexivity. }
  split; [exact He1|]. split; [|split; [exact He12|]].
  - rewrite (Hshape (clearText s1)).
    rewrite EncodeText_cons, to_rune_byte by assumption.
    rewrite !Hshape, H12. unfold utf8_string.
    rewrite map_app, map_app, concat_app. reflexivity.
  - intros Hp1 Hp2.
    assert (Hp : Forall printable (clearText s12))
      by (rewrite H12; apply Forall_app; split; assumption).
    destruct (DecodeText_EncodeText_shape s12 s' c [] Hb (Forall_nil _)
                H12ne Hp) as [e [He Hd]].
    rewrite He12 in He. inversion He; subst e. rewrite Hd, H12. reflexivity.
Qed.

Lemma EncodeText_twice_witness :
  let s1 := {| clearText := [0x31]; encodeMode := true |} in
  let s2 := {| clearText := [0x32; 0x33]; encodeMode := true |} in
  let s12 := {| clearText := [0x32; 0x33; 0x31]; encodeMode := true |} in
  0 <= 0x78 <= 0x7F /\
  exists e1 e2,
    EncodeText s1 [0x78] = Ok e1 /\
    EncodeText s2 e1 = Ok e2 /\
    EncodeText s12 [0x78] = Ok e2 /\
    (Forall printable (clearText s1) -> Forall printable (clearText s2) ->
     DecodeText s1 e2 = Ok [0x32; 0x33; 0x31]).
Proof.
  intros s1 s2 s12. split; [lia|].
  apply (EncodeText_twice s1 s2 s12 s1 0x78);
    [lia | discriminate | discriminate | reflexivity].
Defined.

Lemma EncodeRune_selector_length (b : Z) :
  is_byte b -> length (EncodeRune (byteToVariationSelector b)) = selector_width b.
Proof.
  intros Hb. rewrite byteToVariationSelector_arith by assumption.
  unfold is_byte, ToCodepoint_spec, selector_width in *.
  destruct (Z.ltb_spec b 16).
  - rewrite EncodeRune_3 by lia. reflexivity.
  - rewrite EncodeRune_4 by lia. reflexivity.
Qed.

Lemma utf8_selectors_length (p : list Z) :
  is_bytes p ->
  length (utf8_string (map byteToVariationSelector p)) = payload_width p.
Proof.
  unfold utf8_string.
  induction 1 as [|b p Hb Hp IH]; [reflexivity|].
  cbn [map concat payload_width fold_right]. rewrite length_app.
  rewrite EncodeRune_selector_length by assumption.
  fold (payload_width p). rewrite IH. reflexivity.
Qed.

(** X4.  The size of the encoded text: the first byte of the target
    takes one byte when it is ASCII and two when it is not, each payload
    byte takes three bytes when it is below 16 and four otherwise, and
    the rest of the target is there as it was. *)
Theorem EncodeText_length (s : smuggler) (b0 : Z) (tl : list Z) :
  is_byte b0 -> clearText s <> [] -> is_bytes (clearText s) ->
  exists embedded,
    EncodeText s (b0 :: tl) = Ok embedded /\
    length embedded
    = ((if (b0 <? 0x80)%Z then 1 else 2)
       + payload_width (clearText s) + length tl)%nat /\
    (3 * length (clearText s) <= payload_width (clearText s)
     <= 4 * length (clearText s))%nat.
Proof.
  intros Hb0 Hne Hp. eexists. split; [apply EncodeText_cons; assumption|].
  rewrite to_rune_byte by assumption. rewrite encode_utf8_string.
  split.
  - unfold utf8_string at 1. cbn [map concat].
    fold (utf8_string (map byteToVariationSelector (clearText s))).
    rewrite !length_app, utf8_selectors_length by assumption.
    unfold is_byte in Hb0. destruct (Z.ltb_spec b0 0x80).
    + rewrite EncodeRune_1 by lia. cbn [length]. lia.
    + rewrite EncodeRune_2 by lia. cbn [length]. lia.
  - clear Hne Hp. induction (clearText s) as [|b p IH]; [cbn; lia|].
    cbn [payload_width fold_right length]. fold (payload_width p).
    unfold selector_width. destruct (b <? 16); lia.
Qed.

Lemma EncodeText_length_witness :
  let s := {| clearText := [0x0A; 0x48; 0x69]; encodeMode := true |} in
  is_byte 0xF0 /\ clearText s <> [] /\ is_bytes (clearText s) /\
  exists embedded,
    EncodeText s [0xF0; 0x9F; 0x98; 0x80] = Ok embedded /\
    length embedded = 16%nat.
Proof.
  intros s.
  assert (H1 : is_byte 0xF0) by (unfold is_byte; lia).
  assert (H2 : clearText s <> []) by discriminate.
  assert (H3 : is_bytes (clearText s))
    by (repeat constructor; unfold is_byte; lia).
  split; [exact H1|]. split; [exact H2|]. split; [exact H3|].
  destruct (EncodeText_length s 0xF0 [0x9F; 0x98; 0x80] H1 H2 H3)
    as [e [He [Hlen _]]].
  exists e. split; [exact He | exact Hlen].
Defined.

End Embedding.

(* ===================================================================== *)
(** * What TrimSpace does to any string *)
(* ===================================================================== *)

Section TrimmingAnything.

Lemma not_IsSpace_not_ascii_space (c : Z) :
  unicode.IsSpace c = false -> ~ is_ascii_space c.
Proof.
  intros H Hc. rewrite (IsSpace_ascii_space c Hc) in H. discriminate.
Qed.

Lemma asciiSpace_zero (c : Z) :
  (strings.asciiSpace c =? 0) = true -> ~ is_ascii_space c.
Proof.
  unfold strings.asciiSpace, is_ascii_space. intros H Hc.
  destruct Hc as [-> | [-> | [-> | [-> | [-> | ->]]]]]; discriminate.
Qed.

(** The first byte of a string whose first rune is no white space is no
    ASCII white space. *)
Lemma first_byte_not_space (u : list Z) :
  unicode.IsSpace (fst (DecodeRuneInString u)) = false ->
  ~ is_ascii_space (at_ u 0).
Proof.
  intros Hsp Hc. destruct u as [|b u'].
  - unfold at_, is_ascii_space in Hc. cbn in Hc. lia.
  - unfold at_ in Hc. cbn [nth] in Hc.
    rewrite DecodeRune_ascii in Hsp by (unfold is_ascii_space in Hc; lia).
    cbn [fst] in Hsp. exact (not_IsSpace_not_ascii_space b Hsp Hc).
Qed.

(** The width of a step is within the string. *)
Lemma DecodeRune_size_le (q : list Z) :
  (snd (DecodeRuneInString q) <= length q)%nat.
Proof.
  pose proof (DecodeRune_decodes q) as Hd.
  destruct (DecodeRuneInString q) as [r size]. cbn [fst snd] in *.
  inversion Hd; subst; try lia;
    destruct q; cbn [length]; try lia; congruence.
Qed.

(** The last byte of a step of width two or more is a continuation
    byte. *)
Lemma DecodeRune_last_byte (q : list Z) :
  (2 <= snd (DecodeRuneInString q))%nat ->
  0x80 <= at_ q (snd (DecodeRuneInString q) - 1).
Proof.
  intros Hsize. pose proof (DecodeRune_decodes q) as Hd.
  destruct (DecodeRuneInString q) as [r size]. cbn [fst snd] in *.
  inversion Hd; subst; cbn [Nat.sub]; lia.
Qed.

(** Where the forward search stops. *)
Lemma indexFunc_loop_spec (f : Z -> bool) (n : nat) :
  forall s i0, length s = n ->
    strings.indexFunc_loop f false (range_from i0 s) = -1 \/
    exists k, (k < length s)%nat /\
              strings.indexFunc_loop f false (range_from i0 s)
              = Z.of_nat (i0 + k) /\
              f (fst (DecodeRuneInString (skipn k s))) = false.
Proof.
  induction n as [n IH] using lt_wf_ind. intros s i0 Hn.
  destruct s as [|c s']; [left; reflexivity|].
  rewrite range_from_cons. cbn [strings.indexFunc_loop].
  pose proof (DecodeRune_size_pos c s') as Hpos.
  pose proof (DecodeRune_size_le (c :: s')) as Hle.
  set (size := snd (DecodeRuneInString (c :: s'))) in *.
  destruct (f (fst (DecodeRuneInString (c :: s')))) eqn:Hf; cbn [Bool.eqb].
  - destruct (IH (length (skipn size (c :: s')))
                 ltac:(rewrite length_skipn; subst n; cbn [length] in *; lia)
                 (skipn size (c :: s')) (i0 + size)%nat eq_refl)
      as [Hnone|[k [Hk [Hidx Hfk]]]].
    + left. exact Hnone.
    + right. exists (k + size)%nat. rewrite length_skipn in Hk.
      split; [lia|]. split.
      * rewrite Hidx. f_equal. lia.
      * rewrite <- skipn_skipn. exact Hfk.
  - right. exists 0%nat. split; [cbn [length]; lia|].
    split; [f_equal; lia | exact Hf].
Qed.

Lemma TrimLeftFunc_spec (s : list Z) :
  strings.TrimLeftFunc s unicode.IsSpace = [] \/
  exists i, (i < length s)%nat /\
            strings.TrimLeftFunc s unicode.IsSpace = skipn i s /\
            unicode.IsSpace (fst (DecodeRuneInString (skipn i s))) = false.
Proof.
  unfold strings.TrimLeftFunc, strings.indexFunc, range_string,
    strings.slice_from.
  destruct (indexFunc_loop_spec unicode.IsSpace (length s) s 0 eq_refl)
    as [Hnone|[k [Hk [Hidx Hfk]]]].
  - left. rewrite Hnone. reflexivity.
  - right. exists k. split; [exact Hk|]. rewrite Hidx. cbn [Nat.add].
    destruct (Z.eqb_spec (Z.of_nat k) (-1)); [lia|].
    rewrite Nat2Z.id. split; [reflexivity | exact Hfk].
Qed.

Lemma DecodeLastRune_size (pre : list Z) :
  pre <> [] ->
  (1 <= snd (DecodeLastRuneInString pre) <= length pre)%nat.
Proof.
  intros Hne. pose proof (DecodeLastRune_cases pre Hne) as H. cbv zeta in H.
  assert (1 <= length pre)%nat by (destruct pre; [congruence | cbn; lia]).
  destruct H as [[_ [_ ->]]|[[_ [_ ->]]|[_ [start [H1 [H2 _]]]]]]; lia.
Qed.

(** Where the backward search stops. *)
Lemma lastIndexFunc_loop_spec (f : Z -> bool) (n : nat) :
  forall pre, length pre = n ->
    strings.lastIndexFunc_loop f false pre = -1 \/
    exists m, (1 <= m <= length pre)%nat /\
              f (fst (DecodeLastRuneInString (firstn m pre))) = false /\
              strings.lastIndexFunc_loop f false pre
              = Z.of_nat (m - snd (DecodeLastRuneInString (firstn m pre))).
Proof.
  induction n as [n IH] using lt_wf_ind. intros pre Hn.
  destruct pre as [|c pre'] eqn:Epre; [left; reflexivity|].
  rewrite <- Epre in *.
  assert (Hne : pre <> []) by (rewrite Epre; discriminate).
  rewrite lastIndexFunc_loop_step by assumption.
  pose proof (DecodeLastRune_size pre Hne) as Hsize.
  destruct (f (fst (DecodeLastRuneInString pre))) eqn:Hf; cbn [Bool.eqb].
  - set (i := (length pre - snd (DecodeLastRuneInString pre))%nat) in *.
    assert (Hi : (i < length pre)%nat) by (unfold i; lia).
    destruct (IH (length (firstn i pre))
                 ltac:(rewrite length_firstn; lia) (firstn i pre) eq_refl)
      as [Hnone|[m [Hm [Hfm Hidx]]]].
    + left. exact Hnone.
    + right. rewrite length_firstn in Hm. exists m.
      rewrite firstn_firstn in Hfm, Hidx.
      replace (Nat.min m i) with m in Hfm, Hidx by lia.
      split; [lia|]. split; [exact Hfm | exact Hidx].
  - right. exists (length pre). rewrite firstn_all.
    split; [lia|]. split; [exact Hf | reflexivity].
Qed.

(** Trimming on the right keeps a prefix whose last byte is no ASCII
    white space. *)
Lemma TrimRightFunc_spec (s : list Z) :
  exists k, (k <= length s)%nat /\
            strings.TrimRightFunc s unicode.IsSpace = firstn k s /\
            ((1 <= k)%nat -> ~ is_ascii_space (at_ s (k - 1))).
Proof.
  unfold strings.TrimRightFunc, strings.lastIndexFunc, strings.slice,
    strings.slice_from.
  destruct (lastIndexFunc_loop_spec unicode.IsSpace (length s) s eq_refl)
    as [Hnone|[m [Hm [Hfm Hidx]]]].
  - exists 0%nat. rewrite Hnone. cbn. split; [lia|]. split; [reflexivity|].
    intros H. lia.
  - rewrite Hidx. cbv zeta. cbn [skipn].
    set (pre := firstn m s) in *.
    assert (Hlen : length pre = m) by (unfold pre; rewrite length_firstn; lia).
    assert (Hne : pre <> []) by (intros E; rewrite E in Hlen; cbn in Hlen; lia).
    pose proof (DecodeLastRune_size pre Hne) as Hsize.
    pose proof (DecodeLastRune_cases pre Hne) as Hcases. cbv zeta in Hcases.
    destruct (DecodeLastRuneInString pre) as [r size]. cbn [fst snd] in *.
    set (j := (m - size)%nat).
    assert (Hj : (j < m)%nat) by (unfold j; lia).
    assert (Hat : forall x, (x < m)%nat -> at_ pre x = at_ s x).
    { intros x Hx. unfold at_, pre. rewrite nth_firstn.
      destruct (Nat.ltb_spec x m); [reflexivity | lia]. }
    replace (Z.of_nat j >=? 0) with true
      by (symmetry; rewrite Z.geb_leb; apply Z.leb_le; lia).
    rewrite Nat2Z.id. cbn [andb]. rewrite Z.geb_leb.
    destruct (Z.leb_spec RuneSelf (at_ s j)) as [Hge|Hlt].
    + (* a rune above ASCII ends the run *)
      set (q := skipn j s).
      pose proof (DecodeRune_size_le q) as Hwle.
      pose proof (DecodeRune_last_byte q) as Hlast.
      assert (Hq : length q = (length s - j)%nat)
        by (unfold q; apply length_skipn).
      assert (Hwpos : (1 <= snd (DecodeRuneInString q))%nat).
      { destruct q as [|b q'] eqn:Eq; [cbn [length] in Hq; lia|].
        apply DecodeRune_size_pos. }
      set (wid := snd (DecodeRuneInString q)) in *.
      exists (j + wid)%nat.
      replace (Z.to_nat (Z.of_nat j + Z.of_nat wid) - 0)%nat
        with (j + wid)%nat by lia.
      split; [lia|]. split; [reflexivity|]. intros _.
      replace (j + wid - 1)%nat with (j + (wid - 1))%nat by lia.
      assert (Hnth : at_ s (j + (wid - 1)) = at_ q (wid - 1))
        by (unfold at_, q; rewrite nth_skipn; reflexivity).
      rewrite Hnth.
      destruct (Nat.eq_dec wid 1) as [E1|N1].
      * rewrite E1. cbn [Nat.sub]. unfold at_, q. rewrite nth_skipn.
        rewrite Nat.add_0_r. fold (at_ s j).
        unfold is_ascii_space, RuneSelf in *. lia.
      * specialize (Hlast ltac:(lia)). unfold is_ascii_space. lia.
    + (* an ASCII byte ends the run *)
      exists (j + 1)%nat.
      replace (Z.to_nat (Z.of_nat j + 1) - 0)%nat with (j + 1)%nat by lia.
      split; [lia|]. split; [reflexivity|]. intros _.
      replace (j + 1 - 1)%nat with j by lia.
      destruct Hcases as [[Hz [Hr Hs1]]|[[Hz [Hr Hs1]]|[Hz [start [H1 [H2 Hdec]]]]]].
      * subst size. unfold j. rewrite <- Hat by lia. rewrite Hlen in Hr.
        rewrite <- Hr. apply not_IsSpace_not_ascii_space. exact Hfm.
      * subst size. exfalso. rewrite Hlen, Hat in Hz by lia.
        unfold j in Hlt. lia.
      * exfalso. assert (Hjs : j = start) by (unfold j; lia).
        assert (Hb : at_ pre start = at_ (skipn start pre) 0)
          by (unfold at_; rewrite nth_skipn, Nat.add_0_r; reflexivity).
        destruct (skipn start pre) as [|b q'] eqn:Eq.
        { apply (f_equal (@length Z)) in Eq. rewrite length_skipn in Eq.
          cbn [length] in Eq. lia. }
        unfold at_ at 2 in Hb. cbn [nth] in Hb.
        rewrite <- Hjs, Hat in Hb by lia.
        rewrite DecodeRune_ascii in Hdec by (unfold RuneSelf in Hlt; lia).
        inversion Hdec; subst r size.
        rewrite Hlen, Hat in Hz by lia.
        replace (m - 1)%nat with j in Hz by lia. lia.
Qed.

Lemma TrimSpace_stop_spec (rs : list Z) :
  exists k, (k <= length rs)%nat /\
            strings.TrimSpace_stop rs = firstn k (rev rs) /\
            ((1 <= k)%nat -> ~ is_ascii_space (at_ (rev rs) (k - 1))).
Proof.
  induction rs as [|c rs' IH].
  - exists 0%nat. split; [cbn; lia|]. split; [reflexivity | intros H; lia].
  - cbn [strings.TrimSpace_stop].
    destruct (c >=? RuneSelf).
    + destruct (TrimRightFunc_spec (rev (c :: rs'))) as [k [Hk [Heq Hend]]].
      exists k. rewrite length_rev in Hk. split; [exact Hk|].
      split; [exact Heq | exact Hend].
    + destruct (strings.asciiSpace c =? 0) eqn:Hsp.
      * exists (length (c :: rs')). split; [lia|]. split.
        -- rewrite firstn_all2; [reflexivity | rewrite length_rev; lia].
        -- intros _. cbn [rev length]. unfold at_.
           replace (S (length rs') - 1)%nat with (length (rev rs'))
             by (rewrite length_rev; lia).
           rewrite nth_middle. apply asciiSpace_zero. exact Hsp.
      * destruct IH as [k [Hk [Heq Hend]]]. exists k.
        split; [cbn [length]; lia|]. cbn [rev]. split.
        -- rewrite firstn_app, Heq.
           replace (k - length (rev rs'))%nat with 0%nat
             by (rewrite length_rev; lia).
           cbn [firstn]. rewrite app_nil_r. reflexivity.
        -- intros Hk1. specialize (Hend Hk1).
           unfold at_ in *. rewrite app_nth1; [exact Hend|].
           rewrite length_rev. lia.
Qed.

Lemma trimmed_firstn (u : list Z) (k : nat) :
  (k <= length u)%nat ->
  ~ is_ascii_space (at_ u 0) ->
  ((1 <= k)%nat -> ~ is_ascii_space (at_ u (k - 1))) ->
  trimmed (firstn k u).
Proof.
  intros Hk Hfirst Hlast. unfold trimmed.
  destruct k as [|k']; [left; reflexivity | right].
  assert (Hat : forall x, (x < S k')%nat -> at_ (firstn (S k') u) x = at_ u x).
  { intros x Hx. unfold at_. rewrite nth_firstn.
    destruct (Nat.ltb_spec x (S k')); [reflexivity | lia]. }
  rewrite length_firstn.
  replace (Nat.min (S k') (length u)) with (S k') by lia.
  rewrite !Hat by lia. split; [exact Hfirst | apply Hlast; lia].
Qed.

(** [TrimSpace] returns a part of its argument with no ASCII white space
    byte at either end. *)
Lemma TrimSpace_spec (s : list Z) :
  exists i k, (i + k <= length s)%nat /\
              strings.TrimSpace s = firstn k (skipn i s) /\
              trimmed (strings.TrimSpace s).
Proof.
  induction s as [|c s' IH].
  - exists 0%nat, 0%nat. split; [cbn; lia|]. split; [reflexivity|].
    left. reflexivity.
  - cbn [strings.TrimSpace].
    destruct (c >=? RuneSelf) eqn:Hself.
    + (* trimming by function *)
      unfold strings.TrimFunc.
      destruct (TrimLeftFunc_spec (c :: s')) as [Hnil|[i [Hi [Heq Hsp]]]].
      * rewrite Hnil. exists 0%nat, 0%nat. split; [cbn; lia|].
        split; [reflexivity | left; reflexivity].
      * rewrite Heq. set (u := skipn i (c :: s')) in *.
        destruct (TrimRightFunc_spec u) as [k [Hk [Hr Hend]]].
        assert (Hu : length u = (length (c :: s') - i)%nat)
          by (unfold u; apply length_skipn).
        exists i, k. split; [lia|]. split; [exact Hr|].
        rewrite Hr. apply trimmed_firstn; try assumption.
        apply first_byte_not_space. exact Hsp.
    + destruct (strings.asciiSpace c =? 0) eqn:Hsp.
      * (* the first loop stops on [c] *)
        destruct (TrimSpace_stop_spec (rev (c :: s'))) as [k [Hk [Heq Hend]]].
        rewrite rev_involutive in Heq, Hend. rewrite length_rev in Hk.
        exists 0%nat, k. split; [lia|]. split; [exact Heq|].
        rewrite Heq. apply trimmed_firstn; try assumption.
        unfold at_. cbn [nth]. apply asciiSpace_zero. exact Hsp.
      * (* [c] is white space *)
        destruct IH as [i [k [Hik [Heq Htr]]]].
        exists (S i), k. split; [cbn [length]; lia|].
        split; [exact Heq | exact Htr].
Qed.

Lemma runes_length_le (n : nat) :
  forall s, length s = n -> (length (runes s) <= length s)%nat.
Proof.
  induction n as [n IH] using lt_wf_ind. intros s Hn.
  destruct s as [|c s']; [rewrite runes_nil; cbn; lia|].
  rewrite runes_cons. cbn [length].
  pose proof (DecodeRune_size_pos c s') as Hpos.
  set (size := snd (DecodeRuneInString (c :: s'))) in *.
  assert (Hlt : (length (skipn size (c :: s')) < n)%nat)
    by (rewrite length_skipn; subst n; cbn [length]; lia).
  specialize (IH _ Hlt _ eq_refl).
  rewrite length_skipn in IH. cbn [length] in IH. lia.
Qed.

(** X5.  What [DecodeText] returns has no ASCII white space byte at
    either end, whatever the input, and is a part of what [decode] read:
    some bytes dropped at the start, some at the end, none inside. *)
Theorem DecodeText_trimmed (s : smuggler) (target t : list Z) :
  DecodeText s target = Ok t ->
  trimmed t /\
  exists i k, (i + k <= length (decode target))%nat /\
              t = firstn k (skipn i (decode target)).
Proof.
  intros H. unfold DecodeText in H.
  destruct (length target =? 0)%nat; [discriminate|].
  inversion H; subst t.
  destruct (TrimSpace_spec (decode target)) as [i [k [Hik [Heq Htr]]]].
  split; [exact Htr|]. exists i, k. split; [exact Hik | exact Heq].
Qed.

Lemma DecodeText_trimmed_witness :
  let s := {| clearText := []; encodeMode := false |} in
  let target := [0x78; 0xEF; 0xB8; 0x89; 0xF3; 0xA0; 0x84; 0xB1;
                 0xEF; 0xB8; 0x8A; 0x79] in
  DecodeText s target = Ok [0x41] /\
  decode target = [0x0A; 0x09; 0x41; 0x0A; 0x0A] /\
  trimmed [0x41].
Proof.
  intros s target.
  split; [reflexivity|]. split; [reflexivity|].
  exact (proj1 (DecodeText_trimmed s target [0x41] eq_refl)).
Defined.

(** X6.  [DecodeText] never returns more bytes than its input has
    runes, so never more than it has bytes. *)
Theorem DecodeText_length (s : smuggler) (target t : list Z) :
  DecodeText s target = Ok t ->
  (length t <= length (runes target) <= length target)%nat.
Proof.
  intros H.
  destruct (DecodeText_trimmed s target t H) as [_ [i [k [Hik Heq]]]].
  pose proof (runes_length_le (length target) target eq_refl) as Hr.
  rewrite decode_written, length_map in Hik.
  split; [|exact Hr].
  rewrite Heq, length_firstn. lia.
Qed.

Lemma DecodeText_length_witness :
  let s := {| clearText := []; encodeMode := false |} in
  let target := [0x78; 0xEF; 0xB8; 0x88; 0xF3; 0xA0; 0x84; 0xB1] in
  DecodeText s target = Ok [0x08; 0x41] /\
  (length [0x08; 0x41] <= length (runes target) <= length target)%nat.
Proof.
  intros s target. split; [reflexivity|].
  exact (DecodeText_length s target [0x08; 0x41] eq_refl).
Defined.

End TrimmingAnything.

(* ===================================================================== *)
(** * TrimSpace, character by character *)
(* ===================================================================== *)

Section TrimmingCharacters.

Lemma white_space_IsSpace (r : Z) :
  white_space r <-> unicode.IsSpace r = true.
Proof.
  split.
  - intros H. unfold unicode.IsSpace, unicode.MaxLatin1.
    assert (Hr : 0 <= r < 4294967296) by (unfold white_space in H; lia).
    rewrite to_uint32_small by exact Hr.
    destruct (Z.leb_spec r 0xFF) as [Hl|Hl].
    + unfold white_space in H.
      rewrite !orb_true_iff, !Z.eqb_eq. lia.
    + unfold unicode.isExcludingLatin, unicode.White_Space_excluding_latin.
      cbn [existsb fst snd].
      rewrite !orb_true_iff, !andb_true_iff, !Z.leb_le.
      unfold white_space in H. lia.
  - intros H. apply IsSpace_cases in H. unfold is_ascii_space in H.
    unfold white_space. lia.
Qed.

Lemma white_space_scalar (r : Z) : white_space r -> is_scalar r.
Proof. unfold white_space, is_scalar. lia. Qed.

(** The bytes a white space character was decoded from are its
    encoding. *)
Lemma space_decoded_bytes (q : list Z) (r : Z) (n : nat) :
  decodes q r n -> white_space r ->
  q = EncodeRune r ++ skipn n q.
Proof.
  intros Hd Hw. unfold white_space in Hw.
  inversion Hd as [Hq|Hq H0|Hq H0|Hlen H0 H1|Hlen H0 H1 H2 Ha Hb
                   |Hlen H0 H1 H2 H3 Ha Hb]; subst.
  - unfold RuneError in Hw. lia.
  - destruct q as [|b0 q']; [congruence|]. unfold at_ in *. cbn [nth] in *.
    rewrite EncodeRune_1 by lia. reflexivity.
  - unfold RuneError in Hw. lia.
  - destruct q as [|b0 [|b1 q']]; cbn [length] in Hlen; try lia.
    unfold at_ in *. cbn [nth] in *.
    rewrite EncodeRune_2 by (Z.div_mod_to_equations; lia).
    cbn [app skipn]. f_equal; [|f_equal]; Z.div_mod_to_equations; lia.
  - destruct q as [|b0 [|b1 [|b2 q']]]; cbn [length] in Hlen; try lia.
    unfold at_ in *. cbn [nth] in *.
    rewrite EncodeRune_3 by (Z.div_mod_to_equations; lia).
    cbn [app skipn]. f_equal; [|f_equal; [|f_equal]];
      Z.div_mod_to_equations; lia.
  - exfalso. unfold at_ in *.
    destruct q as [|b0 [|b1 [|b2 [|b3 q']]]]; cbn [length] in Hlen; try lia.
    cbn [nth] in *. Z.div_mod_to_equations. lia.
Qed.

(** [RuneStart] on a byte: the continuation bytes are 0x80..0xBF. *)
Lemma RuneStart_byte (b : Z) :
  is_byte b -> RuneStart b = negb ((0x80 <=? b) && (b <=? 0xBF)).
Proof.
  intros Hb.
  assert (Hall : forallb (fun n => Bool.eqb (RuneStart (Z.of_nat n))
                                     (negb ((0x80 <=? Z.of_nat n)
                                            && (Z.of_nat n <=? 0xBF))))
                         (seq 0 256) = true) by (vm_compute; reflexivity).
  rewrite forallb_forall in Hall.
  specialize (Hall (Z.to_nat b)). unfold is_byte in Hb.
  rewrite Z2Nat.id in Hall by lia.
  apply eqb_prop. apply Hall. apply in_seq. lia.
Qed.

(** The encoding of a scalar value above ASCII: a start byte and one to
    three continuation bytes. *)
Lemma EncodeRune_multi (r : Z) :
  is_scalar r -> 0x80 <= r ->
  exists b0 tl, EncodeRune r = b0 :: tl /\ 0xC2 <= b0 <= 0xF4 /\
                Forall (fun b => 0x80 <= b <= 0xBF) tl /\
                (1 <= length tl <= 3)%nat.
Proof.
  intros Hr Hhigh.
  destruct (is_scalar_cases r Hr) as [H|[H|[[H Hs]|H]]]; [lia| | |].
  - rewrite EncodeRune_2 by assumption. eexists _, _. split; [reflexivity|].
    split; [Z.div_mod_to_equations; lia|].
    split; [repeat constructor; Z.div_mod_to_equations; lia | cbn; lia].
  - rewrite EncodeRune_3 by assumption. eexists _, _. split; [reflexivity|].
    split; [Z.div_mod_to_equations; lia|].
    split; [repeat constructor; Z.div_mod_to_equations; lia | cbn; lia].
  - rewrite EncodeRune_4 by assumption. eexists _, _. split; [reflexivity|].
    split; [Z.div_mod_to_equations; lia|].
    split; [repeat constructor; Z.div_mod_to_equations; lia | cbn; lia].
Qed.

(** The first byte of an encoding is no continuation byte. *)
Lemma EncodeRune_first (r : Z) :
  is_scalar r ->
  exists b0 tl, EncodeRune r = b0 :: tl /\ (b0 < 0x80 \/ 0xC0 <= b0).
Proof.
  intros Hr. destruct (Z_lt_le_dec r 0x80) as [Hlow|Hhigh].
  - rewrite EncodeRune_1 by (unfold is_scalar in Hr; lia).
    exists r, []. split; [reflexivity | lia].
  - destruct (EncodeRune_multi r Hr Hhigh) as [b0 [tl [He [Hb0 _]]]].
    exists b0, tl. split; [exact He | lia].
Qed.

(** The backward scan stops at the first start byte it meets. *)
Lemma scanBack_finds (s : list Z) (m : nat) :
  forall k start,
    (m < k)%nat ->
    (forall i, (i < m)%nat ->
               RuneStart (at_ s (Z.to_nat (start - Z.of_nat i))) = false) ->
    RuneStart (at_ s (Z.to_nat (start - Z.of_nat m))) = true ->
    scanBack s k start = start - Z.of_nat m.
Proof.
  induction m as [|m IH]; intros k start Hk Hcont Hstart.
  - destruct k as [|k]; [lia|]. cbn [scanBack].
    replace (start - Z.of_nat 0) with start in Hstart by lia.
    rewrite Hstart. lia.
  - destruct k as [|k]; [lia|]. cbn [scanBack].
    pose proof (Hcont 0%nat ltac:(lia)) as H0.
    replace (start - Z.of_nat 0) with start in H0 by lia.
    rewrite H0. rewrite (IH k (start - 1)).
    + lia.
    + lia.
    + intros i Hi. specialize (Hcont (S i) ltac:(lia)).
      replace (start - 1 - Z.of_nat i) with (start - Z.of_nat (S i)) by lia.
      exact Hcont.
    + replace (start - 1 - Z.of_nat m) with (start - Z.of_nat (S m)) by lia.
      exact Hstart.
Qed.

(** Decoding backwards reads a whole encoding at the end of a string. *)
Lemma DecodeLastRune_EncodeRune (front : list Z) (r : Z) :
  is_scalar r ->
  DecodeLastRuneInString (front ++ EncodeRune r)
  = (r, length (EncodeRune r)).
Proof.
  intros Hr. destruct (Z_lt_le_dec r 0x80) as [Hlow|Hhigh].
  - rewrite EncodeRune_1 by (unfold is_scalar in Hr; lia).
    apply DecodeLastRune_ascii. exact Hlow.
  - pose proof (DecodeRune_EncodeRune r [] Hr) as Hdec.
    rewrite app_nil_r in Hdec.
    destruct (EncodeRune_multi r Hr Hhigh) as [b0 [tl [He [Hb0 [Htl Hlen]]]]].
    rewrite He in *. clear He.
    set (s := front ++ b0 :: tl).
    assert (Hs : length s = (length front + S (length tl))%nat)
      by (unfold s; rewrite length_app; reflexivity).
    assert (Hat : forall j, (j < length tl)%nat ->
                            0x80 <= at_ s (length front + S j) <= 0xBF).
    { intros j Hj. unfold at_, s. rewrite app_nth2 by lia.
      replace (length front + S j - length front)%nat with (S j) by lia.
      cbn [nth]. apply (nth_Forall (fun b => 0x80 <= b <= 0xBF)); assumption. }
    assert (Hat0 : at_ s (length front) = b0).
    { unfold at_, s. rewrite app_nth2 by lia.
      rewrite Nat.sub_diag. reflexivity. }
    unfold DecodeLastRuneInString. fold s. rewrite Hs.
    set (L := length front) in *. set (n := length tl) in *.
    destruct (Z.eqb_spec (Z.of_nat (L + S n)) 0) as [E|_]; [lia|].
    replace (Z.to_nat (Z.of_nat (L + S n) - 1)) with (L + S (n - 1))%nat
      by lia.
    pose proof (Hat (n - 1)%nat ltac:(lia)) as Hlast.
    destruct (Z.ltb_spec (at_ s (L + S (n - 1))) RuneSelf) as [Hc|_];
      [unfold RuneSelf in Hc; lia|].
    rewrite (scanBack_finds s (n - 1)).
    + replace (Z.max 0 (Z.of_nat (L + S n) - 1 - 1 - Z.of_nat (n - 1)))
        with (Z.of_nat L) by lia.
      rewrite Nat2Z.id. unfold s, L. rewrite skipn_app, skipn_all, Nat.sub_diag.
      cbn [skipn app]. rewrite Hdec.
      cbn [length]. fold n.
      destruct (Z.eqb_spec (Z.of_nat (length front) + Z.of_nat (S n))
                           (Z.of_nat (length front + S n))) as [_|N];
        [reflexivity | lia].
    + unfold UTFMax. lia.
    + intros i Hi.
      replace (Z.to_nat (Z.of_nat (L + S n) - 1 - 1 - Z.of_nat i))
        with (L + S (n - 1 - S i))%nat by lia.
      pose proof (Hat (n - 1 - S i)%nat ltac:(lia)) as Hc.
      rewrite RuneStart_byte by (unfold is_byte; lia).
      destruct (Z.leb_spec 0x80 (at_ s (L + S (n - 1 - S i))));
        destruct (Z.leb_spec (at_ s (L + S (n - 1 - S i))) 0xBF);
        try lia; reflexivity.
    + replace (Z.to_nat (Z.of_nat (L + S n) - 1 - 1 - Z.of_nat (n - 1)))
        with L by lia.
      rewrite Hat0, RuneStart_byte by (unfold is_byte; lia).
      destruct (Z.leb_spec 0x80 b0); destruct (Z.leb_spec b0 0xBF);
        try lia; reflexivity.
Qed.

Lemma utf8_string_cons (r : Z) (rs : list Z) :
  utf8_string (r :: rs) = EncodeRune r ++ utf8_string rs.
Proof. reflexivity. Qed.

Lemma utf8_string_snoc (rs : list Z) (r : Z) :
  utf8_string (rs ++ [r]) = utf8_string rs ++ EncodeRune r.
Proof.
  unfold utf8_string. rewrite map_app, concat_app. cbn [map concat].
  rewrite app_nil_r. reflexivity.
Qed.

(** A white space character that was decoded: the string is its encoding
    and what follows, and the width is the length of the encoding. *)
Lemma space_step (q : list Z) :
  unicode.IsSpace (fst (DecodeRuneInString q)) = true ->
  white_space (fst (DecodeRuneInString q)) /\
  q = EncodeRune (fst (DecodeRuneInString q))
        ++ skipn (snd (DecodeRuneInString q)) q /\
  snd (DecodeRuneInString q) = length (EncodeRune (fst (DecodeRuneInString q))).
Proof.
  intros Hsp. apply white_space_IsSpace in Hsp.
  pose proof (space_decoded_bytes q _ _ (DecodeRune_decodes q) Hsp) as Hq.
  pose proof (DecodeRune_size_le q) as Hle.
  split; [exact Hsp|]. split; [exact Hq|].
  apply (f_equal (@length Z)) in Hq.
  rewrite length_app, length_skipn in Hq. lia.
Qed.

(** Where the forward search stops, and what it passed. *)
Lemma indexFunc_loop_spaces (n : nat) :
  forall s i0, length s = n ->
    exists ws rest,
      s = utf8_string ws ++ rest /\ Forall white_space ws /\
      ((rest = [] /\
        strings.indexFunc_loop unicode.IsSpace false (range_from i0 s) = -1)
       \/
       (rest <> [] /\
        unicode.IsSpace (fst (DecodeRuneInString rest)) = false /\
        strings.indexFunc_loop unicode.IsSpace false (range_from i0 s)
        = Z.of_nat (i0 + length (utf8_string ws)))).
Proof.
  induction n as [n IH] using lt_wf_ind. intros s i0 Hn.
  destruct s as [|c s'].
  - exists [], []. split; [reflexivity|]. split; [constructor|].
    left. split; reflexivity.
  - rewrite range_from_cons. cbn [strings.indexFunc_loop].
    pose proof (DecodeRune_size_pos c s') as Hpos.
    pose proof (DecodeRune_size_le (c :: s')) as Hle.
    destruct (unicode.IsSpace (fst (DecodeRuneInString (c :: s')))) eqn:Hf;
      cbn [Bool.eqb].
    + destruct (space_step (c :: s') Hf) as [Hw [Hq Hsize]].
      set (r := fst (DecodeRuneInString (c :: s'))) in *.
      set (size := snd (DecodeRuneInString (c :: s'))) in *.
      destruct (IH (length (skipn size (c :: s')))
                   ltac:(rewrite length_skipn; subst n; cbn [length] in *; lia)
                   (skipn size (c :: s')) (i0 + size)%nat eq_refl)
        as [ws [rest [Hs [Hws Hcase]]]].
      exists (r :: ws), rest. split.
      * rewrite utf8_string_cons, <- app_assoc, <- Hs. exact Hq.
      * split; [constructor; assumption|].
        destruct Hcase as [[Hnil Hidx]|[Hne [Hrest Hidx]]].
        -- left. split; assumption.
        -- right. split; [exact Hne|]. split; [exact Hrest|].
           rewrite Hidx, utf8_string_cons, length_app, <- Hsize. f_equal. lia.
    + exists [], (c :: s'). split; [reflexivity|]. split; [constructor|].
      right. split; [discriminate|]. split; [exact Hf|].
      cbn [utf8_string map concat length]. f_equal. lia.
Qed.

(** [TrimLeftFunc] takes white space characters off the start until the
    first rune is none. *)
Lemma TrimLeftFunc_trims (s : list Z) :
  exists ws rest,
    s = utf8_string ws ++ rest /\ Forall white_space ws /\
    strings.TrimLeftFunc s unicode.IsSpace = rest /\
    (rest = [] \/ unicode.IsSpace (fst (DecodeRuneInString rest)) = false).
Proof.
  unfold strings.TrimLeftFunc, strings.indexFunc, range_string,
    strings.slice_from.
  destruct (indexFunc_loop_spaces (length s) s 0 eq_refl)
    as [ws [rest [Hs [Hws [[Hnil Hidx]|[Hne [Hrest Hidx]]]]]]].
  - exists ws, rest. split; [exact Hs|]. split; [exact Hws|].
    rewrite Hidx. cbn. split; [symmetry; exact Hnil | left; exact Hnil].
  - exists ws, rest. split; [exact Hs|]. split; [exact Hws|].
    rewrite Hidx. cbn [Nat.add].
    destruct (Z.eqb_spec (Z.of_nat (length (utf8_string ws))) (-1)); [lia|].
    rewrite Nat2Z.id. split; [|right; exact Hrest].
    rewrite Hs at 1. rewrite skipn_app, skipn_all, Nat.sub_diag. reflexivity.
Qed.

Lemma firstn_skipn_last (pre : list Z) (k : nat) :
  (k <= length pre)%nat ->
  pre = firstn (length pre - k) pre ++ skipn (length pre - k) pre.
Proof. intros _. symmetry. apply firstn_skipn. Qed.

(** A white space character that was decoded backwards: the string ends
    with its encoding. *)
Lemma space_step_back (pre : list Z) :
  pre <> [] ->
  unicode.IsSpace (fst (DecodeLastRuneInString pre)) = true ->
  white_space (fst (DecodeLastRuneInString pre)) /\
  pre = firstn (length pre - snd (DecodeLastRuneInString pre)) pre
          ++ EncodeRune (fst (DecodeLastRuneInString pre)).
Proof.
  intros Hne Hsp. apply white_space_IsSpace in Hsp.
  split; [exact Hsp|].
  pose proof (DecodeLastRune_cases pre Hne) as Hc. cbv zeta in Hc.
  pose proof (DecodeLastRune_size pre Hne) as Hsize.
  set (r := fst (DecodeLastRuneInString pre)) in *.
  set (size := snd (DecodeLastRuneInString pre)) in *.
  rewrite (firstn_skipn_last pre size) at 1 by lia. f_equal.
  assert (Hlen : length (skipn (length pre - size) pre) = size)
    by (rewrite length_skipn; lia).
  destruct Hc as [[Hz [Hr Hs1]]|[[Hz [Hr Hs1]]|[Hz [start [H1 [H2 Hdec]]]]]].
  - rewrite Hs1 in *.
    rewrite EncodeRune_1 by (unfold white_space, RuneSelf in *; lia).
    destruct (skipn (length pre - 1) pre) as [|b [|b' q]] eqn:Eq;
      cbn [length] in Hlen; try lia.
    f_equal. rewrite Hr. unfold at_.
    pose proof (nth_skipn (length pre - 1) pre 0%nat 0) as Hnth.
    rewrite Eq, Nat.add_0_r in Hnth. cbn [nth] in Hnth. exact Hnth.
  - unfold white_space, RuneError in *. lia.
  - replace (length pre - size)%nat with start in * by lia.
    pose proof (DecodeRune_decodes (skipn start pre)) as Hd.
    rewrite Hdec in Hd. cbn [fst snd] in Hd.
    pose proof (space_decoded_bytes _ _ _ Hd Hsp) as Hq.
    assert (Hnil : skipn size (skipn start pre) = [])
      by (apply skipn_all2; rewrite length_skipn; lia).
    rewrite Hnil, app_nil_r in Hq. exact Hq.
Qed.

(** Where the backward search stops, and what it passed. *)
Lemma lastIndexFunc_loop_trail (n : nat) :
  forall pre, length pre = n ->
    exists keep ws,
      pre = keep ++ utf8_string ws /\ Forall white_space ws /\
      ((keep = [] /\
        strings.lastIndexFunc_loop unicode.IsSpace false pre = -1)
       \/
       (keep <> [] /\
        unicode.IsSpace (fst (DecodeLastRuneInString keep)) = false /\
        strings.lastIndexFunc_loop unicode.IsSpace false pre
        = Z.of_nat (length keep - snd (DecodeLastRuneInString keep)))).
Proof.
  induction n as [n IH] using lt_wf_ind. intros pre Hn.
  destruct pre as [|c pre'] eqn:Epre.
  - exists [], []. split; [reflexivity|]. split; [constructor|].
    left. split; reflexivity.
  - rewrite <- Epre in *.
    assert (Hne : pre <> []) by (rewrite Epre; discriminate).
    rewrite lastIndexFunc_loop_step by assumption.
    pose proof (DecodeLastRune_size pre Hne) as Hsize.
    destruct (unicode.IsSpace (fst (DecodeLastRuneInString pre))) eqn:Hf;
      cbn [Bool.eqb].
    + destruct (space_step_back pre Hne Hf) as [Hw Hq].
      set (r := fst (DecodeLastRuneInString pre)) in *.
      set (i := (length pre - snd (DecodeLastRuneInString pre))%nat) in *.
      assert (Hi : (i < length pre)%nat) by (unfold i; lia).
      destruct (IH (length (firstn i pre))
                   ltac:(rewrite length_firstn; lia) (firstn i pre) eq_refl)
        as [keep [ws [Hs [Hws Hcase]]]].
      exists keep, (ws ++ [r]). split.
      * rewrite utf8_string_snoc, app_assoc, <- Hs. exact Hq.
      * split; [apply Forall_app; split;
                [assumption | constructor; [assumption | constructor]]|].
        exact Hcase.
    + exists pre, []. split; [cbn; rewrite app_nil_r; reflexivity|].
      split; [constructor|]. right. split; [exact Hne|].
      split; [exact Hf | reflexivity].
Qed.

(** The width of a rune does not depend on what follows it, when that is
    no continuation byte. *)
Lemma DecodeRune_width_before (q u : list Z) :
  q <> [] -> length q = snd (DecodeRuneInString q) ->
  (u = [] \/ exists b rest, u = b :: rest /\ (b < 0x80 \/ 0xC0 <= b)) ->
  snd (DecodeRuneInString (q ++ u)) = length q.
Proof.
  intros Hne Hlen Hu.
  destruct (le_lt_dec 2 (snd (DecodeRuneInString q))) as [H2|H1].
  - apply DecodeRune_app_full; assumption.
  - destruct Hu as [-> | [b [rest [-> Hb]]]].
    + rewrite app_nil_r. symmetry. exact Hlen.
    + destruct q as [|b0 [|b1 q']]; [congruence| |cbn [length] in *; lia].
      cbn [app length].
      pose proof (DecodeRune_decodes (b0 :: b :: rest)) as Hd.
      inversion Hd as [Hq|Hq H0|Hq H0|Hl H0 Hc|Hl H0 Hc|Hl H0 Hc];
        try reflexivity; try discriminate;
        unfold at_ in Hc; cbn [nth] in Hc; lia.
Qed.

(** The rune [DecodeLastRuneInString] finds is the rune that starts
    where it says. *)
Lemma DecodeLastRune_width (keep : list Z) :
  keep <> [] ->
  snd (DecodeRuneInString
         (skipn (length keep - snd (DecodeLastRuneInString keep)) keep))
  = snd (DecodeLastRuneInString keep).
Proof.
  intros Hne.
  pose proof (DecodeLastRune_cases keep Hne) as Hc. cbv zeta in Hc.
  pose proof (DecodeLastRune_size keep Hne) as Hsize.
  set (size := snd (DecodeLastRuneInString keep)) in *.
  set (q := skipn (length keep - size) keep).
  assert (Hlen : length q = size) by (unfold q; rewrite length_skipn; lia).
  pose proof (DecodeRune_size_le q) as Hle.
  assert (Hpos : (1 <= snd (DecodeRuneInString q))%nat).
  { destruct q as [|b q']; [cbn [length] in Hlen; lia|].
    apply DecodeRune_size_pos. }
  destruct Hc as [[_ [_ Hs1]]|[[_ [_ Hs1]]|[_ [start [H1 [H2 Hdec]]]]]];
    [lia | lia |].
  unfold q. replace (length keep - size)%nat with start by lia.
  rewrite Hdec. reflexivity.
Qed.

(** The start of a run of encoded characters is no continuation byte. *)
Lemma utf8_string_first (ws : list Z) :
  Forall white_space ws ->
  utf8_string ws = [] \/
  exists b rest, utf8_string ws = b :: rest /\ (b < 0x80 \/ 0xC0 <= b).
Proof.
  intros Hws. destruct Hws as [|w ws Hw Hws]; [left; reflexivity | right].
  destruct (EncodeRune_first w (white_space_scalar w Hw))
    as [b0 [tl [He Hb0]]].
  exists b0, (tl ++ utf8_string ws). rewrite utf8_string_cons, He.
  split; [reflexivity | exact Hb0].
Qed.

(** [TrimRightFunc] takes white space characters off the end until the
    last rune is none. *)
Lemma TrimRightFunc_trims (s : list Z) :
  exists keep ws,
    s = keep ++ utf8_string ws /\ Forall white_space ws /\
    strings.TrimRightFunc s unicode.IsSpace = keep /\
    (keep = [] \/ unicode.IsSpace (fst (DecodeLastRuneInString keep)) = false).
Proof.
  unfold strings.TrimRightFunc, strings.lastIndexFunc, strings.slice,
    strings.slice_from.
  destruct (lastIndexFunc_loop_trail (length s) s eq_refl)
    as [keep [ws [Hs [Hws [[Hnil Hidx]|[Hne [Hlast Hidx]]]]]]].
  - exists keep, ws. split; [exact Hs|]. split; [exact Hws|].
    rewrite Hidx. cbn. split; [symmetry; exact Hnil | left; exact Hnil].
  - exists keep, ws. split; [exact Hs|]. split; [exact Hws|].
    split; [|right; exact Hlast].
    rewrite Hidx. cbv zeta. cbn [skipn].
    pose proof (DecodeLastRune_size keep Hne) as Hsize.
    pose proof (DecodeLastRune_width keep Hne) as Hwid.
    set (size := snd (DecodeLastRuneInString keep)) in *.
    set (j := (length keep - size)%nat) in *.
    set (q := skipn j keep) in *.
    assert (Hq : length q = size) by (unfold q; rewrite length_skipn; lia).
    assert (Hqne : q <> [])
      by (intros E; rewrite E in Hq; cbn [length] in Hq; lia).
    assert (Hsq : skipn j s = q ++ utf8_string ws).
    { rewrite Hs, skipn_app.
      replace (j - length keep)%nat with 0%nat by lia. reflexivity. }
    assert (Hat : at_ s j = at_ q 0).
    { unfold at_. pose proof (nth_skipn j s 0%nat 0) as Hn.
      rewrite Nat.add_0_r in Hn. rewrite <- Hn, Hsq.
      destruct q; [congruence | reflexivity]. }
    assert (Hres : forall k, k = length keep ->
                             firstn (k - 0) s = keep).
    { intros k ->. rewrite Nat.sub_0_r, Hs. apply firstn_length_app. }
    replace (Z.of_nat j >=? 0) with true
      by (symmetry; rewrite Z.geb_leb; apply Z.leb_le; lia).
    rewrite Nat2Z.id. cbn [andb]. rewrite Z.geb_leb.
    destruct (Z.leb_spec RuneSelf (at_ s j)) as [Hge|Hlt].
    + rewrite Hsq.
      rewrite (DecodeRune_width_before q (utf8_string ws) Hqne)
        by (try apply utf8_string_first; try assumption; lia).
      apply Hres. lia.
    + apply Hres.
      assert (Hone : size = 1%nat).
      { destruct q as [|b q'] eqn:Eq; [congruence|].
        unfold at_ in Hat. cbn [nth] in Hat.
        rewrite DecodeRune_ascii in Hwid
          by (unfold RuneSelf in Hlt; fold (at_ s j) in Hat; lia).
        cbn [snd] in Hwid. lia. }
      lia.
Qed.

Lemma EncodeRune_nonempty (r : Z) : EncodeRune r <> [].
Proof.
  pose proof (EncodeRune_length_pos r) as H. intros E. rewrite E in H.
  cbn [length] in H. lia.
Qed.

(** A string whose first rune is no white space does not start with
    one, and the same for the last. *)
Lemma first_rune_starts (t u : list Z) :
  t ++ u = [] \/ unicode.IsSpace (fst (DecodeRuneInString (t ++ u))) = false ->
  ~ starts_with_space t.
Proof.
  intros H [r [rest [Hw Ht]]]. subst t.
  pose proof (EncodeRune_nonempty r) as Hne.
  destruct H as [H|H].
  - apply app_eq_nil in H. destruct H as [H _].
    apply app_eq_nil in H. destruct H as [H _]. contradiction.
  - rewrite <- app_assoc, DecodeRune_EncodeRune in H
      by (apply white_space_scalar; exact Hw).
    cbn [fst] in H. apply white_space_IsSpace in Hw. congruence.
Qed.

Lemma last_rune_ends (t : list Z) :
  t = [] \/ unicode.IsSpace (fst (DecodeLastRuneInString t)) = false ->
  ~ ends_with_space t.
Proof.
  intros H [r [front [Hw Ht]]]. subst t.
  pose proof (EncodeRune_nonempty r) as Hne.
  destruct H as [H|H].
  - apply app_eq_nil in H. destruct H as [_ H]. contradiction.
  - rewrite DecodeLastRune_EncodeRune in H
      by (apply white_space_scalar; exact Hw).
    cbn [fst] in H. apply white_space_IsSpace in Hw. congruence.
Qed.

(** [TrimFunc] with [unicode.IsSpace] trims. *)
Lemma TrimFunc_trims (s : list Z) :
  trims_to s (strings.TrimFunc s unicode.IsSpace).
Proof.
  unfold strings.TrimFunc.
  destruct (TrimLeftFunc_trims s) as [ws [rest [Hs [Hws [Hl Hfirst]]]]].
  rewrite Hl.
  destruct (TrimRightFunc_trims rest) as [keep [ws' [Hr [Hws' [Ht Hlast]]]]].
  rewrite Ht. exists ws, ws'. rewrite <- Hr.
  split; [exact Hs|]. split; [exact Hws|]. split; [exact Hws'|].
  split.
  - apply (first_rune_starts keep (utf8_string ws')). rewrite <- Hr.
    exact Hfirst.
  - apply last_rune_ends. exact Hlast.
Qed.

Lemma asciiSpace_white (c : Z) :
  (strings.asciiSpace c =? 0) = false -> white_space c /\ EncodeRune c = [c].
Proof.
  unfold strings.asciiSpace. intros H.
  destruct ((c =? 0x09) || (c =? 0x0A) || (c =? 0x0B) || (c =? 0x0C)
            || (c =? 0x0D) || (c =? 0x20)) eqn:E; [|discriminate].
  rewrite !orb_true_iff, !Z.eqb_eq in E.
  split; [unfold white_space; lia | apply EncodeRune_1; lia].
Qed.

Lemma asciiSpace_not_white (c : Z) :
  c < RuneSelf -> (strings.asciiSpace c =? 0) = true -> ~ white_space c.
Proof.
  unfold strings.asciiSpace, RuneSelf. intros Hc H Hw.
  destruct ((c =? 0x09) || (c =? 0x0A) || (c =? 0x0B) || (c =? 0x0C)
            || (c =? 0x0D) || (c =? 0x20)) eqn:E; [discriminate|].
  rewrite !orb_false_iff, !Z.eqb_neq in E. unfold white_space in Hw. lia.
Qed.

(** The second loop of [TrimSpace]. *)
Lemma TrimSpace_stop_trims (rs : list Z) :
  exists ws',
    rev rs = strings.TrimSpace_stop rs ++ utf8_string ws' /\
    Forall white_space ws' /\
    ~ ends_with_space (strings.TrimSpace_stop rs).
Proof.
  induction rs as [|c rs' IH].
  - exists []. split; [reflexivity|]. split; [constructor|].
    apply last_rune_ends. left. reflexivity.
  - cbn [strings.TrimSpace_stop].
    destruct (c >=? RuneSelf) eqn:Hself.
    + destruct (TrimRightFunc_trims (rev (c :: rs')))
        as [keep [ws' [Hr [Hws' [Ht Hlast]]]]].
      rewrite Ht. exists ws'. split; [exact Hr|]. split; [exact Hws'|].
      apply last_rune_ends. exact Hlast.
    + rewrite Z.geb_leb in Hself. apply Z.leb_gt in Hself.
      destruct (strings.asciiSpace c =? 0) eqn:Hsp.
      * exists []. split; [cbn; rewrite app_nil_r; reflexivity|].
        split; [constructor|].
        apply last_rune_ends. right. cbn [rev].
        rewrite DecodeLastRune_ascii by exact Hself. cbn [fst].
        destruct (unicode.IsSpace c) eqn:E; [|reflexivity].
        apply white_space_IsSpace in E.
        exfalso. exact (asciiSpace_not_white c Hself Hsp E).
      * destruct (asciiSpace_white c Hsp) as [Hw He].
        destruct IH as [ws' [Hr [Hws' Hend]]].
        exists (ws' ++ [c]). split.
        -- cbn [rev]. rewrite utf8_string_snoc, He, app_assoc, <- Hr.
           reflexivity.
        -- split; [|exact Hend].
           apply Forall_app. split; [assumption|].
           constructor; [assumption | constructor].
Qed.

(** What [strings.TrimSpace] does, for any string: it takes white space
    characters off both ends until there is none at either end. *)
Lemma TrimSpace_trims (s : list Z) : trims_to s (strings.TrimSpace s).
Proof.
  induction s as [|c s' IH].
  - exists [], []. split; [reflexivity|]. split; [constructor|].
    split; [constructor|]. cbn [strings.TrimSpace rev strings.TrimSpace_stop].
    split; [apply (first_rune_starts [] []) | apply last_rune_ends];
      left; reflexivity.
  - cbn [strings.TrimSpace].
    destruct (c >=? RuneSelf) eqn:Hself; [apply TrimFunc_trims|].
    rewrite Z.geb_leb in Hself. apply Z.leb_gt in Hself.
    destruct (strings.asciiSpace c =? 0) eqn:Hsp.
    + destruct (TrimSpace_stop_trims (rev (c :: s'))) as [ws' [Hr [Hws' Hend]]].
      rewrite rev_involutive in Hr.
      exists [], ws'. split; [exact Hr|]. split; [constructor|].
      split; [exact Hws'|]. split; [|exact Hend].
      apply (first_rune_starts _ (utf8_string ws')). right.
      rewrite <- Hr, DecodeRune_ascii by (unfold RuneSelf in Hself; lia).
      cbn [fst]. destruct (unicode.IsSpace c) eqn:E; [|reflexivity].
      apply white_space_IsSpace in E.
      exfalso. exact (asciiSpace_not_white c Hself Hsp E).
    + destruct (asciiSpace_white c Hsp) as [Hw He].
      destruct IH as [ws [ws' [Hs [Hws [Hws' [Hst Hend]]]]]].
      exists (c :: ws), ws'. split.
      * rewrite utf8_string_cons, He, Hs at 1. reflexivity.
      * split; [constructor; assumption|].
        split; [exact Hws'|]. split; assumption.
Qed.

(** What is left after the white space at the start is determined. *)
Lemma leading_space_unique (ws : list Z) :
  forall ws' rest rest',
    utf8_string ws ++ rest = utf8_string ws' ++ rest' ->
    Forall white_space ws -> Forall white_space ws' ->
    (rest = [] \/ unicode.IsSpace (fst (DecodeRuneInString rest)) = false) ->
    (rest' = [] \/ unicode.IsSpace (fst (DecodeRuneInString rest')) = false) ->
    rest = rest'.
Proof.
  assert (Hstop : forall w l rest x,
             white_space w ->
             (rest = [] \/
              unicode.IsSpace (fst (DecodeRuneInString rest)) = false) ->
             rest = utf8_string (w :: l) ++ x -> False).
  { intros w l rest x Hw Hrest Heq. rewrite utf8_string_cons in Heq.
    rewrite <- app_assoc in Heq. destruct Hrest as [Hnil|Hns].
    - rewrite Hnil in Heq. symmetry in Heq. apply app_eq_nil in Heq.
      exact (EncodeRune_nonempty w (proj1 Heq)).
    - rewrite Heq, DecodeRune_EncodeRune in Hns
        by (apply white_space_scalar; exact Hw).
      cbn [fst] in Hns. apply white_space_IsSpace in Hw. congruence. }
  induction ws as [|w ws IH]; intros ws' rest rest' Heq Hws Hws' Hr Hr'.
  - cbn [utf8_string map concat app] in Heq.
    destruct ws' as [|w' ws']; [exact Heq|]. exfalso.
    exact (Hstop w' ws' rest rest' (Forall_inv Hws') Hr Heq).
  - pose proof (Forall_inv Hws) as Hw.
    pose proof (Forall_inv_tail Hws) as Hws0.
    destruct ws' as [|w' ws'].
    + exfalso. cbn [utf8_string map concat app] in Heq. symmetry in Heq.
      exact (Hstop w ws rest' rest Hw Hr' Heq).
    + pose proof (Forall_inv Hws') as Hw'.
      pose proof (Forall_inv_tail Hws') as Hws0'.
      rewrite !utf8_string_cons, <- !app_assoc in Heq.
      assert (Hsame : w = w').
      { pose proof (DecodeRune_EncodeRune w (utf8_string ws ++ rest)
                      (white_space_scalar w Hw)) as H1.
        pose proof (DecodeRune_EncodeRune w' (utf8_string ws' ++ rest')
                      (white_space_scalar w' Hw')) as H2.
        rewrite Heq in H1. congruence. }
      subst w'. apply app_inv_head in Heq.
      exact (IH ws' rest rest' Heq Hws0 Hws0' Hr Hr').
Qed.

(** What is left before the white space at the end is determined. *)
Lemma trailing_space_unique (ws : list Z) :
  forall ws' keep keep',
    keep ++ utf8_string ws = keep' ++ utf8_string ws' ->
    Forall white_space ws -> Forall white_space ws' ->
    (keep = [] \/
     unicode.IsSpace (fst (DecodeLastRuneInString keep)) = false) ->
    (keep' = [] \/
     unicode.IsSpace (fst (DecodeLastRuneInString keep')) = false) ->
    keep = keep'.
Proof.
  assert (Hstop : forall w l keep x,
             white_space w ->
             (keep = [] \/
              unicode.IsSpace (fst (DecodeLastRuneInString keep)) = false) ->
             keep = x ++ utf8_string (l ++ [w]) -> False).
  { intros w l keep x Hw Hkeep Heq. rewrite utf8_string_snoc in Heq.
    rewrite app_assoc in Heq. destruct Hkeep as [Hnil|Hns].
    - rewrite Hnil in Heq. symmetry in Heq. apply app_eq_nil in Heq.
      exact (EncodeRune_nonempty w (proj2 Heq)).
    - rewrite Heq, DecodeLastRune_EncodeRune in Hns
        by (apply white_space_scalar; exact Hw).
      cbn [fst] in Hns. apply white_space_IsSpace in Hw. congruence. }
  induction ws as [|w ws IH] using rev_ind;
    intros ws' keep keep' Heq Hws Hws' Hk Hk'.
  - cbn [utf8_string map concat] in Heq. rewrite app_nil_r in Heq.
    destruct ws' as [|w' ws' _] using rev_ind;
      [cbn [utf8_string map concat] in Heq; rewrite app_nil_r in Heq;
       exact Heq|].
    exfalso. apply Forall_app in Hws'. destruct Hws' as [_ Hw'].
    exact (Hstop w' ws' keep keep' (Forall_inv Hw') Hk Heq).
  - apply Forall_app in Hws. destruct Hws as [Hws0 Hw].
    pose proof (Forall_inv Hw) as Hw0.
    destruct ws' as [|w' ws' _] using rev_ind.
    + exfalso. change (utf8_string []) with (@nil Z) in Heq.
      rewrite app_nil_r in Heq. symmetry in Heq.
      exact (Hstop w ws keep' keep Hw0 Hk' Heq).
    + apply Forall_app in Hws'. destruct Hws' as [Hws0' Hw'].
      pose proof (Forall_inv Hw') as Hw0'.
      rewrite !utf8_string_snoc, !app_assoc in Heq.
      assert (Hsame : w = w').
      { pose proof (DecodeLastRune_EncodeRune (keep ++ utf8_string ws) w
                      (white_space_scalar w Hw0)) as H1.
        pose proof (DecodeLastRune_EncodeRune (keep' ++ utf8_string ws') w'
                      (white_space_scalar w' Hw0')) as H2.
        rewrite Heq in H1. congruence. }
      subst w'. apply app_inv_tail in Heq.
      exact (IH ws' keep keep' Heq Hws0 Hws0' Hk Hk').
Qed.

(** A string that does not end with a white space character: its last
    rune is none. *)
Lemma ends_last_rune (t : list Z) :
  ~ ends_with_space t ->
  t = [] \/ unicode.IsSpace (fst (DecodeLastRuneInString t)) = false.
Proof.
  intros Hend. destruct t as [|b t'] eqn:Et; [left; reflexivity | right].
  rewrite <- Et in *.
  assert (Hne : t <> []) by (rewrite Et; discriminate).
  destruct (unicode.IsSpace (fst (DecodeLastRuneInString t))) eqn:E;
    [|reflexivity].
  exfalso. apply Hend.
  destruct (space_step_back t Hne E) as [Hw Hq].
  eexists _, _. split; [exact Hw | exact Hq].
Qed.

(** A string that does not start with a white space character and is
    followed by white space: its first rune is none. *)
Lemma starts_first_rune (t : list Z) (ws : list Z) :
  t <> [] -> ~ starts_with_space t -> Forall white_space ws ->
  unicode.IsSpace (fst (DecodeRuneInString (t ++ utf8_string ws))) = false.
Proof.
  intros Hne Hst Hws.
  destruct (unicode.IsSpace (fst (DecodeRuneInString (t ++ utf8_string ws))))
    eqn:E; [|reflexivity].
  exfalso.
  destruct (space_step _ E) as [Hw [Hq _]].
  set (r := fst (DecodeRuneInString (t ++ utf8_string ws))) in *.
  set (z := skipn (snd (DecodeRuneInString (t ++ utf8_string ws)))
                  (t ++ utf8_string ws)) in *.
  pose proof (white_space_scalar r Hw) as Hr.
  destruct (le_lt_dec (length (EncodeRune r)) (length t)) as [Hle|Hlt].
  - (* the encoding lies within [t] *)
    apply Hst. exists r, (skipn (length (EncodeRune r)) t).
    split; [exact Hw|].
    rewrite <- (firstn_skipn (length (EncodeRune r)) t) at 1. f_equal.
    apply (f_equal (firstn (length (EncodeRune r)))) in Hq.
    rewrite firstn_app in Hq.
    replace (length (EncodeRune r) - length t)%nat with 0%nat in Hq by lia.
    cbn [firstn] in Hq. rewrite app_nil_r in Hq.
    rewrite Hq. apply firstn_length_app.
  - (* the encoding runs into the white space that follows *)
    destruct (Z_lt_le_dec r 0x80) as [Hlow|Hhigh].
    + rewrite EncodeRune_1 in Hlt by (unfold is_scalar in Hr; lia).
      destruct t; [congruence | cbn [length] in Hlt; lia].
    + destruct (EncodeRune_multi r Hr Hhigh) as [b0 [tl [He [_ [Htl _]]]]].
      assert (Hnth : nth (length t) (t ++ utf8_string ws) 0
                     = nth (length t) (EncodeRune r ++ z) 0)
        by (rewrite <- Hq; reflexivity).
      rewrite app_nth2, Nat.sub_diag in Hnth by lia.
      rewrite app_nth1 in Hnth by exact Hlt.
      assert (Hcont : 0x80 <= nth (length t) (EncodeRune r) 0 <= 0xBF).
      { rewrite He in *. destruct (length t) as [|k] eqn:Ek.
        - destruct t; [congruence | discriminate].
        - cbn [nth]. apply (nth_Forall (fun b => 0x80 <= b <= 0xBF));
            [exact Htl | cbn [length] in Hlt; lia]. }
      destruct (utf8_string_first ws Hws) as [Hnil|[b [rest [Hu Hb]]]].
      * rewrite Hnil, app_nil_r in Hq.
        apply (f_equal (@length Z)) in Hq. rewrite length_app in Hq. lia.
      * rewrite Hu in Hnth. cbn [nth] in Hnth. lia.
Qed.

(** The trimmed sequence is determined. *)
Lemma trims_to_unique (d t1 t2 : list Z) :
  trims_to d t1 -> trims_to d t2 -> t1 = t2.
Proof.
  assert (Hnorm : forall t, trims_to d t ->
            exists us rest vs,
              d = utf8_string us ++ rest /\ Forall white_space us /\
              (rest = [] \/
               unicode.IsSpace (fst (DecodeRuneInString rest)) = false) /\
              Forall white_space vs /\
              rest = t ++ (if length t =? 0 then [] else utf8_string vs)%nat).
  { intros t [ws [ws' [Hd [Hws [Hws' [Hst Hend]]]]]].
    destruct t as [|b t'] eqn:Et.
    - exists (ws ++ ws'), [], ws'. cbn [app] in Hd.
      split; [|split; [apply Forall_app; split; assumption|]].
      + rewrite app_nil_r. unfold utf8_string in *.
        rewrite map_app, concat_app. exact Hd.
      + split; [left; reflexivity|]. split; [exact Hws' | reflexivity].
    - rewrite <- Et in *.
      assert (Hne : t <> []) by (rewrite Et; discriminate).
      exists ws, (t ++ utf8_string ws'), ws'.
      split; [exact Hd|]. split; [exact Hws|].
      split; [right; apply starts_first_rune; assumption|].
      split; [exact Hws'|].
      assert (Hl : (length t =? 0)%nat = false) by (rewrite Et; reflexivity).
      rewrite Hl. reflexivity. }
  intros H1 H2.
  destruct (Hnorm t1 H1) as [us1 [r1 [vs1 [Hd1 [Hus1 [Hr1 [Hvs1 He1]]]]]]].
  destruct (Hnorm t2 H2) as [us2 [r2 [vs2 [Hd2 [Hus2 [Hr2 [Hvs2 He2]]]]]]].
  assert (Hrest : r1 = r2).
  { apply (leading_space_unique us1 us2); try assumption. congruence. }
  destruct H1 as [_ [_ [_ [_ [_ [_ Hend1]]]]]].
  destruct H2 as [_ [_ [_ [_ [_ [_ Hend2]]]]]].
  apply ends_last_rune in Hend1. apply ends_last_rune in Hend2.
  subst r1 r2.
  destruct (Nat.eqb_spec (length t1) 0) as [Z1|N1];
    destruct (Nat.eqb_spec (length t2) 0) as [Z2|N2].
  - apply length_zero_iff_nil in Z1, Z2. congruence.
  - exfalso. apply length_zero_iff_nil in Z1. subst t1.
    cbn [app] in Hrest. symmetry in Hrest. apply app_eq_nil in Hrest.
    destruct Hrest as [Hnil _]. rewrite Hnil in N2. cbn [length] in N2. lia.
  - exfalso. apply length_zero_iff_nil in Z2. subst t2.
    cbn [app] in Hrest. apply app_eq_nil in Hrest.
    destruct Hrest as [Hnil _]. rewrite Hnil in N1. cbn [length] in N1. lia.
  - apply (trailing_space_unique vs1 vs2); assumption.
Qed.

(** C4.  On every non-empty string [DecodeText] succeeds.  The scan makes
    one byte per rune of the string, in order: the recovered byte where
    the reverse map succeeds, a newline where it fails.  The result is
    that sequence trimmed: white space characters taken off its two ends
    until there is none at either end, which leaves one sequence and no
    other.  On well-formed text the runes are the scalar values of the
    text, the carrier characters included. *)
Theorem DecodeText_scan_then_trim :
  (forall (s : smuggler) (target : list Z),
      is_bytes target -> target <> [] ->
      exists t,
        DecodeText s target = Ok t /\
        trims_to (map byte_or_newline (runes target)) t /\
        (forall t', trims_to (map byte_or_newline (runes target)) t' ->
                    t' = t)) /\
  (forall (s : smuggler) (rs : list Z),
      Forall is_scalar rs -> rs <> [] ->
      runes (utf8_string rs) = rs /\
      exists t,
        DecodeText s (utf8_string rs) = Ok t /\
        trims_to (map byte_or_newline rs) t /\
        (forall t', trims_to (map byte_or_newline rs) t' -> t' = t)).
Proof.
  split.
  - intros s target Hb Hne.
    exists (strings.TrimSpace (map byte_or_newline (runes target))).
    rewrite DecodeText_nonempty, decode_byte_or_newline by assumption.
    split; [reflexivity|]. split; [apply TrimSpace_trims|].
    intros t' Ht'. apply (trims_to_unique _ _ _ Ht'). apply TrimSpace_trims.
  - intros s rs Hrs Hne.
    assert (Hrunes : runes (utf8_string rs) = rs).
    { rewrite <- (app_nil_r (utf8_string rs)).
      rewrite runes_utf8_string, runes_nil, app_nil_r by assumption.
      reflexivity. }
    split; [exact Hrunes|].
    exists (strings.TrimSpace (map byte_or_newline rs)).
    split; [|split; [apply TrimSpace_trims|]].
    + rewrite DecodeText_nonempty.
      * rewrite decode_written, Hrunes. do 2 f_equal.
        apply map_ext_in. intros r Hr. apply written_rune.
        rewrite Forall_forall in Hrs. specialize (Hrs r Hr).
        unfold is_scalar in Hrs. unfold is_rune. lia.
      * intros Hnil. rewrite Hnil, runes_nil in Hrunes. congruence.
    + intros t' Ht'. apply (trims_to_unique _ _ _ Ht'). apply TrimSpace_trims.
Qed.

Lemma DecodeText_scan_then_trim_witness :
  let s := {| clearText := []; encodeMode := false |} in
  let target := [0x78; 0xF3; 0xA0; 0x86; 0xB2; 0xF3; 0xA0; 0x86; 0x90;
                 0xF3; 0xA0; 0x84; 0xB1; 0x79; 0xF3; 0xA0; 0x84; 0xB2;
                 0xF3; 0xA0; 0x84; 0x90] in
  is_bytes target /\ target <> [] /\
  runes target = [0x78; 0xE01B2; 0xE0190; 0xE0131; 0x79; 0xE0132; 0xE0110] /\
  map byte_or_newline (runes target)
  = [0x0A; 0xC2; 0xA0; 0x41; 0x0A; 0x42; 0x20] /\
  DecodeText s target = Ok [0x41; 0x0A; 0x42] /\
  trims_to [0x0A; 0xC2; 0xA0; 0x41; 0x0A; 0x42; 0x20] [0x41; 0x0A; 0x42] /\
  ~ trims_to [0x0A; 0xC2; 0xA0; 0x41; 0x0A; 0x42; 0x20]
             [0xC2; 0xA0; 0x41; 0x0A; 0x42].
Proof.
  intros s target.
  assert (H1 : is_bytes target)
    by (repeat constructor; unfold is_byte; lia).
  assert (H2 : target <> []) by discriminate.
  split; [exact H1|]. split; [exact H2|]. split; [reflexivity|].
  split; [reflexivity|]. split; [reflexivity|].
  destruct (proj1 DecodeText_scan_then_trim s target H1 H2)
    as [t [Ht [Htrim Honly]]].
  assert (Heq : t = [0x41; 0x0A; 0x42]).
  { assert (Hc : DecodeText s target = Ok [0x41; 0x0A; 0x42]) by reflexivity.
    rewrite Hc in Ht. inversion Ht. reflexivity. }
  rewrite Heq in Htrim, Honly. split; [exact Htrim|].
  intros Hother. specialize (Honly _ Hother). discriminate.
Defined.

End TrimmingCharacters.

(* ===================================================================== *)
(** * The line scanner and the driver *)
(* ===================================================================== *)

Section Driver.

Lemma scan_lines_segment (l : list Z) :
  forall line rest,
    Forall (fun b => b <> 0x0A) l ->
    Z.of_nat (length (line ++ l)) < bufio.MaxScanTokenSize ->
    bufio.scan_lines (l ++ 0x0A :: rest) line
    = bufio.dropCR (line ++ l) :: bufio.scan_lines rest [].
Proof.
  induction l as [|c l IH]; intros line rest Hnl Hlen.
  - cbn [app bufio.scan_lines]. rewrite app_nil_r. reflexivity.
  - cbn [app bufio.scan_lines].
    inversion Hnl as [|? ? Hc Hnl']; subst.
    destruct (Z.eqb_spec c 0x0A) as [Hc'|_]; [contradiction|].
    rewrite !length_app in *. cbn [length] in *.
    destruct (Z.leb_spec bufio.MaxScanTokenSize (Z.of_nat (length line + 1))); [lia|].
    rewrite IH.
    + rewrite <- app_assoc. reflexivity.
    + exact Hnl'.
    + rewrite !length_app. cbn [length]. lia.
Qed.

Lemma scan_lines_last (l : list Z) :
  forall line,
    Forall (fun b => b <> 0x0A) l ->
    Z.of_nat (length (line ++ l)) < bufio.MaxScanTokenSize ->
    line ++ l <> [] ->
    bufio.scan_lines l line = [bufio.dropCR (line ++ l)].
Proof.
  induction l as [|c l IH]; intros line Hnl Hlen Hne.
  - cbn [bufio.scan_lines]. rewrite app_nil_r in *.
    destruct line; [congruence | reflexivity].
  - cbn [bufio.scan_lines].
    inversion Hnl as [|? ? Hc Hnl']; subst.
    destruct (Z.eqb_spec c 0x0A) as [Hc'|_]; [contradiction|].
    rewrite !length_app in *. cbn [length] in *.
    destruct (Z.leb_spec bufio.MaxScanTokenSize (Z.of_nat (length line + 1))); [lia|].
    rewrite IH.
    + rewrite <- app_assoc. reflexivity.
    + exact Hnl'.
    + rewrite !length_app. cbn [length]. lia.
    + intros E. apply app_eq_nil in E. destruct E as [E _].
      apply app_eq_nil in E. destruct E as [_ E]. discriminate.
Qed.

(** The scanner returns the lines of a text, a terminal carriage return
    dropped from each; the newline after the last line may be missing. *)
Lemma Scanner_tokens_unlines (ls : list (list Z)) :
  Forall scannable ls ->
  bufio.Scanner_tokens (unlines ls) = map bufio.dropCR ls.
Proof.
  unfold bufio.Scanner_tokens, unlines.
  induction 1 as [|l ls [Hnl Hlen] Hls IH]; [reflexivity|].
  cbn [map concat]. rewrite <- app_assoc. cbn [app].
  rewrite scan_lines_segment by assumption. rewrite IH. reflexivity.
Qed.


Lemma unlines_app (a b : list (list Z)) : unlines (a ++ b) = unlines a ++ unlines b.
Proof. unfold unlines. rewrite map_app, concat_app. reflexivity. Qed.

Lemma unlines_cons (l : list Z) (ls : list (list Z)) :
  unlines (l :: ls) = l ++ 0x0A :: unlines ls.
Proof. unfold unlines. cbn [map concat]. rewrite <- app_assoc. reflexivity. Qed.

(** [Run] writes a line for each target until one fails. *)
Lemma Run_loop_succeeds (s : smuggler) (targets : list (list Z)) :
  forall out,
    Forall (fun t => succeeds (Run_line s t)) targets ->
    Run_loop s targets out
    = (out ++ unlines (map (fun t => value_of (Run_line s t)) targets), None).
Proof.
  induction targets as [|t ts IH]; intros out Hok.
  - cbn. rewrite app_nil_r. reflexivity.
  - inversion Hok as [|? ? [v Hv] Hts]; subst.
    cbn [Run_loop map]. unfold Run_line in Hv. rewrite Hv.
    rewrite IH by assumption. unfold Run_line at 2. rewrite Hv.
    cbn [value_of]. rewrite unlines_cons, <- !app_assoc. reflexivity.
Qed.

Lemma Run_loop_fails (s : smuggler) (pre : list (list Z)) :
  forall out bad rest msg,
    Forall (fun t => succeeds (Run_line s t)) pre ->
    Run_line s bad = Err msg ->
    Run_loop s (pre ++ bad :: rest) out
    = (out ++ unlines (map (fun t => value_of (Run_line s t)) pre), Some msg).
Proof.
  induction pre as [|t ts IH]; intros out bad rest msg Hok Hbad.
  - cbn [app Run_loop map]. unfold Run_line in Hbad. rewrite Hbad.
    cbn. rewrite app_nil_r. reflexivity.
  - inversion Hok as [|? ? [v Hv] Hts]; subst.
    cbn [app Run_loop map]. unfold Run_line in Hv. rewrite Hv.
    rewrite (IH _ bad rest msg) by assumption. unfold Run_line at 2.
    rewrite Hv. cbn [value_of].
    rewrite unlines_cons, <- !app_assoc. reflexivity.
Qed.

Lemma DecodeText_nil (s : smuggler) :
  DecodeText s [] = Err "target cannot be empty".
Proof. reflexivity. Qed.

(** X7.  In decode mode [Run] fails on an empty line and on nothing
    else.  When no line is empty it writes, for each line the scanner
    returns, the extracted text and a newline, and returns no error; at
    the first empty line it returns the error of the empty target, having
    written the lines before it and nothing more. *)
Theorem Run_decode_mode (s : smuggler) (stdin : list Z) :
  encodeMode s = false ->
  (Forall (fun t => t <> []) (bufio.Scanner_tokens stdin) ->
   Run s stdin
   = (unlines (map (fun t => strings.TrimSpace (decode t))
                   (bufio.Scanner_tokens stdin)), None)) /\
  (forall pre rest,
      bufio.Scanner_tokens stdin = pre ++ [] :: rest ->
      Forall (fun t => t <> []) pre ->
      Run s stdin
      = (unlines (map (fun t => strings.TrimSpace (decode t)) pre),
         Some "target cannot be empty"%string)).
Proof.
  intros Hmode.
  assert (Hline : forall t, t <> [] ->
                            Run_line s t = Ok (strings.TrimSpace (decode t))).
  { intros t Ht. unfold Run_line. rewrite Hmode.
    apply DecodeText_nonempty. exact Ht. }
  assert (Hok : forall ts, Forall (fun t => t <> []) ts ->
                           Forall (fun t => succeeds (Run_line s t)) ts).
  { intros ts. apply Forall_impl. intros t Ht. eexists. apply Hline. exact Ht. }
  assert (Hmap : forall ts, Forall (fun t => t <> []) ts ->
             map (fun t => value_of (Run_line s t)) ts
             = map (fun t => strings.TrimSpace (decode t)) ts).
  { intros ts Hts. apply map_ext_in. intros t Ht.
    rewrite Forall_forall in Hts. rewrite Hline by (apply Hts; exact Ht).
    reflexivity. }
  unfold Run. split.
  - intros Hne. rewrite Run_loop_succeeds by (apply Hok; exact Hne).
    rewrite Hmap by assumption. reflexivity.
  - intros pre rest Htok Hne. rewrite Htok.
    rewrite (Run_loop_fails s pre [] [] rest "target cannot be empty").
    + rewrite Hmap by assumption. reflexivity.
    + apply Hok. exact Hne.
    + unfold Run_line. rewrite Hmode. reflexivity.
Qed.

Lemma Run_decode_mode_witness :
  let s := {| clearText := []; encodeMode := false |} in
  let stdin := [0x78; 0xEF; 0xB8; 0x81; 0x0A; 0x0D; 0x0A; 0x79; 0x0A] in
  encodeMode s = false /\
  bufio.Scanner_tokens stdin = [[0x78; 0xEF; 0xB8; 0x81]] ++ [] :: [[0x79]] /\
  Run s stdin = ([0x01; 0x0A], Some "target cannot be empty"%string).
Proof.
  intros s stdin.
  split; [reflexivity|]. split; [reflexivity|].
  refine (proj2 (Run_decode_mode s stdin eq_refl)
                [[0x78; 0xEF; 0xB8; 0x81]] [[0x79]] eq_refl _).
  constructor; [discriminate | constructor].
Defined.

(** X8.  In encode mode with an empty clear text [Run] writes nothing:
    it returns no error when the scanner returns no line, the error of
    the empty target when the first line is empty, and the error of the
    empty clear text otherwise. *)
Theorem Run_encode_empty_clear_text (s : smuggler) (stdin : list Z) :
  encodeMode s = true -> clearText s = [] ->
  fst (Run s stdin) = [] /\
  (bufio.Scanner_tokens stdin = [] -> snd (Run s stdin) = None) /\
  (forall rest, bufio.Scanner_tokens stdin = [] :: rest ->
                snd (Run s stdin) = Some "target cannot be empty"%string) /\
  (forall t rest, bufio.Scanner_tokens stdin = t :: rest -> t <> [] ->
                  snd (Run s stdin) = Some "clear text cannot be empty"%string).
Proof.
  intros Hmode Hclear. unfold Run.
  destruct (bufio.Scanner_tokens stdin) as [|t rest].
  - cbn. repeat split; intros; discriminate.
  - cbn [Run_loop]. rewrite Hmode. unfold EncodeText. rewrite Hclear.
    destruct t as [|b t']; cbn [length Nat.eqb fst snd].
    + split; [reflexivity|]. split; [discriminate|].
      split; [reflexivity|]. intros t rest' H Hne. inversion H; subst. congruence.
    + split; [reflexivity|]. split; [discriminate|].
      split; [intros rest' H; discriminate|]. reflexivity.
Qed.

Lemma Run_encode_empty_clear_text_witness :
  let s := {| clearText := []; encodeMode := true |} in
  encodeMode s = true /\ clearText s = [] /\
  Run s [0x78; 0x0A] = ([], Some "clear text cannot be empty"%string) /\
  Run s [] = ([], None).
Proof.
  intros s. split; [reflexivity|]. split; [reflexivity|].
  split; [|reflexivity].
  pose proof (Run_encode_empty_clear_text s [0x78; 0x0A] eq_refl eq_refl)
    as [Hout [_ [_ Herr]]].
  specialize (Herr [0x78] [] eq_refl ltac:(discriminate)).
  destruct (Run s [0x78; 0x0A]) as [o e]. cbn [fst snd] in *.
  rewrite Hout, Herr. reflexivity.
Defined.

Lemma at_last_app (a b : list Z) :
  b <> [] -> at_ (a ++ b) (length (a ++ b) - 1) = at_ b (length b - 1).
Proof.
  intros Hb. unfold at_. rewrite length_app.
  assert (1 <= length b)%nat by (destruct b; [congruence | cbn; lia]).
  rewrite app_nth2 by lia. f_equal. lia.
Qed.

(** [dropCR] leaves a line alone when its last byte is no carriage
    return, and removes the carriage return that ends a line. *)
Lemma dropCR_keep (a b : list Z) :
  b <> [] -> Forall (fun x => x <> 0x0D) b -> bufio.dropCR (a ++ b) = a ++ b.
Proof.
  intros Hb Hall. unfold bufio.dropCR. rewrite at_last_app by assumption.
  assert (Hlast : at_ b (length b - 1) <> 0x0D).
  { unfold at_. apply (nth_Forall (fun x => x <> 0x0D)); [assumption|].
    destruct b; [congruence | cbn; lia]. }
  destruct (Z.eqb_spec (at_ b (length b - 1)) 0x0D); [contradiction|].
  rewrite andb_false_r. reflexivity.
Qed.

Lemma dropCR_nil : bufio.dropCR [] = [].
Proof. reflexivity. Qed.


Lemma Forall_firstn_keep {A : Type} (P : A -> Prop) (n : nat) (l : list A) :
  Forall P l -> Forall P (firstn n l).
Proof.
  revert n. induction l as [|a l IH]; intros n Hl.
  - rewrite firstn_nil. constructor.
  - destruct n; [constructor|]. inversion Hl; subst.
    cbn [firstn]. constructor; [assumption | apply IH; assumption].
Qed.

Lemma Forall_dropCR (P : Z -> Prop) (l : list Z) :
  Forall P l -> Forall P (bufio.dropCR l).
Proof.
  intros Hl. unfold bufio.dropCR.
  destruct (_ && _); [apply Forall_firstn_keep|]; exact Hl.
Qed.

(** Every line the scanner returns is made of bytes of the input other
    than the newline. *)
Lemma scan_lines_tokens (P : Z -> Prop) (data : list Z) :
  forall line,
    Forall P data -> Forall P line -> Forall (fun b => b <> 0x0A) line ->
    Forall (fun t => Forall P t /\ Forall (fun b => b <> 0x0A) t)
           (bufio.scan_lines data line).
Proof.
  induction data as [|c data IH]; intros line Hdata Hline Hnl.
  - cbn [bufio.scan_lines]. destruct line; constructor; [|constructor].
    split; apply Forall_dropCR; assumption.
  - inversion Hdata; subst. cbn [bufio.scan_lines].
    destruct (Z.eqb_spec c 0x0A).
    + constructor.
      * split; apply Forall_dropCR; assumption.
      * apply IH; [assumption | constructor | constructor].
    + destruct (_ <=? _); [constructor|].
      apply IH; [assumption | |];
        apply Forall_app; split; try assumption;
        constructor; try assumption; constructor.
Qed.

Lemma Scanner_tokens_bytes (stdin : list Z) :
  is_bytes stdin ->
  Forall (fun t => is_bytes t /\ Forall (fun b => b <> 0x0A) t)
         (bufio.Scanner_tokens stdin).
Proof.
  intros H. apply scan_lines_tokens; [exact H | constructor | constructor].
Qed.

(** The encoding of a scalar value above ASCII has no ASCII byte. *)
Lemma EncodeRune_high (r : Z) :
  is_scalar r -> 0x80 <= r -> Forall (fun b => 0x80 <= b <= 0xFF) (EncodeRune r).
Proof.
  intros Hr Hhigh.
  destruct (is_scalar_cases r Hr) as [H|[H|[[H Hs]|H]]]; [lia| | |].
  - rewrite EncodeRune_2 by assumption.
    repeat constructor; Z.div_mod_to_equations; lia.
  - rewrite EncodeRune_3 by assumption.
    repeat constructor; Z.div_mod_to_equations; lia.
  - rewrite EncodeRune_4 by assumption.
    repeat constructor; Z.div_mod_to_equations; lia.
Qed.

Lemma EncodeRune_avoids (r x : Z) :
  is_scalar r -> r <> x -> x < 0x80 ->
  Forall (fun b => b <> x) (EncodeRune r).
Proof.
  intros Hr Hne Hx. destruct (Z_lt_le_dec r 0x80) as [Hlow|Hhigh].
  - rewrite EncodeRune_1 by (unfold is_scalar in Hr; lia).
    constructor; [exact Hne | constructor].
  - eapply Forall_impl; [|apply EncodeRune_high; assumption].
    intros b Hb. cbn beta in Hb. lia.
Qed.

Lemma utf8_selectors_high (p : list Z) :
  is_bytes p ->
  Forall (fun b => 0x80 <= b <= 0xFF)
         (utf8_string (map byteToVariationSelector p)).
Proof.
  unfold utf8_string.
  induction 1 as [|b p Hb Hp IH]; [constructor|].
  cbn [map concat]. apply Forall_app. split; [|exact IH].
  apply EncodeRune_high.
  - apply byteToVariationSelector_scalar. exact Hb.
  - rewrite byteToVariationSelector_arith by assumption.
    unfold ToCodepoint_spec, is_byte in *. destruct (b <? 16); lia.
Qed.

(** What [EncodeText] returns is made of the first byte of the target
    written as a rune, the selectors and the rest of the target. *)
Lemma EncodeText_parts (s : smuggler) (b0 : Z) (tl : list Z) :
  is_byte b0 -> clearText s <> [] ->
  EncodeText s (b0 :: tl)
  = Ok (EncodeRune b0
        ++ utf8_string (map byteToVariationSelector (clearText s)) ++ tl).
Proof.
  intros Hb0 Hne. rewrite EncodeText_cons, to_rune_byte by assumption.
  rewrite encode_utf8_string. unfold utf8_string. cbn [map concat].
  rewrite <- app_assoc. reflexivity.
Qed.

(** The encoded line has no newline when the target has none. *)
Lemma EncodeText_avoids (s : smuggler) (target e : list Z) (x : Z) :
  x < 0x80 -> 0 <= x ->
  is_bytes target -> Forall (fun b => b <> x) target ->
  is_bytes (clearText s) ->
  EncodeText s target = Ok e -> Forall (fun b => b <> x) e.
Proof.
  intros Hx Hx0 Hbytes Hnl Hp He.
  destruct target as [|b0 tl]; [discriminate|].
  assert (Hne : clearText s <> []).
  { intros Ep. unfold EncodeText in He. rewrite Ep in He.
    cbn [length Nat.eqb] in He. discriminate. }
  inversion Hbytes as [|? ? Hb0 Htl]; subst.
  inversion Hnl as [|? ? Hb0x Htlx]; subst.
  rewrite EncodeText_parts in He by assumption.
  inversion He; subst e. apply Forall_app. split; [|apply Forall_app; split].
  - apply EncodeRune_avoids; [|assumption|assumption].
    apply byte_not_selector. exact Hb0.
  - eapply Forall_impl; [|apply utf8_selectors_high; assumption].
    intros y Hy. cbn beta in Hy. lia.
  - exact Htlx.
Qed.





Lemma Run_loop_lines (s : smuggler) (targets : list (list Z)) :
  encodeMode s = true -> is_bytes (clearText s) ->
  Forall (fun t => is_bytes t /\ Forall (fun b => b <> 0x0A) t) targets ->
  forall rs0 out err,
    Run_loop s targets (unlines rs0) = (out, err) ->
    exists rs, out = unlines (rs0 ++ rs) /\
               Forall (Forall (fun b => b <> 0x0A)) rs /\
               (length rs <= length targets)%nat /\
               (err = None -> length rs = length targets).
Proof.
  intros Hmode Hp Htargets.
  induction Htargets as [|t ts [Hbytes Hnl] Hts IH]; intros rs0 out err Hrun.
  - cbn in Hrun. inversion Hrun; subst. exists []. rewrite app_nil_r.
    repeat split; [constructor | cbn; lia].
  - cbn [Run_loop] in Hrun. rewrite Hmode in Hrun.
    destruct (EncodeText s t) as [e|msg] eqn:He.
    + replace (unlines rs0 ++ e ++ [0x0A]) with (unlines (rs0 ++ [e])) in Hrun
        by (rewrite unlines_app; unfold unlines; cbn [map concat];
            rewrite app_nil_r; reflexivity).
      destruct (IH _ _ _ Hrun) as [rs [Hout [Hrs [Hlen Hnone]]]].
      exists (e :: rs). rewrite <- app_assoc in Hout. split; [exact Hout|].
      split; [|cbn [length]; split; [lia | intros E; rewrite Hnone by exact E; reflexivity]].
      constructor; [|exact Hrs].
      apply (EncodeText_avoids s t e 0x0A); try assumption; lia.
    + inversion Hrun; subst. exists []. rewrite app_nil_r.
      repeat split; [constructor | cbn; lia | discriminate].
Qed.

(** X10.  In encode mode [Run] writes one line for each line it read:
    what it has written is a sequence of lines with no newline inside
    any of them, as many as the scanner returned when [Run] returns no
    error, and no more than that when it returns one. *)
Theorem Run_encode_line_per_line (s : smuggler) (stdin out : list Z)
        (err : option string) :
  encodeMode s = true -> is_bytes stdin -> is_bytes (clearText s) ->
  Run s stdin = (out, err) ->
  exists rs,
    out = unlines rs /\
    Forall (Forall (fun b => b <> 0x0A)) rs /\
    (length rs <= length (bufio.Scanner_tokens stdin))%nat /\
    (err = None -> length rs = length (bufio.Scanner_tokens stdin)).
Proof.
  intros Hmode Hstdin Hp Hrun. unfold Run in Hrun.
  apply (Run_loop_lines s _ Hmode Hp (Scanner_tokens_bytes stdin Hstdin)
                        [] out err Hrun).
Qed.

Lemma Run_encode_line_per_line_witness :
  let s := {| clearText := [0x0A; 0x0A]; encodeMode := true |} in
  let stdin := [0x61; 0x0A; 0xC3; 0xA9] in
  encodeMode s = true /\ is_bytes stdin /\ is_bytes (clearText s) /\
  exists rs,
    fst (Run s stdin) = unlines rs /\
    Forall (Forall (fun b => b <> 0x0A)) rs /\
    length rs = 2%nat.
Proof.
  intros s stdin.
  assert (H1 : is_bytes stdin) by (repeat constructor; unfold is_byte; lia).
  assert (H2 : is_bytes (clearText s))
    by (repeat constructor; unfold is_byte; lia).
  split; [reflexivity|]. split; [exact H1|]. split; [exact H2|].
  destruct (Run_encode_line_per_line s stdin (fst (Run s stdin)) None
              eq_refl H1 H2 eq_refl) as [rs [Hout [Hrs [_ Hlen]]]].
  exists rs. split; [exact Hout|]. split; [exact Hrs|]. exact (Hlen eq_refl).
Defined.

Lemma carrier_line_scannable (c : Z) :
  is_scalar c -> c <> 0x0A -> scannable (EncodeRune c).
Proof.
  intros Hc Hnl. split.
  - apply EncodeRune_avoids; [assumption | assumption | lia].
  - unfold bufio.MaxScanTokenSize.
    destruct (is_scalar_cases c Hc) as [H|[H|[[H Hs]|H]]].
    + rewrite EncodeRune_1 by assumption. cbn. lia.
    + rewrite EncodeRune_2 by assumption. cbn. lia.
    + rewrite EncodeRune_3 by assumption. cbn. lia.
    + rewrite EncodeRune_4 by assumption. cbn. lia.
Qed.

Lemma carrier_line_dropCR (c : Z) :
  is_scalar c -> c <> 0x0D -> bufio.dropCR (EncodeRune c) = EncodeRune c.
Proof.
  intros Hc Hcr. change (EncodeRune c) with ([] ++ EncodeRune c).
  apply dropCR_keep.
  - pose proof (EncodeRune_length_pos c). destruct (EncodeRune c);
      [cbn in *; lia | discriminate].
  - apply EncodeRune_avoids; [assumption | assumption | lia].
Qed.

(** The line [EncodeText] makes of a carrier of one character: it has no
    newline, it fits the scanner, it does not end in a carriage return,
    and [DecodeText] finds the payload in it. *)
Lemma embedded_line (enc dec : smuggler) (c : Z) :
  is_scalar c -> c <> 0x0A ->
  clearText enc <> [] -> Forall printable (clearText enc) ->
  4 * Z.of_nat (length (clearText enc)) + 5 < bufio.MaxScanTokenSize ->
  exists e,
    EncodeText enc (EncodeRune c) = Ok e /\
    scannable e /\ bufio.dropCR e = e /\ e <> [] /\
    DecodeText dec e = Ok (clearText enc).
Proof.
  intros Hc Hnl Hne Hp Hsize.
  pose proof (printable_is_bytes _ Hp) as Hbytes.
  destruct (EncodeRune_shape c Hc) as [b0 [tl [Henc [Hb0 Htl]]]].
  destruct (DecodeText_EncodeText_shape enc dec b0 tl Hb0 Htl Hne Hp)
    as [e [He Hd]].
  exists e. rewrite Henc. split; [exact He|].
  assert (Heq : e = EncodeRune b0
                   ++ utf8_string (map byteToVariationSelector (clearText enc))
                   ++ tl).
  { pose proof (EncodeText_parts enc b0 tl Hb0 Hne) as Hparts.
    rewrite He in Hparts. congruence. }
  pose proof (utf8_selectors_high _ Hbytes) as Hhigh.
  assert (Htl' : Forall (fun b => 0x80 <= b <= 0xFF) tl)
    by (eapply Forall_impl; [|exact Htl]; cbn beta; intros; lia).
  assert (Hsel : utf8_string (map byteToVariationSelector (clearText enc)) <> []).
  { intros E. apply (f_equal (@length Z)) in E.
    rewrite utf8_selectors_length in E by assumption.
    destruct (clearText enc) as [|b p]; [congruence|].
    cbn [payload_width fold_right length] in E. unfold selector_width in E.
    destruct (b <? 16); lia. }
  split; [|split; [|split; [|exact Hd]]].
  - split.
    + apply (EncodeText_avoids enc (EncodeRune c) e 0x0A); try lia;
        try assumption.
      * rewrite Henc. constructor; [assumption|].
        eapply Forall_impl; [|exact Htl]. unfold is_byte. cbn beta. intros; lia.
      * apply EncodeRune_avoids; [assumption | assumption | lia].
      * rewrite Henc. exact He.
    + destruct (EncodeText_length enc b0 tl Hb0 Hne Hbytes)
        as [e' [He' [Hlen Hbound]]].
      rewrite He in He'. inversion He'; subst e'.
      assert (length tl <= 3)%nat.
      { pose proof (f_equal (@length Z) Henc) as Hl. cbn [length] in Hl.
        destruct (is_scalar_cases c Hc) as [H|[H|[[H Hs]|H]]];
          [rewrite EncodeRune_1 in Hl by assumption
          |rewrite EncodeRune_2 in Hl by assumption
          |rewrite EncodeRune_3 in Hl by assumption
          |rewrite EncodeRune_4 in Hl by assumption];
          cbn [length] in Hl; lia. }
      rewrite Hlen. destruct (b0 <? 0x80); lia.
  - rewrite Heq, app_assoc. destruct tl as [|t0 tl0].
    + rewrite app_nil_r. apply dropCR_keep; [exact Hsel|].
      eapply Forall_impl; [|exact Hhigh]. cbn beta. intros; lia.
    + apply dropCR_keep; [discriminate|].
      eapply Forall_impl; [|exact Htl']. cbn beta. intros; lia.
  - rewrite Heq. intros E. apply app_eq_nil in E. destruct E as [_ E].
    apply app_eq_nil in E. destruct E as [E _]. exact (Hsel E).
Qed.

(** X11.  The two modes of [Run] undo each other on lines of one
    character, a line being ended by a newline and holding neither a
    newline nor a carriage return: for a printable payload that is not
    empty and that the scanner has room for, what [Run] writes in encode
    mode over such lines is read back by [Run] in decode mode as the
    payload, once for each line. *)
Theorem Run_encode_then_decode (enc dec : smuggler) (cs : list Z) :
  encodeMode enc = true -> encodeMode dec = false ->
  clearText enc <> [] -> Forall printable (clearText enc) ->
  4 * Z.of_nat (length (clearText enc)) + 5 < bufio.MaxScanTokenSize ->
  Forall (fun c => is_scalar c /\ c <> 0x0A /\ c <> 0x0D) cs ->
  exists out,
    Run enc (unlines (map EncodeRune cs)) = (out, None) /\
    Run dec out = (unlines (map (fun _ => clearText enc) cs), None).
Proof.
  intros Henc Hdec Hne Hp Hsize Hcs.
  set (line := fun c => value_of (EncodeText enc (EncodeRune c))).
  assert (Hline : forall c, is_scalar c /\ c <> 0x0A /\ c <> 0x0D ->
             EncodeText enc (EncodeRune c) = Ok (line c) /\
             scannable (line c) /\ bufio.dropCR (line c) = line c /\
             line c <> [] /\ DecodeText dec (line c) = Ok (clearText enc)).
  { intros c [Hc [Hnl Hcr]].
    destruct (embedded_line enc dec c Hc Hnl Hne Hp Hsize) as [e [He Hrest]].
    unfold line. rewrite He. cbn [value_of]. split; [reflexivity | exact Hrest]. }
  exists (unlines (map line cs)). split.
  - unfold Run. rewrite Scanner_tokens_unlines.
    + rewrite map_map.
      assert (Hdrop : map (fun c => bufio.dropCR (EncodeRune c)) cs
                      = map EncodeRune cs).
      { apply map_ext_in. intros c Hin. rewrite Forall_forall in Hcs.
        destruct (Hcs c Hin) as [Hc [_ Hcr]].
        apply carrier_line_dropCR; assumption. }
      rewrite Hdrop, Run_loop_succeeds.
      * rewrite map_map. cbn [app]. f_equal. f_equal.
        apply map_ext_in. intros c Hin. unfold Run_line. rewrite Henc.
        reflexivity.
      * apply Forall_map. eapply Forall_impl; [|exact Hcs].
        intros c Hc. cbn beta. unfold Run_line. rewrite Henc.
        exists (line c). apply (Hline c Hc).
    + apply Forall_map. eapply Forall_impl; [|exact Hcs].
      intros c [Hc [Hnl _]]. apply carrier_line_scannable; assumption.
  - assert (Htok : bufio.Scanner_tokens (unlines (map line cs)) = map line cs).
    { rewrite Scanner_tokens_unlines.
      - rewrite map_map. apply map_ext_in. intros c Hin.
        rewrite Forall_forall in Hcs. apply (Hline c (Hcs c Hin)).
      - apply Forall_map. eapply Forall_impl; [|exact Hcs].
        intros c Hc. apply (Hline c Hc). }
    destruct (Run_decode_mode dec (unlines (map line cs)) Hdec) as [Hok _].
    rewrite Hok.
    + rewrite Htok, map_map. f_equal. f_equal.
      apply map_ext_in. intros c Hin. rewrite Forall_forall in Hcs.
      destruct (Hline c (Hcs c Hin)) as [_ [_ [_ [Hnil Hd]]]].
      rewrite DecodeText_nonempty in Hd by assumption.
      inversion Hd as [Heq]. rewrite Heq. reflexivity.
    + rewrite Htok. apply Forall_map. eapply Forall_impl; [|exact Hcs].
      intros c Hc. apply (Hline c Hc).
Qed.

Lemma Run_encode_then_decode_witness :
  let enc := {| clearText := [0x48; 0x69]; encodeMode := true |} in
  let dec := {| clearText := []; encodeMode := false |} in
  let cs := [0x1F600; 0x78] in
  Forall printable (clearText enc) /\
  Forall (fun c => is_scalar c /\ c <> 0x0A /\ c <> 0x0D) cs /\
  exists out,
    Run enc [0xF0; 0x9F; 0x98; 0x80; 0x0A; 0x78; 0x0A] = (out, None) /\
    Run dec out = ([0x48; 0x69; 0x0A; 0x48; 0x69; 0x0A], None).
Proof.
  intros enc dec cs.
  assert (H1 : Forall printable (clearText enc))
    by (repeat constructor; unfold printable, isgraph; lia).
  assert (H2 : Forall (fun c => is_scalar c /\ c <> 0x0A /\ c <> 0x0D) cs)
    by (repeat constructor; unfold is_scalar; lia).
  split; [exact H1|]. split; [exact H2|].
  refine (Run_encode_then_decode enc dec cs eq_refl eq_refl _ H1 _ H2).
  - discriminate.
  - unfold bufio.MaxScanTokenSize. cbn. lia.
Defined.

End Driver.

(* ===================================================================== *)
(** * Building a smuggler, and Main *)
(* ===================================================================== *)

Section Building.

Lemma apply_options_app (pre post : list smuggler_option) :
  forall s,
    apply_options (pre ++ post) s
    = match apply_options pre s with
      | (s', None) => apply_options post s'
      | (s', Some e) => (s', Some e)
      end.
Proof.
  induction pre as [|o pre IH]; intros s; [reflexivity|].
  cbn [app apply_options]. destruct (o s) as [s' [e|]]; [reflexivity|].
  apply IH.
Qed.

(** X12.  [NewSmuggler] applies its options in order and stops at the
    first that fails: it returns the error of that option with the
    struct as that option left it, and no option after it is applied;
    when the options before succeed, the options after go on from the
    struct they left. *)
Theorem NewSmuggler_stops_at_first_error
        (os_Stdin : list Z) (pre post : list smuggler_option)
        (s1 : smuggler_struct) :
  NewSmuggler os_Stdin pre = (s1, None) ->
  NewSmuggler os_Stdin (pre ++ post) = apply_options post s1 /\
  (forall o s2 e, o s1 = (s2, Some e) ->
                  NewSmuggler os_Stdin (pre ++ o :: post) = (s2, Some e)).
Proof.
  unfold NewSmuggler. intros Hpre. split.
  - rewrite apply_options_app, Hpre. reflexivity.
  - intros o s2 e Ho. rewrite apply_options_app, Hpre.
    cbn [apply_options]. rewrite Ho. reflexivity.
Qed.

Lemma NewSmuggler_stops_at_first_error_witness :
  let files := fun _ : list Z => @Err (list Z) "no such file" in
  let pre := [WithClearText [0x48]; WithEncodeFlag true] in
  let post := [WithClearText [0x49]; WithEncodeFlag false] in
  exists s1,
    NewSmuggler [] pre = (s1, None) /\
    NewSmuggler [] (pre ++ WithClearFile files [0x66] :: post)
    = (s1, Some "no such file"%string) /\
    fields s1 = {| clearText := [0x48]; encodeMode := true |}.
Proof.
  intros files pre post. eexists. split; [reflexivity|]. split.
  - refine (proj2 (NewSmuggler_stops_at_first_error [] pre post _ eq_refl)
                  (WithClearFile files [0x66]) _ _ eq_refl).
  - reflexivity.
Defined.

Lemma apply_known_options (files : list Z -> result (list Z))
      (ks : list known_option) :
  forall s,
    snd (apply_options (map (the_option files) ks) s)
    = first_unreadable files ks /\
    clearText (fields (fst (apply_options (map (the_option files) ks) s)))
    = last_clear_text files ks (clearText (fields s)) /\
    (first_unreadable files ks = None ->
     encodeMode (fields (fst (apply_options (map (the_option files) ks) s)))
     = last_encode_flag ks (encodeMode (fields s))).
Proof.
  induction ks as [|k ks IH]; intros s.
  - cbn. repeat split.
  - assert (Hnext : forall s',
               clearText (fields s') = clearText (fields s) ->
               encodeMode (fields s') = encodeMode (fields s) ->
               snd (apply_options (map (the_option files) ks) s')
               = first_unreadable files ks /\
               clearText (fields (fst (apply_options
                                         (map (the_option files) ks) s')))
               = last_clear_text files ks (clearText (fields s)) /\
               (first_unreadable files ks = None ->
                encodeMode (fields (fst (apply_options
                                           (map (the_option files) ks) s')))
                = last_encode_flag ks (encodeMode (fields s)))).
    { intros s' Hc He. rewrite <- Hc, <- He. apply IH. }
    destruct k; cbn [map the_option apply_options first_unreadable
                     last_clear_text last_encode_flag];
      unfold WithInput, WithOutput, WithError, WithClearText, WithEncodeFlag;
      cbv iota beta.
    + unfold WithInputFromArgs. destruct (length args <? 1)%nat;
        apply Hnext; reflexivity.
    + apply Hnext; reflexivity.
    + apply Hnext; reflexivity.
    + apply Hnext; reflexivity.
    + match goal with
      | |- context [apply_options _ ?s'] => exact (IH s')
      end.
    + unfold WithClearFile. destruct (files file) as [text|msg].
      * match goal with
        | |- context [apply_options _ ?s'] => exact (IH s')
        end.
      * cbn. repeat split. intros H. discriminate.
    + match goal with
      | |- context [apply_options _ ?s'] => exact (IH s')
      end.
Qed.

(** X13.  With the options of the package, [NewSmuggler] fails when a
    [WithClearFile] names a file that cannot be read and at no other
    time, with the error of the first such file.  The clear text is the
    one the last [WithClearText] or readable [WithClearFile] before that
    gave, and empty when there is none; when nothing fails the mode is
    the one the last [WithEncodeFlag] gave, and decoding when there is
    none. *)
Theorem NewSmuggler_known_options (os_Stdin : list Z)
        (files : list Z -> result (list Z)) (ks : list known_option) :
  snd (NewSmuggler os_Stdin (map (the_option files) ks))
  = first_unreadable files ks /\
  clearText (fields (fst (NewSmuggler os_Stdin (map (the_option files) ks))))
  = last_clear_text files ks [] /\
  (first_unreadable files ks = None ->
   encodeMode (fields (fst (NewSmuggler os_Stdin (map (the_option files) ks))))
   = last_encode_flag ks false).
Proof. unfold NewSmuggler. apply apply_known_options. Qed.

Lemma NewSmuggler_known_options_witness :
  let files := fun file : list Z =>
                 match file with
                 | [0x66] => Ok [0x48; 0x69]
                 | _ => Err "no such file"
                 end in
  let ks := [KClearText [0x78]; KEncodeFlag true; KClearFile [0x66];
             KInputFromArgs []; KEncodeFlag false] in
  first_unreadable files ks = None /\
  NewSmuggler [0x61] (map (the_option files) ks)
  = ({| stdin := [0x61]; stdout := os_Stdout; stderr := os_Stderr;
        fields := {| clearText := [0x48; 0x69]; encodeMode := false |} |},
     None) /\
  encodeMode (fields (fst (NewSmuggler [0x61] (map (the_option files) ks))))
  = false.
Proof.
  intros files ks. split; [reflexivity|]. split; [reflexivity|].
  exact (proj2 (proj2 (NewSmuggler_known_options [0x61] files ks)) eq_refl).
Defined.

Lemma no_flag_value_test (f : parsed_flags) :
  negb (flag_value (flag_decode f) false)
  && (length (flag_value (flag_encode f) []) =? 0)%nat
  && (length (flag_value (flag_encodefile f) []) =? 0)%nat
  && negb (flag_value (flag_version f) false) = true
  <-> no_flag_value f.
Proof.
  unfold no_flag_value.
  rewrite !andb_true_iff, !negb_true_iff, !length_eqb_nil. tauto.
Qed.

Lemma flag_value_set (f : parsed_flags) :
  ~ no_flag_value f -> (1 <= NFlag f)%nat.
Proof.
  unfold no_flag_value, NFlag. intros H.
  destruct (flag_encode f), (flag_encodefile f), (flag_decode f),
    (flag_version f); cbn [was_set flag_value] in *; try lia.
  exfalso. apply H. repeat split.
Qed.

(** X14.  The status of [Main]: [MissingInputError] exactly when no flag
    has a value other than its default, [TooManyInputsError] exactly
    when one has and more than one flag was set, and [StatusOK] or
    [ExecutionError] exactly when one flag was set and its value is not
    the default; [MissingTextToEncodeError] is never returned. *)
Theorem Main_status (env : process) (f : parsed_flags) (sin : list Z)
        (out err : Writer) :
  let status := fst (Main env f sin out err) in
  (status = MissingInputError <-> no_flag_value f) /\
  (status = TooManyInputsError <-> ~ no_flag_value f /\ (1 < NFlag f)%nat) /\
  (status = StatusOK \/ status = ExecutionError
   <-> ~ no_flag_value f /\ NFlag f = 1%nat) /\
  status <> MissingTextToEncodeError.
Proof.
  cbv zeta. unfold Main.
  pose proof (no_flag_value_test f) as Htest.
  pose proof (flag_value_set f) as Hset.
  destruct (negb (flag_value (flag_decode f) false)
            && (length (flag_value (flag_encode f) []) =? 0)%nat
            && (length (flag_value (flag_encodefile f) []) =? 0)%nat
            && negb (flag_value (flag_version f) false)) eqn:Eidle.
  - assert (Hidle : no_flag_value f) by (apply Htest; reflexivity).
    cbn [fst]. unfold MissingInputError, TooManyInputsError, StatusOK,
                 ExecutionError, MissingTextToEncodeError.
    intuition (try discriminate; try lia).
  - assert (Hidle : ~ no_flag_value f)
      by (intros H; apply Htest in H; congruence).
    specialize (Hset Hidle).
    destruct (Nat.ltb_spec 1 (NFlag f)) as [Hmany|Hone].
    + cbn [fst]. unfold MissingInputError, TooManyInputsError, StatusOK,
                   ExecutionError, MissingTextToEncodeError.
      intuition (try discriminate; try lia).
    + assert (Hstatus :
        forall r : Z * list (Writer * list Z),
          fst r = StatusOK \/ fst r = ExecutionError ->
          (fst r = MissingInputError <-> no_flag_value f) /\
          (fst r = TooManyInputsError
           <-> ~ no_flag_value f /\ (1 < NFlag f)%nat) /\
          (fst r = StatusOK \/ fst r = ExecutionError
           <-> ~ no_flag_value f /\ NFlag f = 1%nat) /\
          fst r <> MissingTextToEncodeError).
      { intros r Hr. unfold MissingInputError, TooManyInputsError, StatusOK,
                       ExecutionError, MissingTextToEncodeError in *.
        destruct Hr as [Hr | Hr]; rewrite Hr;
          intuition (try discriminate; try lia). }
      apply Hstatus.
      destruct (flag_value (flag_version f) false); [left; reflexivity|].
      destruct (NewSmuggler _ _) as [s [e|]]; [right; reflexivity|].
      destruct (Run_struct s) as [written [e|]];
        [right | left]; reflexivity.
Qed.

Lemma Main_status_witness :
  let env := {| os_Args0 := [0x65]; os_Stdin := [];
                files := fun _ => Err "no such file";
                flag_defaults := [] |} in
  let f := {| flag_encode := Some [0x48]; flag_encodefile := None;
              flag_decode := Some false; flag_version := None;
              flag_Args := [] |} in
  ~ no_flag_value f /\ (1 < NFlag f)%nat /\
  fst (Main env f [] os_Stdout os_Stderr) = TooManyInputsError.
Proof.
  intros env f.
  assert (H1 : ~ no_flag_value f)
    by (unfold no_flag_value; cbn; intros [_ [H _]]; discriminate).
  assert (H2 : (1 < NFlag f)%nat) by (cbn; lia).
  split; [exact H1|]. split; [exact H2|].
  exact (proj2 (proj1 (proj2 (Main_status env f [] os_Stdout os_Stderr)))
               (conj H1 H2)).
Defined.

(** X15.  When there are arguments after the flags [Main] does not read
    the standard input: what it returns and writes is the same whatever
    the standard input holds. *)
Theorem Main_arguments_replace_stdin (env : process) (f : parsed_flags)
        (sin other : list Z) (out err : Writer) :
  flag_Args f <> [] ->
  Main env f sin out err
  = Main {| os_Args0 := os_Args0 env; os_Stdin := other;
            files := files env; flag_defaults := flag_defaults env |}
         f sin out err.
Proof.
  intros Hargs. unfold Main, NewSmuggler, Usage. cbn [os_Args0 os_Stdin files flag_defaults].
  cbn [apply_options]. unfold WithInputFromArgs.
  destruct (flag_Args f) as [|a args]; [congruence|].
  cbn [length Nat.ltb Nat.leb]. reflexivity.
Qed.

Lemma Main_arguments_replace_stdin_witness :
  let env := {| os_Args0 := [0x65]; os_Stdin := [0x61; 0x0A];
                files := fun _ => Err "no such file";
                flag_defaults := [] |} in
  let f := {| flag_encode := Some [0x48]; flag_encodefile := None;
              flag_decode := None; flag_version := None;
              flag_Args := [[0x78]; [0x79]] |} in
  flag_Args f <> [] /\
  Main env f [] os_Stdout os_Stderr
  = (StatusOK, [(os_Stdout, [0x78; 0xF3; 0xA0; 0x84; 0xB8; 0x20; 0x79; 0x0A])]).
Proof.
  intros env f.
  assert (H : flag_Args f <> []) by discriminate.
  split; [exact H|].
  rewrite (Main_arguments_replace_stdin env f [] [] os_Stdout os_Stderr H).
  reflexivity.
Defined.

Lemma Run_one_line (s : smuggler) (l res : list Z) (nl : list Z) :
  scannable l -> bufio.dropCR l = l -> l <> [] ->
  nl = [] \/ nl = [0x0A] ->
  Run_line s l = Ok res ->
  Run s (l ++ nl) = (res ++ [0x0A], None).
Proof.
  intros Hscan Hdrop Hne Hnl Hres. unfold Run.
  assert (Htok : bufio.Scanner_tokens (l ++ nl) = [l]).
  { destruct Hnl as [-> | ->].
    - rewrite app_nil_r. unfold bufio.Scanner_tokens.
      destruct Hscan as [Hnl Hlen].
      rewrite scan_lines_last by assumption. cbn [app]. rewrite Hdrop.
      reflexivity.
    - change (l ++ [0x0A]) with (l ++ 0x0A :: unlines []).
      rewrite <- unlines_cons, Scanner_tokens_unlines
        by (constructor; [assumption | constructor]).
      cbn [map]. rewrite Hdrop. reflexivity. }
  rewrite Htok. cbn [Run_loop]. unfold Run_line in Hres. rewrite Hres.
  reflexivity.
Qed.

(** X16.  The command undoes itself on one argument of one character
    that is no newline and no carriage return.  With [-encode], a
    printable payload that is not empty and that the scanner has room
    for, and such an argument, [Main] writes one line to its output and
    returns [StatusOK]; with [-decode] and that output as the standard
    input, [Main] writes the payload and a newline and returns
    [StatusOK].  When the character is a newline or a carriage return the
    scanner returns an empty line: [Main] with [-encode] writes nothing
    to its output, reports that the target cannot be empty and returns
    [ExecutionError]. *)
Theorem Main_encode_then_decode (env : process) (p : list Z) (c : Z)
        (sin : list Z) (out err : Writer) :
  p <> [] -> Forall printable p ->
  4 * Z.of_nat (length p) + 5 < bufio.MaxScanTokenSize ->
  is_scalar c ->
  (c <> 0x0A -> c <> 0x0D ->
   exists written,
     Main env (encode_flags p [EncodeRune c]) sin out err
     = (StatusOK, [(out, written)]) /\
     forall env' sin' out' err',
       os_Stdin env' = written ->
       Main env' (decode_flags []) sin' out' err'
       = (StatusOK, [(out', p ++ [0x0A])])) /\
  (c = 0x0A \/ c = 0x0D ->
   Main env (encode_flags p [EncodeRune c]) sin out err
   = (ExecutionError,
      [(out, []); report_error err "target cannot be empty"])).
Proof.
  intros Hne Hp Hsize Hc.
  assert (Hlen : (length p =? 0)%nat = false)
    by (destruct p; [congruence | reflexivity]).
  split.
  - intros Hnl Hcr.
    set (enc := {| clearText := p; encodeMode := true |}).
    set (dec := {| clearText := []; encodeMode := false |}).
    destruct (embedded_line enc dec c Hc Hnl Hne Hp Hsize)
      as [e [He [Hscan [Hdrop [Hne' Hd]]]]].
    cbn [clearText enc] in Hd.
    exists (e ++ [0x0A]). split.
    + unfold Main, encode_flags.
      cbn [flag_value flag_encode flag_encodefile flag_decode flag_version
           flag_Args].
      rewrite Hlen. cbn [negb andb]. unfold NFlag.
      cbn [was_set flag_encode flag_encodefile flag_decode flag_version
           Nat.add Nat.ltb Nat.leb].
      unfold NewSmuggler. cbn [apply_options].
      unfold WithInputFromArgs, WithOutput, WithError, WithEncodeFlag,
        WithClearText.
      cbn [length Nat.ltb Nat.leb Join stdin stdout stderr fields clearText
           encodeMode negb].
      unfold Run_struct. cbn [stdin stdout fields].
      fold enc.
      pose proof (Run_one_line enc (EncodeRune c) e []) as Hrun.
      rewrite app_nil_r in Hrun. rewrite Hrun; [reflexivity | | | | |].
      * apply carrier_line_scannable; assumption.
      * apply carrier_line_dropCR; assumption.
      * pose proof (EncodeRune_length_pos c). destruct (EncodeRune c);
          [cbn in *; lia | discriminate].
      * left; reflexivity.
      * exact He.
    + intros env' sin' out' err' Hin.
      unfold Main, decode_flags.
      cbn [flag_value flag_encode flag_encodefile flag_decode flag_version
           flag_Args length Nat.eqb negb andb].
      unfold NFlag.
      cbn [was_set flag_encode flag_encodefile flag_decode flag_version
           Nat.add Nat.ltb Nat.leb].
      unfold NewSmuggler. cbn [apply_options].
      unfold WithInputFromArgs, WithOutput, WithError, WithEncodeFlag,
        WithClearText.
      cbn [length Nat.ltb Nat.leb Join stdin stdout stderr fields clearText
           encodeMode negb].
      unfold Run_struct. cbn [stdin stdout fields].
      fold dec. rewrite Hin.
      rewrite (Run_one_line dec e p [0x0A]); try assumption;
        [reflexivity | right; reflexivity].
  - intros Hline.
    assert (Hrun : Run {| clearText := p; encodeMode := true |} (EncodeRune c)
                   = ([], Some "target cannot be empty"%string))
      by (destruct Hline as [-> | ->]; reflexivity).
    unfold Main, encode_flags.
    cbn [flag_value flag_encode flag_encodefile flag_decode flag_version
         flag_Args].
    rewrite Hlen. cbn [negb andb]. unfold NFlag.
    cbn [was_set flag_encode flag_encodefile flag_decode flag_version
         Nat.add Nat.ltb Nat.leb].
    unfold NewSmuggler. cbn [apply_options].
    unfold WithInputFromArgs, WithOutput, WithError, WithEncodeFlag,
      WithClearText.
    cbn [length Nat.ltb Nat.leb Join stdin stdout stderr fields clearText
         encodeMode negb].
    unfold Run_struct. cbn [stdin stdout fields].
    rewrite Hrun. reflexivity.
Qed.

Lemma Main_encode_then_decode_witness :
  let env := {| os_Args0 := [0x65]; os_Stdin := [];
                files := fun _ => Err "no such file";
                flag_defaults := [] |} in
  let p := [0x48; 0x69] in
  p <> [] /\ Forall printable p /\
  4 * Z.of_nat (length p) + 5 < bufio.MaxScanTokenSize /\
  is_scalar 0x78 /\ is_scalar 0x0D /\
  (exists written,
     Main env (encode_flags p [EncodeRune 0x78]) [] os_Stdout os_Stderr
     = (StatusOK, [(os_Stdout, written)]) /\
     forall env' sin' out' err',
       os_Stdin env' = written ->
       Main env' (decode_flags []) sin' out' err'
       = (StatusOK, [(out', p ++ [0x0A])])) /\
  Main env (encode_flags p [EncodeRune 0x0D]) [] os_Stdout os_Stderr
  = (ExecutionError,
     [(os_Stdout, []);
      report_error os_Stderr "target cannot be empty"]).
Proof.
  intros env p.
  assert (H1 : p <> []) by discriminate.
  assert (H2 : Forall printable p)
    by (repeat constructor; unfold isgraph, no_space_byte; cbn; lia).
  assert (H3 : 4 * Z.of_nat (length p) + 5 < bufio.MaxScanTokenSize)
    by (cbn; unfold bufio.MaxScanTokenSize; lia).
  assert (H4 : is_scalar 0x78) by (unfold is_scalar; lia).
  assert (H5 : is_scalar 0x0D) by (unfold is_scalar; lia).
  assert (H6 : 0x78 <> 0x0A) by discriminate.
  assert (H7 : 0x78 <> 0x0D) by discriminate.
  repeat (split; [assumption|]).
  split.
  - exact (proj1 (Main_encode_then_decode env p 0x78 [] os_Stdout os_Stderr
                    H1 H2 H3 H4) H6 H7).
  - exact (proj2 (Main_encode_then_decode env p 0x0D [] os_Stdout os_Stderr
                    H1 H2 H3 H5) (or_intror eq_refl)).
Defined.

(** X17.  When [Main] returns [MissingInputError] or
    [TooManyInputsError], every piece it has written went to its
    parameter [stderr] or to the standard error of the process, and the
    last piece, the defaults of the flags, went to the standard error of
    the process whatever the parameter is. *)
Theorem Main_usage_errors_to_stderr (env : process) (f : parsed_flags)
        (sin : list Z) (out err : Writer) :
  fst (Main env f sin out err) = MissingInputError \/
  fst (Main env f sin out err) = TooManyInputsError ->
  Forall (fun piece => fst piece = err \/ fst piece = os_Stderr)
         (snd (Main env f sin out err)) /\
  last (snd (Main env f sin out err)) (err, [])
  = (os_Stderr, flag_defaults env).
Proof.
  unfold Main.
  destruct (negb (flag_value (flag_decode f) false)
            && (length (flag_value (flag_encode f) []) =? 0)%nat
            && (length (flag_value (flag_encodefile f) []) =? 0)%nat
            && negb (flag_value (flag_version f) false)).
  - intros _. cbn [snd]. unfold Usage. split; [|reflexivity].
    repeat (apply Forall_cons; [cbn [fst]; auto|]). apply Forall_nil.
  - destruct (1 <? NFlag f)%nat.
    + intros _. cbn [snd]. unfold Usage. split; [|reflexivity].
      repeat (apply Forall_cons; [cbn [fst]; auto|]). apply Forall_nil.
    + unfold MissingInputError, TooManyInputsError, StatusOK, ExecutionError.
      destruct (flag_value (flag_version f) false);
        [cbn [fst]; intros [H|H]; discriminate|].
      destruct (NewSmuggler _ _) as [s [e|]];
        [cbn [fst]; intros [H|H]; discriminate|].
      destruct (Run_struct s) as [written [e|]];
        cbn [fst]; intros [H|H]; discriminate.
Qed.

Lemma Main_usage_errors_to_stderr_witness :
  let env := {| os_Args0 := [0x65]; os_Stdin := [];
                files := fun _ => Err "no such file";
                flag_defaults := [0x2D; 0x64; 0x0A] |} in
  let f := {| flag_encode := None; flag_encodefile := None;
              flag_decode := Some false; flag_version := None;
              flag_Args := [[0x78]] |} in
  (fst (Main env f [] os_Stdout (a_Writer 2)) = MissingInputError \/
   fst (Main env f [] os_Stdout (a_Writer 2)) = TooManyInputsError) /\
  written_to os_Stdout (snd (Main env f [] os_Stdout (a_Writer 2))) = [] /\
  last (snd (Main env f [] os_Stdout (a_Writer 2))) (a_Writer 2, [])
  = (os_Stderr, [0x2D; 0x64; 0x0A]).
Proof.
  intros env f.
  assert (H : fst (Main env f [] os_Stdout (a_Writer 2)) = MissingInputError \/
              fst (Main env f [] os_Stdout (a_Writer 2)) = TooManyInputsError)
    by (left; reflexivity).
  split; [exact H|]. split; [reflexivity|].
  exact (proj2 (Main_usage_errors_to_stderr env f [] os_Stdout (a_Writer 2) H)).
Defined.

(** X18.  [-encodefile] with a file that can be read and is not empty
    does what [-encode] does with the contents of the file. *)
Theorem Main_encodefile_as_encode (env : process) (file text : list Z)
        (args : list (list Z)) (sin : list Z) (out err : Writer) :
  file <> [] -> files env file = Ok text -> text <> [] ->
  Main env (encodefile_flags file args) sin out err
  = Main env (encode_flags text args) sin out err.
Proof.
  intros Hfile Hread Htext.
  assert (Hf : (length file =? 0)%nat = false)
    by (destruct file; [congruence | reflexivity]).
  assert (Ht : (length text =? 0)%nat = false)
    by (destruct text; [congruence | reflexivity]).
  unfold Main, encodefile_flags, encode_flags.
  cbn [flag_value flag_encode flag_encodefile flag_decode flag_version
       flag_Args length Nat.eqb].
  rewrite Hf, Ht. cbn [negb andb]. unfold NFlag.
  cbn [was_set flag_encode flag_encodefile flag_decode flag_version
       Nat.add Nat.ltb Nat.leb].
  unfold NewSmuggler. cbn [apply_options].
  unfold WithOutput, WithError, WithEncodeFlag, WithClearText, WithClearFile.
  destruct (WithInputFromArgs args _) as [s0 [e|]]; [reflexivity|].
  cbn [stdin stdout stderr fields clearText encodeMode].
  rewrite Hread. reflexivity.
Qed.

Lemma Main_encodefile_as_encode_witness :
  let env := {| os_Args0 := [0x65]; os_Stdin := [0x78; 0x0A];
                files := fun name =>
                  if (length name =? 1)%nat then Ok [0x48; 0x69]
                  else Err "no such file";
                flag_defaults := [] |} in
  [0x66] <> [] /\ files env [0x66] = Ok [0x48; 0x69] /\ [0x48; 0x69] <> [] /\
  Main env (encodefile_flags [0x66] []) [] os_Stdout os_Stderr
  = Main env (encode_flags [0x48; 0x69] []) [] os_Stdout os_Stderr.
Proof.
  intros env.
  assert (H1 : [0x66] <> ([] : list Z)) by discriminate.
  assert (H2 : files env [0x66] = Ok [0x48; 0x69]) by reflexivity.
  assert (H3 : [0x48; 0x69] <> ([] : list Z)) by discriminate.
  split; [exact H1|]. split; [exact H2|]. split; [exact H3|].
  exact (Main_encodefile_as_encode env [0x66] [0x48; 0x69] [] []
           os_Stdout os_Stderr H1 H2 H3).
Defined.

End Building.
